(** * Scene graph of goblin: [Object3D] (src/3d/object3d.js)

    A shallow embedding of the transform hierarchy: nodes live in a heap
    indexed by object references, every method is a computation in a
    state-and-exception monad over that heap, and the recursive traversals
    ([update], [destroy]) are bounded by the depth of the call stack.  The
    constructor of [Program] (src/gl/program.js) follows in module [Gl]. *)

From stdpp Require Import gmap strings list fin_maps relations.

Open Scope string_scope.
Open Scope list_scope.

(** ** The math library (src/math/{vec3,quat,mat4}.js)

    The scene graph only calls the math library; it never looks inside a
    vector or a matrix.  The library is therefore an interface.  In-place
    methods [a.f(b)] are read as functions returning the new value of [a];
    [copy] is the identity on values. *)

Class Math := {
  Num : Type;
  Vec3 : Type;
  Quat : Type;
  Mat4 : Type;
  Vec3_add : Vec3 → Vec3 → Vec3;
  Vec3_multiply : Vec3 → Vec3 → Vec3;
  Vec3_translateX : Vec3 → Num → Vec3;
  Vec3_translateY : Vec3 → Num → Vec3;
  Vec3_translateZ : Vec3 → Num → Vec3;
  Vec3_X_AXIS : Vec3;
  Vec3_Y_AXIS : Vec3;
  Vec3_Z_AXIS : Vec3;
  Quat_new : Quat;
  Quat_multiply : Quat → Quat → Quat;
  Quat_fromAxisRotation : Num → Vec3 → Quat;
  Mat4_identity : Mat4;
  Mat4_multiply : Mat4 → Mat4 → Mat4;
  Mat4_translate : Mat4 → Vec3 → Mat4;
  Mat4_rotateQuat : Mat4 → Quat → Mat4;
  Mat4_scaleVec : Mat4 → Vec3 → Mat4;
}.

(** ** An exact instance of the math interface

    Integer vectors, quaternions and 4×4 matrices (four rows of four).  The
    rotation matrix of a quaternion is polynomial in its components, so the
    whole interface stays within the integers and every scene over it can be
    evaluated. *)
Module Zmath.

Definition V3 : Type := Z * Z * Z.
Definition V4 : Type := Z * Z * Z * Z.
Definition M44 : Type := V4 * V4 * V4 * V4.

Definition v3_add (a b : V3) : V3 :=
  let '(ax, ay, az) := a in let '(bx, by_, bz) := b in
  (ax + bx, ay + by_, az + bz)%Z.
Definition v3_multiply (a b : V3) : V3 :=
  let '(ax, ay, az) := a in let '(bx, by_, bz) := b in
  (ax * bx, ay * by_, az * bz)%Z.
Definition v3_translateX (a : V3) (d : Z) : V3 :=
  let '(ax, ay, az) := a in ((ax + d)%Z, ay, az).
Definition v3_translateY (a : V3) (d : Z) : V3 :=
  let '(ax, ay, az) := a in (ax, (ay + d)%Z, az).
Definition v3_translateZ (a : V3) (d : Z) : V3 :=
  let '(ax, ay, az) := a in (ax, ay, (az + d)%Z).

(** Hamilton product, components in the order x, y, z, w. *)
Definition q_multiply (a b : V4) : V4 :=
  let '(ax, ay, az, aw) := a in let '(bx, by_, bz, bw) := b in
  (aw * bx + ax * bw + ay * bz - az * by_,
   aw * by_ - ax * bz + ay * bw + az * bx,
   aw * bz + ax * by_ - ay * bx + az * bw,
   aw * bw - ax * bx - ay * by_ - az * bz)%Z.
Definition q_fromAxisRotation (theta : Z) (axis : V3) : V4 :=
  let '(x, y, z) := axis in ((theta * x)%Z, (theta * y)%Z, (theta * z)%Z, 1%Z).

Definition dot (a b : V4) : Z :=
  let '(a0, a1, a2, a3) := a in let '(b0, b1, b2, b3) := b in
  (a0 * b0 + a1 * b1 + a2 * b2 + a3 * b3)%Z.
Definition col (k : nat) (m : M44) : V4 :=
  let pick (r : V4) : Z :=
    let '(r0, r1, r2, r3) := r in
    match k with 0 => r0 | 1 => r1 | 2 => r2 | _ => r3 end in
  let '(r0, r1, r2, r3) := m in (pick r0, pick r1, pick r2, pick r3).
Definition row_times (r : V4) (m : M44) : V4 :=
  (dot r (col 0 m), dot r (col 1 m), dot r (col 2 m), dot r (col 3 m)).
Definition m_multiply (a b : M44) : M44 :=
  let '(a0, a1, a2, a3) := a in
  (row_times a0 b, row_times a1 b, row_times a2 b, row_times a3 b).

Definition m_identity : M44 :=
  ((1, 0, 0, 0), (0, 1, 0, 0), (0, 0, 1, 0), (0, 0, 0, 1))%Z.
Definition m_Translate (v : V3) : M44 :=
  let '(x, y, z) := v in
  ((1, 0, 0, x), (0, 1, 0, y), (0, 0, 1, z), (0, 0, 0, 1))%Z.
Definition m_Scale (v : V3) : M44 :=
  let '(x, y, z) := v in
  ((x, 0, 0, 0), (0, y, 0, 0), (0, 0, z, 0), (0, 0, 0, 1))%Z.
Definition m_Rotate (q : V4) : M44 :=
  let '(x, y, z, w) := q in
  ((1 - 2 * (y * y + z * z), 2 * (x * y - z * w), 2 * (x * z + y * w), 0),
   (2 * (x * y + z * w), 1 - 2 * (x * x + z * z), 2 * (y * z - x * w), 0),
   (2 * (x * z - y * w), 2 * (y * z + x * w), 1 - 2 * (x * x + y * y), 0),
   (0, 0, 0, 1))%Z.

#[export] Instance math : Math := {|
  Num := Z;
  Vec3 := V3;
  Quat := V4;
  Mat4 := M44;
  Vec3_add := v3_add;
  Vec3_multiply := v3_multiply;
  Vec3_translateX := v3_translateX;
  Vec3_translateY := v3_translateY;
  Vec3_translateZ := v3_translateZ;
  Vec3_X_AXIS := (1, 0, 0)%Z;
  Vec3_Y_AXIS := (0, 1, 0)%Z;
  Vec3_Z_AXIS := (0, 0, 1)%Z;
  Quat_new := (0, 0, 0, 1)%Z;
  Quat_multiply := q_multiply;
  Quat_fromAxisRotation := q_fromAxisRotation;
  Mat4_identity := m_identity;
  Mat4_multiply := m_multiply;
  Mat4_translate := λ m v, m_multiply m (m_Translate v);
  Mat4_rotateQuat := λ m q, m_multiply m (m_Rotate q);
  Mat4_scaleVec := λ m v, m_multiply m (m_Scale v);
|}.

End Zmath.

(** Object references and callback handles. *)
Definition ref := nat.
Definition Callback := nat.

Section Scene.
Context `{Math}.

(** ** Data model *)

(** [_children] is a JS [Set]: insertion ordered, without duplicates.
    [_is_local_model_valid] is not initialised by the constructor, so it is
    [undefined] ([None]) until first written.  [_listeners] belongs to
    [Listenable]. *)
Record Object3D := mkObject3D {
  _id : string;
  _name : string;
  _parent : option ref;
  _children : list ref;
  _origin : Vec3;
  _orientation : Quat;
  _scale : Vec3;
  _is_model_valid : bool;
  _is_local_model_valid : option bool;
  _local_model : Mat4;
  _world_model : Mat4;
  _tmp_quaternion : Quat;
  _listeners : gmap string (list Callback);
}.

Definition with_name (v : string) (o : Object3D) : Object3D :=
  mkObject3D (_id o) v (_parent o) (_children o) (_origin o) (_orientation o)
    (_scale o) (_is_model_valid o) (_is_local_model_valid o) (_local_model o)
    (_world_model o) (_tmp_quaternion o) (_listeners o).
Definition with_parent (v : option ref) (o : Object3D) : Object3D :=
  mkObject3D (_id o) (_name o) v (_children o) (_origin o) (_orientation o)
    (_scale o) (_is_model_valid o) (_is_local_model_valid o) (_local_model o)
    (_world_model o) (_tmp_quaternion o) (_listeners o).
Definition with_children (v : list ref) (o : Object3D) : Object3D :=
  mkObject3D (_id o) (_name o) (_parent o) v (_origin o) (_orientation o)
    (_scale o) (_is_model_valid o) (_is_local_model_valid o) (_local_model o)
    (_world_model o) (_tmp_quaternion o) (_listeners o).
Definition with_origin (v : Vec3) (o : Object3D) : Object3D :=
  mkObject3D (_id o) (_name o) (_parent o) (_children o) v (_orientation o)
    (_scale o) (_is_model_valid o) (_is_local_model_valid o) (_local_model o)
    (_world_model o) (_tmp_quaternion o) (_listeners o).
Definition with_orientation (v : Quat) (o : Object3D) : Object3D :=
  mkObject3D (_id o) (_name o) (_parent o) (_children o) (_origin o) v
    (_scale o) (_is_model_valid o) (_is_local_model_valid o) (_local_model o)
    (_world_model o) (_tmp_quaternion o) (_listeners o).
Definition with_scale (v : Vec3) (o : Object3D) : Object3D :=
  mkObject3D (_id o) (_name o) (_parent o) (_children o) (_origin o)
    (_orientation o) v (_is_model_valid o) (_is_local_model_valid o)
    (_local_model o) (_world_model o) (_tmp_quaternion o) (_listeners o).
Definition with_is_model_valid (v : bool) (o : Object3D) : Object3D :=
  mkObject3D (_id o) (_name o) (_parent o) (_children o) (_origin o)
    (_orientation o) (_scale o) v (_is_local_model_valid o) (_local_model o)
    (_world_model o) (_tmp_quaternion o) (_listeners o).
Definition with_is_local_model_valid (v : option bool) (o : Object3D) : Object3D :=
  mkObject3D (_id o) (_name o) (_parent o) (_children o) (_origin o)
    (_orientation o) (_scale o) (_is_model_valid o) v (_local_model o)
    (_world_model o) (_tmp_quaternion o) (_listeners o).
Definition with_local_model (v : Mat4) (o : Object3D) : Object3D :=
  mkObject3D (_id o) (_name o) (_parent o) (_children o) (_origin o)
    (_orientation o) (_scale o) (_is_model_valid o) (_is_local_model_valid o) v
    (_world_model o) (_tmp_quaternion o) (_listeners o).
Definition with_world_model (v : Mat4) (o : Object3D) : Object3D :=
  mkObject3D (_id o) (_name o) (_parent o) (_children o) (_origin o)
    (_orientation o) (_scale o) (_is_model_valid o) (_is_local_model_valid o)
    (_local_model o) v (_tmp_quaternion o) (_listeners o).
Definition with_tmp_quaternion (v : Quat) (o : Object3D) : Object3D :=
  mkObject3D (_id o) (_name o) (_parent o) (_children o) (_origin o)
    (_orientation o) (_scale o) (_is_model_valid o) (_is_local_model_valid o)
    (_local_model o) (_world_model o) v (_listeners o).
Definition with_listeners (v : gmap string (list Callback)) (o : Object3D) : Object3D :=
  mkObject3D (_id o) (_name o) (_parent o) (_children o) (_origin o)
    (_orientation o) (_scale o) (_is_model_valid o) (_is_local_model_valid o)
    (_local_model o) (_world_model o) (_tmp_quaternion o) v.

(** JS truthiness of a flag that may still be [undefined]. *)
Definition truthy (b : option bool) : bool := default false b.

(** Arguments handed to a listener. *)
Inductive Value :=
  | VVec3 (v : Vec3)
  | VQuat (q : Quat)
  | VMat4 (m : Mat4)
  | VObject (r : ref).

(** One call of a listener: which callback, registered on which node, for
    which event, with which arguments. *)
Record Invocation := mkInvocation {
  inv_callback : Callback;
  inv_target : ref;
  inv_event : string;
  inv_args : list Value;
}.

(** Diagnostics written through [wl]. *)
Inductive Warning :=
  | AlreadyChild (id : string)
  | NotAChild (object : option ref).

(** The program state: the objects, the listener calls made so far (oldest
    first) and the warnings logged so far. *)
Record World := mkWorld {
  heap : gmap ref Object3D;
  trace : list Invocation;
  warnings : list Warning;
}.

Definition empty_world : World := mkWorld ∅ [] [].

(** ** Exceptions and the method monad *)

(** [JsError] is [throw new Error(msg)].  [StackOverflow] is the call stack
    running out in a recursive method.  [Dangling] is a method call on a
    reference that names no object; it cannot happen in a closed heap. *)
Inductive Exn :=
  | JsError (msg : string)
  | StackOverflow
  | Dangling (r : ref).

Inductive Result (A : Type) :=
  | Ok (a : A)
  | Throw (e : Exn).
Global Arguments Ok {A} a.
Global Arguments Throw {A} e.

Definition M (A : Type) : Type := World → Result A * World.

Definition ret {A} (a : A) : M A := λ w, (Ok a, w).
Definition throw {A} (e : Exn) : M A := λ w, (Throw e, w).
Definition bind {A B} (k : A → M B) (m : M A) : M B :=
  λ w, match m w with
       | (Ok a, w') => k a w'
       | (Throw e, w') => (Throw e, w')
       end.

Global Instance M_ret : MRet M := @ret.
Global Instance M_bind : MBind M := @bind.

Definition get_obj (r : ref) : M Object3D :=
  λ w, match heap w !! r with
       | Some o => (Ok o, w)
       | None => (Throw (Dangling r), w)
       end.

Definition modify (r : ref) (f : Object3D → Object3D) : M unit :=
  λ w, match heap w !! r with
       | Some o => (Ok tt, mkWorld (<[r := f o]> (heap w)) (trace w) (warnings w))
       | None => (Throw (Dangling r), w)
       end.

Definition wl (x : Warning) : M unit :=
  λ w, (Ok tt, mkWorld (heap w) (trace w) (warnings w ++ [x])).

Definition call (i : Invocation) : M unit :=
  λ w, (Ok tt, mkWorld (heap w) (trace w ++ [i]) (warnings w)).

(** JS [Set] operations on the insertion-ordered list. *)
Definition set_has (x : ref) (s : list ref) : bool := bool_decide (x ∈ s).
Definition set_add (x : ref) (s : list ref) : list ref :=
  if set_has x s then s else s ++ [x].
Definition set_delete (x : ref) (s : list ref) : list ref :=
  filter (λ y, y ≠ x) s.

(** [for (let child of this._children) body(child)].  A [Set] iterator is
    live: an entry deleted before the iterator reaches it is skipped.  No
    method below adds a child while such a loop runs, so the loop visits the
    entries present at its start, in order, that are still present when
    their turn comes. *)
Fixpoint for_children (this : ref) (entries : list ref) (body : ref → M unit) : M unit :=
  match entries with
  | [] => ret tt
  | child :: rest =>
      o ← get_obj this;
      if set_has child (_children o)
      then body child;; for_children this rest body
      else for_children this rest body
  end.

(** ** Listenable (src/util/listenable.js) *)

(** Modelled from the spec: src/util/listenable.js, the base class of
    [Object3D], is not among the sources.  Its listeners are a mapping from
    event name to the callbacks registered for it, in registration order.
    [on] appends to the sequence of its event. *)
Definition on (this : ref) (eventName : string) (callback : Callback) : M unit :=
  modify this (λ o,
    with_listeners
      (<[eventName := default [] (_listeners o !! eventName) ++ [callback]]> (_listeners o)) o).

(** Modelled from the spec: the delivery loop of [notify] of the missing
    src/util/listenable.js calls the given callbacks one after the other.  A
    listener is an observer: its call is recorded in the trace and it does
    not itself change the scene graph. *)
Fixpoint deliver (callbacks : list Callback) (this : ref) (eventName : string)
    (args : list Value) : M unit :=
  match callbacks with
  | [] => mret tt
  | cb :: rest =>
      call (mkInvocation cb this eventName args);;
      deliver rest this eventName args
  end.

(** Modelled from the spec: [notify] of the missing src/util/listenable.js
    calls every callback registered for the event, synchronously, in
    registration order, with the arguments, from the list as it is when
    [notify] starts. *)
Definition notify (this : ref) (eventName : string) (args : list Value) : M unit :=
  o ← get_obj this;
  deliver (default [] (_listeners o !! eventName)) this eventName args.

(** Modelled from the spec: [clearListeners] of the missing
    src/util/listenable.js removes the callbacks of every event. *)
Definition clearListeners (this : ref) : M unit :=
  modify this (with_listeners ∅).

(** ** Object3D *)

(** [new Object3D(id, name, origin, orientation, scale)].  The new object
    gets a reference no object has yet. *)
Definition new_Object3D (id name : string) (origin : Vec3) (orientation : Quat)
    (scale : Vec3) : M ref :=
  λ w, let r := fresh (dom (heap w)) in
       (Ok r,
        mkWorld
          (<[r := mkObject3D id name None [] origin orientation scale false None
                    Mat4_identity Mat4_identity Quat_new ∅]> (heap w))
          (trace w) (warnings w)).

Definition _invalidateModel (this : ref) : M unit :=
  modify this (with_is_model_valid false).

Definition _invalidateLocalModel (this : ref) : M unit :=
  modify this (with_is_local_model_valid (Some false));;
  _invalidateModel this.

Definition set_name (this : ref) (name : string) : M unit :=
  modify this (with_name name).

Definition set_parent (this : ref) (parent : option ref) : M unit :=
  modify this (with_parent parent);;
  _invalidateModel this.

Definition childCount (this : ref) : M nat :=
  o ← get_obj this; mret (length (_children o)).

Definition set_origin (this : ref) (v3 : Vec3) : M unit :=
  modify this (with_origin v3);;
  _invalidateLocalModel this;;
  o ← get_obj this;
  notify this "origin" [VVec3 (_origin o)].

Definition set_orientation (this : ref) (q : Quat) : M unit :=
  modify this (with_orientation q);;
  _invalidateLocalModel this;;
  o ← get_obj this;
  notify this "orientation" [VQuat (_orientation o)].

Definition set_size (this : ref) (v3 : Vec3) : M unit :=
  modify this (with_scale v3);;
  _invalidateLocalModel this;;
  o ← get_obj this;
  notify this "size" [VVec3 (_scale o)].

Definition hasChild (this : ref) (object : ref) : M bool :=
  o ← get_obj this; mret (set_has object (_children o)).

Definition addChild (this : ref) (object : ref) : M unit :=
  obj ← get_obj object;
  if bool_decide (is_Some (_parent obj))
  then throw (JsError "Unable to add the specified object to this node as it already has a parent.")
  else
    present ← hasChild this object;
    if present : bool
    then wl (AlreadyChild (_id obj))
    else
      modify this (λ o, with_children (set_add object (_children o)) o);;
      set_parent object (Some this);;
      notify this "add" [VObject this; VObject object].

(** [object] may be [undefined] or [null] ([None]). *)
Definition removeChild (this : ref) (object : option ref) : M bool :=
  match object with
  | None => wl (NotAChild object);; mret false
  | Some child =>
      present ← hasChild this child;
      if negb present : bool
      then wl (NotAChild object);; mret false
      else
        modify this (λ o, with_children (set_delete child (_children o)) o);;
        set_parent child None;;
        notify this "remove" [VObject this; VObject child];;
        mret true
  end.

Definition clearChildren (this : ref) : M unit :=
  o ← get_obj this;
  for_children this (_children o) (λ child, removeChild this (Some child);; mret tt).

(** The local model is rebuilt in place from the identity. *)
Definition compose_local (origin : Vec3) (orientation : Quat) (scale : Vec3) : Mat4 :=
  Mat4_scaleVec (Mat4_rotateQuat (Mat4_translate Mat4_identity origin) orientation) scale.

Definition _computeWorldModel (this : ref) : M unit :=
  o ← get_obj this;
  match _parent o with
  | Some parent =>
      p ← get_obj parent;
      modify this (with_world_model (_world_model p));;
      modify this (λ o, with_world_model (Mat4_multiply (_world_model o) (_local_model o)) o)
  | None =>
      modify this (λ o, with_world_model (_local_model o) o)
  end.

Definition _revalidateModel (this : ref) : M unit :=
  o ← get_obj this;
  let localModelChanged := negb (truthy (_is_local_model_valid o)) in
  (if localModelChanged
   then
     modify this (λ o,
       with_local_model (compose_local (_origin o) (_orientation o) (_scale o)) o);;
     modify this (with_is_local_model_valid (Some true))
   else mret tt);;
  _computeWorldModel this;;
  modify this (with_is_model_valid true);;
  o ← get_obj this;
  for_children this (_children o) _invalidateModel;;
  o ← get_obj this;
  (if localModelChanged
   then notify this "localModel" [VMat4 (_local_model o)]
   else mret tt);;
  notify this "model" [VMat4 (_world_model o)].

(** [update(delta_t)]; [fuel] is the depth of call stack left. *)
Fixpoint update (fuel : nat) (this : ref) (delta_t : Num) : M unit :=
  match fuel with
  | 0 => throw StackOverflow
  | S fuel =>
      o ← get_obj this;
      (if negb (_is_model_valid o) then _revalidateModel this else mret tt);;
      o ← get_obj this;
      for_children this (_children o) (λ child, update fuel child delta_t)
  end.

Definition scale (this : ref) (v : Vec3) : M unit :=
  modify this (λ o, with_scale (Vec3_multiply (_scale o) v) o);;
  _invalidateLocalModel this;;
  o ← get_obj this;
  notify this "size" [VVec3 (_scale o)].

Definition translate (this : ref) (v : Vec3) : M unit :=
  modify this (λ o, with_origin (Vec3_add (_origin o) v) o);;
  _invalidateLocalModel this;;
  o ← get_obj this;
  notify this "origin" [VVec3 (_origin o)].

Definition translateX (this : ref) (delta_x : Num) : M unit :=
  modify this (λ o, with_origin (Vec3_translateX (_origin o) delta_x) o);;
  _invalidateLocalModel this;;
  o ← get_obj this;
  notify this "origin" [VVec3 (_origin o)].

Definition translateY (this : ref) (delta_y : Num) : M unit :=
  modify this (λ o, with_origin (Vec3_translateY (_origin o) delta_y) o);;
  _invalidateLocalModel this;;
  o ← get_obj this;
  notify this "origin" [VVec3 (_origin o)].

Definition translateZ (this : ref) (delta_z : Num) : M unit :=
  modify this (λ o, with_origin (Vec3_translateZ (_origin o) delta_z) o);;
  _invalidateLocalModel this;;
  o ← get_obj this;
  notify this "origin" [VVec3 (_origin o)].

Definition rotate (this : ref) (theta : Num) (axis : Vec3) : M unit :=
  modify this (with_tmp_quaternion (Quat_fromAxisRotation theta axis));;
  modify this (λ o, with_orientation (Quat_multiply (_orientation o) (_tmp_quaternion o)) o);;
  _invalidateLocalModel this;;
  o ← get_obj this;
  notify this "orientation" [VQuat (_orientation o)].

Definition rotateX (this : ref) (theta : Num) : M unit :=
  modify this (with_tmp_quaternion (Quat_fromAxisRotation theta Vec3_X_AXIS));;
  modify this (λ o, with_orientation (Quat_multiply (_orientation o) (_tmp_quaternion o)) o);;
  _invalidateLocalModel this;;
  o ← get_obj this;
  notify this "orientation" [VQuat (_orientation o)].

(** Returns [this]. *)
Definition rotateY (this : ref) (theta : Num) : M ref :=
  modify this (with_tmp_quaternion (Quat_fromAxisRotation theta Vec3_Y_AXIS));;
  modify this (λ o, with_orientation (Quat_multiply (_orientation o) (_tmp_quaternion o)) o);;
  _invalidateLocalModel this;;
  o ← get_obj this;
  notify this "orientation" [VQuat (_orientation o)];;
  mret this.

(** Returns [this]. *)
Definition rotateZ (this : ref) (theta : Num) : M ref :=
  modify this (with_tmp_quaternion (Quat_fromAxisRotation theta Vec3_Z_AXIS));;
  modify this (λ o, with_orientation (Quat_multiply (_orientation o) (_tmp_quaternion o)) o);;
  _invalidateLocalModel this;;
  o ← get_obj this;
  notify this "orientation" [VQuat (_orientation o)];;
  mret this.

(** [destroy()]; [fuel] is the depth of call stack left. *)
Fixpoint destroy (fuel : nat) (this : ref) : M unit :=
  match fuel with
  | 0 => throw StackOverflow
  | S fuel =>
      o ← get_obj this;
      match _parent o with
      | Some parent => removeChild parent (Some this);; mret tt
      | None => mret tt
      end;;
      clearListeners this;;
      o ← get_obj this;
      for_children this (_children o) (λ child,
        removeChild this (Some child);;
        destroy fuel child);;
      notify this "destroy" []
  end.

(** ** Programs over the public methods *)

(** The public mutating methods.  The [parent] setter is the link that
    [addChild] and [removeChild] maintain and is not among them. *)
Inductive Op :=
  | New (id name : string) (origin : Vec3) (orientation : Quat) (scale : Vec3)
  | SetName (this : ref) (name : string)
  | SetOrigin (this : ref) (v3 : Vec3)
  | SetOrientation (this : ref) (q : Quat)
  | SetSize (this : ref) (v3 : Vec3)
  | AddChild (this object : ref)
  | RemoveChild (this : ref) (object : option ref)
  | ClearChildren (this : ref)
  | Update (fuel : nat) (this : ref) (delta_t : Num)
  | Scale (this : ref) (v : Vec3)
  | Translate (this : ref) (v : Vec3)
  | TranslateX (this : ref) (delta : Num)
  | TranslateY (this : ref) (delta : Num)
  | TranslateZ (this : ref) (delta : Num)
  | Rotate (this : ref) (theta : Num) (axis : Vec3)
  | RotateX (this : ref) (theta : Num)
  | RotateY (this : ref) (theta : Num)
  | RotateZ (this : ref) (theta : Num)
  | Destroy (fuel : nat) (this : ref)
  | On (this : ref) (eventName : string) (callback : Callback)
  | Notify (this : ref) (eventName : string) (args : list Value)
  | ClearListeners (this : ref).

Definition run (op : Op) : M unit :=
  match op with
  | New id name origin orientation scl =>
      new_Object3D id name origin orientation scl;; mret tt
  | SetName this name => set_name this name
  | SetOrigin this v3 => set_origin this v3
  | SetOrientation this q => set_orientation this q
  | SetSize this v3 => set_size this v3
  | AddChild this object => addChild this object
  | RemoveChild this object => removeChild this object;; mret tt
  | ClearChildren this => clearChildren this
  | Update fuel this delta_t => update fuel this delta_t
  | Scale this v => scale this v
  | Translate this v => translate this v
  | TranslateX this d => translateX this d
  | TranslateY this d => translateY this d
  | TranslateZ this d => translateZ this d
  | Rotate this theta axis => rotate this theta axis
  | RotateX this theta => rotateX this theta
  | RotateY this theta => rotateY this theta;; mret tt
  | RotateZ this theta => rotateZ this theta;; mret tt
  | Destroy fuel this => destroy fuel this
  | On this eventName callback => on this eventName callback
  | Notify this eventName args => notify this eventName args
  | ClearListeners this => clearListeners this
  end.

(** The state a method call leaves behind, whether it returned or threw. *)
Definition exec (op : Op) (w : World) : World := (run op w).2.

Definition exec_all (ops : list Op) (w : World) : World :=
  foldl (λ w op, exec op w) w ops.

(** The states a program can be in: any number of method calls, started
    from no object at all. *)
Inductive reachable : World → Prop :=
  | reachable_empty : reachable empty_world
  | reachable_step w op : reachable w → reachable (exec op w).

(** ** Invariants of the scene graph *)

(** Every reference held by an object names an object. *)
Definition closed (h : gmap ref Object3D) : Prop :=
  ∀ x o, h !! x = Some o →
    (∀ p, _parent o = Some p → is_Some (h !! p)) ∧
    (∀ c, c ∈ _children o → is_Some (h !! c)).

(** A node is in the child set of exactly the node its [parent] names. *)
Definition consistent (h : gmap ref Object3D) : Prop :=
  ∀ p c op oc, h !! p = Some op → h !! c = Some oc →
    (c ∈ _children op ↔ _parent oc = Some p).

(** A valid world model comes with a valid local model. *)
Definition flags_ok (h : gmap ref Object3D) : Prop :=
  ∀ x o, h !! x = Some o →
    _is_model_valid o = true → _is_local_model_valid o = Some true.

(** A valid local model is the one composed from the current properties. *)
Definition local_ok (h : gmap ref Object3D) : Prop :=
  ∀ x o, h !! x = Some o →
    _is_local_model_valid o = Some true →
    _local_model o = compose_local (_origin o) (_orientation o) (_scale o).

(** The world model of [o] is its parent's world model times its local
    model, or its local model when it has no parent. *)
Definition world_eq (h : gmap ref Object3D) (o : Object3D) : Prop :=
  match _parent o with
  | Some p =>
      ∃ po, h !! p = Some po ∧
        _world_model o = Mat4_multiply (_world_model po) (_local_model o)
  | None => _world_model o = _local_model o
  end.

(** A valid world model satisfies [world_eq]. *)
Definition world_ok (h : gmap ref Object3D) : Prop :=
  ∀ x o, h !! x = Some o → _is_model_valid o = true → world_eq h o.

Record scene_ok (h : gmap ref Object3D) : Prop := mk_scene_ok {
  ok_closed : closed h;
  ok_consistent : consistent h;
  ok_flags : flags_ok h;
  ok_local : local_ok h;
  ok_world : world_ok h;
}.

(** [c] is in the child set of [p]. *)
Definition child_of (h : gmap ref Object3D) (p c : ref) : Prop :=
  ∃ op, h !! p = Some op ∧ c ∈ _children op.

(** [y] is [x] or one of its descendants. *)
Definition reach (h : gmap ref Object3D) : ref → ref → Prop := rtc (child_of h).

(** [rank] decreases from every node to each of its children: the child
    sets form no cycle, and a traversal from [x] needs a stack of depth at
    most [rank x + 1]. *)
Definition ranked (rank : ref → nat) (h : gmap ref Object3D) : Prop :=
  map_Forall (λ p op, Forall (λ c, rank c < rank p) (_children op)) h.

(** The spec's product [Translate(origin) · Rotate(orientation) ·
    Scale(scale)], with the matrix of a single transform obtained by
    applying it to the identity. *)
Definition TranslateM (v : Vec3) : Mat4 := Mat4_translate Mat4_identity v.
Definition RotateM (q : Quat) : Mat4 := Mat4_rotateQuat Mat4_identity q.
Definition ScaleM (v : Vec3) : Mat4 := Mat4_scaleVec Mat4_identity v.
Definition TRS (origin : Vec3) (orientation : Quat) (scale : Vec3) : Mat4 :=
  Mat4_multiply (Mat4_multiply (TranslateM origin) (RotateM orientation)) (ScaleM scale).

(** What the scene graph expects of the math library: transforming a
    matrix in place multiplies it on the right by the transform's matrix. *)
Record post_multiplying : Prop := mk_post_multiplying {
  translate_post : ∀ m v, Mat4_translate m v = Mat4_multiply m (TranslateM v);
  rotateQuat_post : ∀ m q, Mat4_rotateQuat m q = Mat4_multiply m (RotateM q);
  scaleVec_post : ∀ m v, Mat4_scaleVec m v = Mat4_multiply m (ScaleM v);
}.

(** ** Relating two heaps node by node *)

(** Both heaps hold the same references, and the objects under each
    reference are related by [R]. *)
Definition heap_rel (R : ref → Object3D → Object3D → Prop)
    (h h' : gmap ref Object3D) : Prop :=
  ∀ y, match h !! y, h' !! y with
       | Some o, Some o' => R y o o'
       | None, None => True
       | _, _ => False
       end.

(** The links of a node are untouched. *)
Definition node_same_links (o o' : Object3D) : Prop :=
  _parent o' = _parent o ∧ _children o' = _children o.

Definition same_links : gmap ref Object3D → gmap ref Object3D → Prop :=
  heap_rel (λ _, node_same_links).

(** A change that never makes a matrix trusted that was not: the world
    model is untouched; whatever is valid afterwards was valid before, with
    the same inputs. *)
Definition node_calm (o o' : Object3D) : Prop :=
  _world_model o' = _world_model o ∧
  (_is_model_valid o' = true →
     _is_model_valid o = true ∧ _parent o' = _parent o ∧
     _local_model o' = _local_model o ∧
     _is_local_model_valid o' = _is_local_model_valid o) ∧
  (_is_local_model_valid o' = Some true →
     _is_local_model_valid o = Some true ∧ _local_model o' = _local_model o ∧
     _origin o' = _origin o ∧ _orientation o' = _orientation o ∧
     _scale o' = _scale o).

Definition calm : gmap ref Object3D → gmap ref Object3D → Prop :=
  heap_rel (λ _, node_calm).

(** ** Properties of a method that hold however it ends *)

(** [Q] relates the state before a call of [m] to the state after it,
    whether [m] returned or threw. *)
Definition always {A} (Q : World → World → Prop) (m : M A) : Prop :=
  ∀ w r w', m w = (r, w') → Q w w'.

Definition w_calm (w w' : World) : Prop := calm (heap w) (heap w').
Definition w_same_links (w w' : World) : Prop := same_links (heap w) (heap w').
Definition w_keeps (I : gmap ref Object3D → Prop) (w w' : World) : Prop :=
  I (heap w) → I (heap w').

(** The links are well formed. *)
Definition links_ok (h : gmap ref Object3D) : Prop := closed h ∧ consistent h.

(** ** What revalidation computes *)

(** The object after the first half of [_revalidateModel]: the local model
    recomputed if it was not valid. *)
Definition relocal (o : Object3D) : Object3D :=
  if truthy (_is_local_model_valid o) then o
  else with_is_local_model_valid (Some true)
         (with_local_model (compose_local (_origin o) (_orientation o) (_scale o)) o).

(** The object once its world model [W] is computed and marked valid. *)
Definition revalidated (W : Mat4) (o : Object3D) : Object3D :=
  with_is_model_valid true (with_world_model W (relocal o)).

(** A change that only takes links and listeners away. *)
Definition node_shrinks (o o' : Object3D) : Prop :=
  (_parent o' = _parent o ∨ _parent o' = None) ∧
  (∀ c, c ∈ _children o' → c ∈ _children o) ∧
  (_listeners o' = _listeners o ∨ _listeners o' = ∅).

Definition w_shrinks (w w' : World) : Prop :=
  heap_rel (λ _, node_shrinks) (heap w) (heap w').

(** The node exists and has no listener at all. *)
Definition silent (this : ref) (w : World) : Prop :=
  ∃ o, heap w !! this = Some o ∧ _listeners o = ∅.

(** A node with no parent, no child and no listener. *)
Definition gone (o : Object3D) : Prop :=
  _parent o = None ∧ _children o = [] ∧ _listeners o = ∅.

(** The links and listeners of a node are untouched. *)
Definition kept (o o' : Object3D) : Prop :=
  _parent o' = _parent o ∧ _children o' = _children o ∧ _listeners o' = _listeners o.

(** The node exists and its world model is marked valid. *)
Definition valid_in (w : World) (y : ref) : Prop :=
  ∃ oy, heap w !! y = Some oy ∧ _is_model_valid oy = true.

(** The three properties a local model is composed from are untouched. *)
Definition node_same_props (o o' : Object3D) : Prop :=
  _origin o' = _origin o ∧ _orientation o' = _orientation o ∧ _scale o' = _scale o.

Definition w_same_props (w w' : World) : Prop :=
  heap_rel (λ _, node_same_props) (heap w) (heap w').

(** The methods that change origin, orientation or scale. *)
Definition property_mutation (op : Op) : bool :=
  match op with
  | SetOrigin _ _ | SetOrientation _ _ | SetSize _ _
  | Scale _ _ | Translate _ _
  | TranslateX _ _ | TranslateY _ _ | TranslateZ _ _
  | Rotate _ _ _ | RotateX _ _ | RotateY _ _ | RotateZ _ _ => true
  | _ => false
  end.



(** ** Measures and relations for the further properties *)

(** The ['remove'] calls made while the children [cs] of [this] are removed
    one after the other. *)
Definition remove_calls (this : ref) (callbacks : list Callback) (cs : list ref)
    : list Invocation :=
  flat_map (λ c, (λ cb, mkInvocation cb this "remove" [VObject this; VObject c])
                   <$> callbacks) cs.

(** The nodes that have a parent: one per link of the scene graph. *)
Definition parented (h : gmap ref Object3D) : gset ref :=
  dom (filter (λ kv, is_Some (_parent kv.2)) h).

(** Everything but the two models and their flags is untouched. *)
Definition node_same_but_models (o o' : Object3D) : Prop :=
  _id o' = _id o ∧ _name o' = _name o ∧
  _parent o' = _parent o ∧ _children o' = _children o ∧
  _origin o' = _origin o ∧ _orientation o' = _orientation o ∧ _scale o' = _scale o ∧
  _tmp_quaternion o' = _tmp_quaternion o ∧ _listeners o' = _listeners o.

(** Only models and flags change in the heap, and no warning is logged. *)
Definition w_same_but_models (w w' : World) : Prop :=
  heap_rel (λ _, node_same_but_models) (heap w) (heap w') ∧ warnings w' = warnings w.

(** The links are untouched, and so is every object that [x] does not
    reach. *)
Definition touches_below (x : ref) (w w' : World) : Prop :=
  same_links (heap w) (heap w') ∧
  ∀ y, ¬ reach (heap w) x y → heap w' !! y = heap w !! y.

(** The node a method is called on. *)
Definition receiver (op : Op) : option ref :=
  match op with
  | New _ _ _ _ _ => None
  | SetName this _ | SetOrigin this _ | SetOrientation this _ | SetSize this _
  | AddChild this _ | RemoveChild this _ | ClearChildren this | Update _ this _
  | Scale this _ | Translate this _
  | TranslateX this _ | TranslateY this _ | TranslateZ this _
  | Rotate this _ _ | RotateX this _ | RotateY this _ | RotateZ this _
  | Destroy _ this | On this _ _ | Notify this _ _ | ClearListeners this => Some this
  end.


(** Identity, links, both models and the listeners are untouched. *)
Definition node_keeps_models (o o' : Object3D) : Prop :=
  _id o' = _id o ∧ _name o' = _name o ∧
  _parent o' = _parent o ∧ _children o' = _children o ∧
  _local_model o' = _local_model o ∧ _world_model o' = _world_model o ∧
  _listeners o' = _listeners o.

(** Whether [rank] decreases along every link can be computed. *)
Global Instance ranked_dec (rank : ref → nat) (h : gmap ref Object3D) :
  Decision (ranked rank h).
Proof. unfold ranked. apply _. Defined.

End Scene.

(** ** A concrete scene

    A root, a child and a grandchild over the integer math instance, used to
    run the theorems on actual values. *)
Module Demo.

#[local] Existing Instance Zmath.math.

Definition v0 : Vec3 := (0, 0, 0)%Z.
Definition v1 : Vec3 := (1, 1, 1)%Z.
Definition q1 : Quat := (0, 0, 0, 1)%Z.

(** [root] (reference 0) has the child [child] (1), which has the child
    [leaf] (2); [child] has been moved and the tree updated once. *)
Definition family : list Op :=
  [ New "r" "root" v0 q1 v1; New "c" "child" v0 q1 v1; New "l" "leaf" v0 q1 v1;
    AddChild 0 1; AddChild 1 2;
    TranslateX 1 5%Z; Update 3 0 0%Z ].

Definition scene : World := exec_all family empty_world.

(** The same tree with listeners for ['remove'] and ['destroy'] on its
    nodes. *)
Definition observed : World :=
  exec_all [ On 0 "remove" 10; On 1 "remove" 11; On 1 "destroy" 12; On 2 "destroy" 13 ] scene.

(** One more object (3), outside the tree. *)
Definition with_stray : World := exec (New "s" "stray" v0 q1 v1) scene.

(** The root moved since the last update. *)
Definition moved : World := exec (Translate 0 (1, 0, 0)%Z) scene.

(** Two nodes, each the child of the other: [addChild] only refuses a node
    that has a parent, and the first node had none. *)
Definition knot : World :=
  exec_all [ New "a" "a" v0 q1 v1; New "b" "b" v0 q1 v1; AddChild 0 1; AddChild 1 0 ]
    empty_world.

(** The height of each node of the tree above its leaves. *)
Definition height (x : ref) : nat := 2 - x.

(** Mutations made between two updates: the last value of each property is
    what counts. *)
Definition mutations : list Op :=
  [ SetOrigin 1 (9, 9, 9)%Z; Translate 1 (1, 0, 0)%Z; SetOrigin 1 (2, 3, 4)%Z;
    RotateZ 2 1%Z; Scale 2 (2, 2, 2)%Z; SetSize 0 (3, 3, 3)%Z ].

End Demo.

(** * Shader programs: [Program] (src/gl/program.js)

    The constructor is embedded; [ready], [createShader], [compileProgram]
    and [qualify] work through the WebGL context and the network, which are
    not among the sources. *)
Module Gl.

(** [String.prototype.endsWith]: [suffix] is [s] or ends a tail of [s]. *)
Fixpoint endsWith (s suffix : string) : bool :=
  String.eqb s suffix ||
  match s with
  | EmptyString => false
  | String _ rest => endsWith rest suffix
  end.

(** [Program.DEFAULT_SHADER_PATH]. *)
Definition DEFAULT_SHADER_PATH : string := "/shaders/".

Section Constructor.

(** The WebGL objects are opaque to the constructor.  [ACTIVE_UNIFORMS] and
    [ACTIVE_ATTRIBUTES] are the constants of [WebGLRenderingContext]. *)
Context {WebGLContext WebGLShader WebGLProgram WebGLLocation : Type}.
Context (ACTIVE_UNIFORMS ACTIVE_ATTRIBUTES : Z).

Record Program := mkProgram {
  _context : option WebGLContext;
  _name : string;
  _shaders : gmap Z WebGLShader;
  _program : option WebGLProgram;
  _parameters : gmap Z (gmap string WebGLLocation);
  _path : string;
}.

(** [new Program({context, name, path})].  A property the caller left out
    is [None]; [path] then defaults to [DEFAULT_SHADER_PATH].  An empty
    [name] is falsy, like a missing one. *)
Definition new_Program (context : option WebGLContext) (name path : option string)
    : Result Program :=
  let path := default DEFAULT_SHADER_PATH path in
  match name with
  | None => Throw (JsError "Name required in order to create a program.")
  | Some name =>
      if String.eqb name ""
      then Throw (JsError "Name required in order to create a program.")
      else
        let path := if negb (endsWith path "/") then (path ++ "/")%string else path in
        Ok (mkProgram context name ∅ None
              (<[ACTIVE_ATTRIBUTES := ∅]> (<[ACTIVE_UNIFORMS := ∅]> ∅))
              (path ++ name ++ "/")%string)
  end.

End Constructor.

End Gl.

(** * Properties *)

Section Properties.
Context `{Math}.

Implicit Types (w : World) (h : gmap ref Object3D) (o : Object3D).
Implicit Types (x y this object child : ref).

(** ** Running the monad *)

Lemma bind_unfold {A B} (m : M A) (k : A → M B) w :
  (m ≫= k) w =
  match m w with
  | (Ok a, w') => k a w'
  | (Throw e, w') => (Throw e, w')
  end.
Proof. reflexivity. Qed.

Lemma bind_ok {A B} (m : M A) (k : A → M B) w a w' :
  m w = (Ok a, w') → (m ≫= k) w = k a w'.
Proof. intros E. rewrite bind_unfold, E. reflexivity. Qed.

Lemma bind_throw {A B} (m : M A) (k : A → M B) w e w' :
  m w = (Throw e, w') → (m ≫= k) w = (Throw e, w').
Proof. intros E. rewrite bind_unfold, E. reflexivity. Qed.

Lemma bind_assoc {A B C} (m : M A) (k : A → M B) (k' : B → M C) w :
  ((m ≫= k) ≫= k') w = (m ≫= λ a, k a ≫= k') w.
Proof. rewrite !bind_unfold. by destruct (m w) as [[a|e] w']. Qed.

Lemma bind_ext {A B} (m : M A) (k k' : A → M B) w :
  (∀ a w', k a w' = k' a w') → (m ≫= k) w = (m ≫= k') w.
Proof. intros Hk. rewrite !bind_unfold. destruct (m w) as [[a|e] w']; [apply Hk|done]. Qed.

Lemma bind_ret_r (m : M unit) w : (m ≫= λ _, mret tt) w = m w.
Proof. rewrite bind_unfold. by destruct (m w) as [[[]|e] w']. Qed.

Lemma get_obj_some w x o : heap w !! x = Some o → get_obj x w = (Ok o, w).
Proof. intros E. unfold get_obj. rewrite E. reflexivity. Qed.

Lemma get_obj_none w x : heap w !! x = None → get_obj x w = (Throw (Dangling x), w).
Proof. intros E. unfold get_obj. rewrite E. reflexivity. Qed.

Lemma modify_some w x o f :
  heap w !! x = Some o →
  modify x f w = (Ok tt, mkWorld (<[x := f o]> (heap w)) (trace w) (warnings w)).
Proof. intros E. unfold modify. rewrite E. reflexivity. Qed.

Lemma modify_none w x f :
  heap w !! x = None → modify x f w = (Throw (Dangling x), w).
Proof. intros E. unfold modify. rewrite E. reflexivity. Qed.

Lemma deliver_run cbs this ev args w :
  deliver cbs this ev args w =
  (Ok tt, mkWorld (heap w)
            (trace w ++ ((λ cb, mkInvocation cb this ev args) <$> cbs))
            (warnings w)).
Proof.
  revert w. induction cbs as [|cb cbs IH]; intros w; simpl.
  - rewrite app_nil_r. by destruct w.
  - rewrite bind_unfold. unfold call at 1. rewrite IH. simpl.
    by rewrite <- app_assoc.
Qed.

Lemma notify_some w this o ev args :
  heap w !! this = Some o →
  notify this ev args w =
  (Ok tt, mkWorld (heap w)
            (trace w ++ ((λ cb, mkInvocation cb this ev args)
                           <$> default [] (_listeners o !! ev)))
            (warnings w)).
Proof.
  intros E. unfold notify. rewrite (bind_ok _ _ _ _ _ (get_obj_some _ _ _ E)).
  apply deliver_run.
Qed.

Lemma notify_none w this ev args :
  heap w !! this = None → notify this ev args w = (Throw (Dangling this), w).
Proof.
  intros E. unfold notify. by rewrite (bind_throw _ _ _ _ _ (get_obj_none _ _ E)).
Qed.

Lemma notify_silent w this o ev args :
  heap w !! this = Some o → _listeners o !! ev = None →
  notify this ev args w = (Ok tt, w).
Proof.
  intros E L. rewrite (notify_some _ _ _ _ _ E), L. simpl.
  rewrite app_nil_r. by destruct w.
Qed.

(** ** Single methods *)

Lemma modify_alter w x o f :
  heap w !! x = Some o →
  modify x f w = (Ok tt, mkWorld (alter f x (heap w)) (trace w) (warnings w)).
Proof.
  intros E. rewrite (modify_some _ _ _ _ E). by rewrite (alter_alt_Some _ _ _ _ E).
Qed.

Lemma alter_is_Some h f x y : is_Some (alter f x h !! y) ↔ is_Some (h !! y).
Proof.
  rewrite lookup_alter. case_decide; [subst|done].
  by rewrite fmap_is_Some.
Qed.

Lemma hasChild_some w this o object :
  heap w !! this = Some o →
  hasChild this object w = (Ok (set_has object (_children o)), w).
Proof.
  intros E. unfold hasChild. by rewrite (bind_ok _ _ _ _ _ (get_obj_some _ _ _ E)).
Qed.

Lemma _invalidateModel_some w this o :
  heap w !! this = Some o →
  _invalidateModel this w =
  (Ok tt, mkWorld (alter (with_is_model_valid false) this (heap w)) (trace w) (warnings w)).
Proof. apply modify_alter. Qed.

Lemma set_parent_some w this o p :
  heap w !! this = Some o →
  set_parent this p w =
  (Ok tt, mkWorld (alter (with_is_model_valid false ∘ with_parent p) this (heap w))
            (trace w) (warnings w)).
Proof.
  intros E. unfold set_parent, _invalidateModel.
  rewrite (bind_ok _ _ _ _ _ (modify_alter _ _ _ _ E)).
  erewrite modify_alter by (simpl; rewrite lookup_alter_eq, E; done).
  simpl. by rewrite <- alter_alter_eq.
Qed.

Lemma _invalidateLocalModel_some w this o :
  heap w !! this = Some o →
  _invalidateLocalModel this w =
  (Ok tt, mkWorld
            (alter (with_is_model_valid false ∘ with_is_local_model_valid (Some false))
               this (heap w))
            (trace w) (warnings w)).
Proof.
  intros E. unfold _invalidateLocalModel, _invalidateModel.
  rewrite (bind_ok _ _ _ _ _ (modify_alter _ _ _ _ E)).
  erewrite modify_alter by (simpl; rewrite lookup_alter_eq, E; done).
  simpl. by rewrite <- alter_alter_eq.
Qed.

(** A property setter: write the property, invalidate, notify with the
    property as it now is. *)
Lemma setter_run (f : Object3D → Object3D) (ev : string) (arg : Object3D → Value)
    w this o :
  heap w !! this = Some o →
  _listeners (f o) = _listeners o →
  (modify this f;; _invalidateLocalModel this;;
   o ← get_obj this; notify this ev [arg o]) w =
  (Ok tt, mkWorld
     (alter (with_is_model_valid false ∘ with_is_local_model_valid (Some false) ∘ f)
        this (heap w))
     (trace w ++ ((λ cb, mkInvocation cb this ev
                          [arg (with_is_model_valid false
                                  (with_is_local_model_valid (Some false) (f o)))])
                    <$> default [] (_listeners o !! ev)))
     (warnings w)).
Proof.
  intros E Hl.
  rewrite (bind_ok _ _ _ _ _ (modify_alter _ _ _ _ E)).
  erewrite bind_ok; last first.
  { eapply _invalidateLocalModel_some. simpl. rewrite lookup_alter_eq, E. done. }
  erewrite bind_ok; last first.
  { apply get_obj_some. simpl. rewrite !lookup_alter_eq, E. done. }
  erewrite notify_some by (simpl; rewrite !lookup_alter_eq, E; done).
  simpl. rewrite alter_alter_eq. unfold compose. simpl. by rewrite Hl.
Qed.

Lemma on_some w this o ev cb :
  heap w !! this = Some o →
  on this ev cb w =
  (Ok tt, mkWorld
     (alter (λ o, with_listeners
                    (<[ev := default [] (_listeners o !! ev) ++ [cb]]> (_listeners o)) o)
        this (heap w))
     (trace w) (warnings w)).
Proof. apply modify_alter. Qed.

Lemma addChild_parented w this object obj p :
  heap w !! object = Some obj → _parent obj = Some p →
  addChild this object w =
  (Throw (JsError "Unable to add the specified object to this node as it already has a parent."), w).
Proof.
  intros E P. unfold addChild.
  rewrite (bind_ok _ _ _ _ _ (get_obj_some _ _ _ E)).
  rewrite P. by rewrite bool_decide_eq_true_2.
Qed.

Lemma addChild_present w this object o obj :
  heap w !! this = Some o → heap w !! object = Some obj → _parent obj = None →
  object ∈ _children o →
  addChild this object w =
  (Ok tt, mkWorld (heap w) (trace w) (warnings w ++ [AlreadyChild (_id obj)])).
Proof.
  intros E Eo P In. unfold addChild.
  rewrite (bind_ok _ _ _ _ _ (get_obj_some _ _ _ Eo)).
  rewrite P, bool_decide_eq_false_2 by (by intros [? ?]).
  rewrite (bind_ok _ _ _ _ _ (hasChild_some _ _ _ _ E)).
  unfold set_has. by rewrite bool_decide_eq_true_2.
Qed.

Lemma addChild_fresh w this object o obj :
  heap w !! this = Some o → heap w !! object = Some obj → _parent obj = None →
  object ∉ _children o →
  addChild this object w =
  (Ok tt, mkWorld
     (alter (with_is_model_valid false ∘ with_parent (Some this)) object
        (alter (λ o, with_children (_children o ++ [object]) o) this (heap w)))
     (trace w ++ ((λ cb, mkInvocation cb this "add" [VObject this; VObject object])
                    <$> default [] (_listeners o !! "add")))
     (warnings w)).
Proof.
  intros E Eo P In. unfold addChild.
  rewrite (bind_ok _ _ _ _ _ (get_obj_some _ _ _ Eo)).
  rewrite P, bool_decide_eq_false_2 by (by intros [? ?]).
  rewrite (bind_ok _ _ _ _ _ (hasChild_some _ _ _ _ E)).
  unfold set_has. rewrite bool_decide_eq_false_2 by done.
  rewrite (bind_ok _ _ _ _ _ (modify_alter _ _ _ _ E)).
  assert (is_Some (alter (λ o, with_children (set_add object (_children o)) o)
                     this (heap w) !! object)) as [o1 E1].
  { apply alter_is_Some. eauto. }
  erewrite bind_ok by (eapply set_parent_some; simpl; exact E1).
  assert (∃ o2, alter (with_is_model_valid false ∘ with_parent (Some this)) object
            (alter (λ o, with_children (set_add object (_children o)) o)
               this (heap w)) !! this = Some o2 ∧ _listeners o2 = _listeners o)
    as (o2 & E2 & L2).
  { rewrite lookup_alter. case_decide.
    - subst. rewrite lookup_alter_eq, E. simpl. eauto.
    - rewrite lookup_alter_eq, E. simpl. eauto. }
  erewrite notify_some by (simpl; exact E2).
  simpl. rewrite L2. do 3 f_equal.
  apply alter_ext. intros o' E'. assert (o' = o) as -> by congruence.
  unfold set_add, set_has. by rewrite bool_decide_eq_false_2.
Qed.

Lemma removeChild_absent w this o child :
  heap w !! this = Some o → child ∉ _children o →
  removeChild this (Some child) w =
  (Ok false, mkWorld (heap w) (trace w) (warnings w ++ [NotAChild (Some child)])).
Proof.
  intros E In. unfold removeChild.
  rewrite (bind_ok _ _ _ _ _ (hasChild_some _ _ _ _ E)).
  unfold set_has. by rewrite bool_decide_eq_false_2.
Qed.

Lemma removeChild_present w this o child :
  heap w !! this = Some o → child ∈ _children o → is_Some (heap w !! child) →
  removeChild this (Some child) w =
  (Ok true, mkWorld
     (alter (with_is_model_valid false ∘ with_parent None) child
        (alter (λ o, with_children (set_delete child (_children o)) o) this (heap w)))
     (trace w ++ ((λ cb, mkInvocation cb this "remove" [VObject this; VObject child])
                    <$> default [] (_listeners o !! "remove")))
     (warnings w)).
Proof.
  intros E In Ec. unfold removeChild.
  rewrite (bind_ok _ _ _ _ _ (hasChild_some _ _ _ _ E)).
  unfold set_has. rewrite bool_decide_eq_true_2 by done. simpl.
  rewrite (bind_ok _ _ _ _ _ (modify_alter _ _ _ _ E)).
  assert (is_Some (alter (λ o, with_children (set_delete child (_children o)) o)
                     this (heap w) !! child)) as [o1 E1].
  { by apply alter_is_Some. }
  erewrite bind_ok by (eapply set_parent_some; simpl; exact E1).
  assert (∃ o2, alter (with_is_model_valid false ∘ with_parent None) child
            (alter (λ o, with_children (set_delete child (_children o)) o)
               this (heap w)) !! this = Some o2 ∧ _listeners o2 = _listeners o)
    as (o2 & E2 & L2).
  { rewrite lookup_alter. case_decide.
    - subst. rewrite lookup_alter_eq, E. simpl. eauto.
    - rewrite lookup_alter_eq, E. simpl. eauto. }
  erewrite bind_ok by (eapply notify_some; simpl; exact E2).
  simpl. by rewrite L2.
Qed.

Lemma not_elem_of_set_delete x (s : list ref) : x ∉ set_delete x s.
Proof. unfold set_delete. rewrite list_elem_of_filter. by intros [? ?]. Qed.

Lemma elem_of_set_delete x y (s : list ref) : y ∈ set_delete x s ↔ y ≠ x ∧ y ∈ s.
Proof. unfold set_delete. by rewrite list_elem_of_filter. Qed.

Lemma removeChild_present_post w this o child :
  heap w !! this = Some o → child ∈ _children o → is_Some (heap w !! child) →
  ∃ w', removeChild this (Some child) w = (Ok true, w') ∧
        hasChild this child w' = (Ok false, w') ∧
        ∃ oc, heap w' !! child = Some oc ∧
              _parent oc = None ∧ _is_model_valid oc = false.
Proof.
  intros E In [oc Ec]. eexists. split; [by apply removeChild_present|].
  set (h1 := alter (λ o, with_children (set_delete child (_children o)) o) this (heap w)).
  assert (∃ o1, h1 !! this = Some o1 ∧ child ∉ _children o1) as (o1 & E1 & N1).
  { unfold h1. rewrite lookup_alter_eq, E. simpl. eexists. split; [done|].
    simpl. apply not_elem_of_set_delete. }
  split.
  - assert (∃ o2, alter (with_is_model_valid false ∘ with_parent None) child h1 !! this
                  = Some o2 ∧ child ∉ _children o2) as (o2 & E2 & N2).
    { rewrite lookup_alter. case_decide.
      - subst. rewrite E1. simpl. eauto.
      - eauto. }
    erewrite hasChild_some by (simpl; exact E2).
    unfold set_has. by rewrite bool_decide_eq_false_2.
  - assert (is_Some (h1 !! child)) as [oc1 Ec1] by (apply alter_is_Some; eauto).
    simpl. rewrite lookup_alter_eq. fold h1. rewrite Ec1. simpl. eauto.
Qed.

(** ** Claims about single calls *)

(** C5.  [addChild] of a node whose [parent] is already set throws the
    error of the structural constraint and leaves the whole state as it was:
    no child set, no [parent], no flag changes, and no listener is called. *)
Theorem addChild_parented_fails w this object obj p :
  heap w !! object = Some obj → _parent obj = Some p →
  addChild this object w =
  (Throw (JsError "Unable to add the specified object to this node as it already has a parent."), w).
Proof. apply addChild_parented. Qed.

(** C7.  For a node without a parent, [addChild] and then [removeChild] on
    the same pair both return, after which [hasChild] is false, the child has
    no parent and its [_is_model_valid] is false. *)
Theorem addChild_removeChild_restores w this child o oc :
  heap w !! this = Some o → heap w !! child = Some oc → _parent oc = None →
  ∃ w1 w2,
    addChild this child w = (Ok tt, w1) ∧
    removeChild this (Some child) w1 = (Ok true, w2) ∧
    hasChild this child w2 = (Ok false, w2) ∧
    ∃ oc', heap w2 !! child = Some oc' ∧
           _parent oc' = None ∧ _is_model_valid oc' = false.
Proof.
  intros E Ec P.
  destruct (decide (child ∈ _children o)) as [In|Nin].
  - eexists. edestruct (removeChild_present_post
      (mkWorld (heap w) (trace w) (warnings w ++ [AlreadyChild (_id oc)])) this o child)
      as (w2 & R & Hh & Hc); simpl; eauto.
    exists w2. split; [by eapply addChild_present|]. eauto.
  - set (h1 := alter (with_is_model_valid false ∘ with_parent (Some this)) child
                 (alter (λ o, with_children (_children o ++ [child]) o) this (heap w))).
    assert (∃ o1, h1 !! this = Some o1 ∧ child ∈ _children o1) as (o1 & E1 & In1).
    { unfold h1. rewrite lookup_alter. case_decide.
      - subst. rewrite lookup_alter_eq, E. simpl. eexists. split; [done|].
        simpl. apply elem_of_app. right. by apply list_elem_of_singleton.
      - rewrite lookup_alter_eq, E. simpl. eexists. split; [done|].
        simpl. apply elem_of_app. right. by apply list_elem_of_singleton. }
    assert (is_Some (h1 !! child)) as Hc1.
    { unfold h1. rewrite !alter_is_Some. eauto. }
    eexists. edestruct (removeChild_present_post
      (mkWorld h1 (trace w ++ ((λ cb, mkInvocation cb this "add" [VObject this; VObject child])
                                 <$> default [] (_listeners o !! "add")))
         (warnings w)) this o1 child) as (w2 & R & Hh & Hc); simpl; eauto.
    exists w2. split; [by eapply addChild_fresh|]. eauto.
Qed.

(** C9.  On a node with no listener for ['origin'] yet, registering two and
    then calling the [origin] setter returns, and adds to the trace exactly
    one call of the first followed by one call of the second, each with the
    new origin, which is the origin the node then has. *)
Theorem origin_setter_notifies_in_order w this o cb1 cb2 v3 :
  heap w !! this = Some o → _listeners o !! "origin" = None →
  ∃ w' o',
    (on this "origin" cb1;; on this "origin" cb2;; set_origin this v3) w = (Ok tt, w') ∧
    trace w' = trace w ++ [mkInvocation cb1 this "origin" [VVec3 v3];
                           mkInvocation cb2 this "origin" [VVec3 v3]] ∧
    heap w' !! this = Some o' ∧ _origin o' = v3.
Proof.
  intros E L.
  rewrite (bind_ok _ _ _ _ _ (on_some _ _ _ _ _ E)).
  erewrite bind_ok; last first.
  { eapply on_some. simpl. rewrite lookup_alter_eq, E. simpl. done. }
  unfold set_origin. erewrite setter_run; last first.
  - done.
  - simpl. rewrite !lookup_alter_eq, E. simpl. done.
  - do 2 eexists. split; [done|]. simpl. split.
    + rewrite L. simpl. rewrite lookup_insert_eq. simpl. by rewrite lookup_insert_eq.
    + rewrite !lookup_alter_eq, E. simpl. done.
Qed.

(** ** Heaps related node by node *)

Lemma heap_rel_refl R h : (∀ y o, R y o o) → heap_rel R h h.
Proof. intros HR y. destruct (h !! y); auto. Qed.

Lemma heap_rel_trans R h1 h2 h3 :
  (∀ y a b c, R y a b → R y b c → R y a c) →
  heap_rel R h1 h2 → heap_rel R h2 h3 → heap_rel R h1 h3.
Proof.
  intros HR H12 H23 y. specialize (H12 y). specialize (H23 y).
  destruct (h1 !! y), (h2 !! y), (h3 !! y); try done. eauto.
Qed.

Lemma heap_rel_impl (R R' : ref → Object3D → Object3D → Prop) h h' :
  (∀ y o o', h !! y = Some o → h' !! y = Some o' → R y o o' → R' y o o') →
  heap_rel R h h' → heap_rel R' h h'.
Proof.
  intros HR Hh y. specialize (Hh y). specialize (HR y).
  destruct (h !! y), (h' !! y); try done. eauto.
Qed.

Lemma heap_rel_alter R h x f :
  (∀ y o, R y o o) → (∀ o, h !! x = Some o → R x o (f o)) →
  heap_rel R h (alter f x h).
Proof.
  intros Hrefl Hx y. rewrite lookup_alter. case_decide.
  - subst. destruct (h !! y) eqn:E; simpl; auto.
  - destruct (h !! y); auto.
Qed.

Lemma heap_rel_lookup R h h' y o :
  heap_rel R h h' → h !! y = Some o → ∃ o', h' !! y = Some o' ∧ R y o o'.
Proof.
  intros Hh E. specialize (Hh y). rewrite E in Hh.
  destruct (h' !! y); [eauto|done].
Qed.

Lemma heap_rel_lookup_r R h h' y o' :
  heap_rel R h h' → h' !! y = Some o' → ∃ o, h !! y = Some o ∧ R y o o'.
Proof.
  intros Hh E. specialize (Hh y). rewrite E in Hh.
  destruct (h !! y); [eauto|done].
Qed.

Lemma heap_rel_is_Some R h h' y :
  heap_rel R h h' → is_Some (h' !! y) ↔ is_Some (h !! y).
Proof.
  intros Hh. specialize (Hh y). by destruct (h !! y), (h' !! y).
Qed.

Lemma heap_rel_and R1 R2 h h' :
  heap_rel R1 h h' → heap_rel R2 h h' → heap_rel (λ y o o', R1 y o o' ∧ R2 y o o') h h'.
Proof.
  intros H1 H2 y. specialize (H1 y). specialize (H2 y).
  destruct (h !! y), (h' !! y); done.
Qed.

(** *** Links *)

Lemma same_links_refl h : same_links h h.
Proof. by apply heap_rel_refl. Qed.

Lemma same_links_trans h1 h2 h3 :
  same_links h1 h2 → same_links h2 h3 → same_links h1 h3.
Proof.
  apply heap_rel_trans. intros _ a b c [? ?] [? ?]. split; congruence.
Qed.

Lemma same_links_alter h x f :
  (∀ o, h !! x = Some o → node_same_links o (f o)) → same_links h (alter f x h).
Proof. intros Hx. apply heap_rel_alter; [done|exact Hx]. Qed.

Lemma same_links_closed h h' : same_links h h' → closed h → closed h'.
Proof.
  intros Hs Hc x o' E'.
  destruct (heap_rel_lookup_r _ _ _ _ _ Hs E') as (o & E & [Hp Hch]).
  destruct (Hc x o E) as [Cp Cc]. split.
  - intros p P. apply (heap_rel_is_Some _ _ _ p Hs). apply Cp. congruence.
  - intros c In. apply (heap_rel_is_Some _ _ _ c Hs). apply Cc. by rewrite <- Hch.
Qed.

Lemma same_links_consistent h h' : same_links h h' → consistent h → consistent h'.
Proof.
  intros Hs Hc p c op' oc' Ep' Ec'.
  destruct (heap_rel_lookup_r _ _ _ _ _ Hs Ep') as (op & Ep & [_ Hch]).
  destruct (heap_rel_lookup_r _ _ _ _ _ Hs Ec') as (oc & Ec & [Hp _]).
  rewrite Hch, Hp. by apply Hc.
Qed.

Lemma same_links_child_of h h' p c : same_links h h' → child_of h p c ↔ child_of h' p c.
Proof.
  intros Hs. split.
  - intros (op & Ep & In).
    destruct (heap_rel_lookup _ _ _ _ _ Hs Ep) as (op' & Ep' & [_ Hch]).
    exists op'. by rewrite Hch.
  - intros (op' & Ep' & In).
    destruct (heap_rel_lookup_r _ _ _ _ _ Hs Ep') as (op & Ep & [_ Hch]).
    exists op. by rewrite <- Hch.
Qed.

Lemma same_links_reach h h' x y : same_links h h' → reach h x y → reach h' x y.
Proof.
  intros Hs. induction 1 as [|a b c Hab _ IH]; [apply rtc_refl|].
  eapply rtc_l; [|exact IH]. by apply (same_links_child_of h h').
Qed.

Lemma same_links_ranked rank h h' : same_links h h' → ranked rank h → ranked rank h'.
Proof.
  intros Hs Hr p op' Ep'.
  destruct (heap_rel_lookup_r _ _ _ _ _ Hs Ep') as (op & Ep & [_ Hch]).
  rewrite Hch. by apply (Hr p op).
Qed.

(** *** Calm changes keep the matrix invariants *)

Lemma node_calm_refl o : node_calm o o.
Proof. by repeat split. Qed.

Lemma node_calm_trans a b c : node_calm a b → node_calm b c → node_calm a c.
Proof.
  intros (W1 & V1 & L1) (W2 & V2 & L2). split; [congruence|]. split.
  - intros V. destruct (V2 V) as (Vb & ? & ? & ?).
    destruct (V1 Vb) as (? & ? & ? & ?). repeat split; congruence.
  - intros L. destruct (L2 L) as (Lb & ? & ? & ? & ?).
    destruct (L1 Lb) as (? & ? & ? & ? & ?). repeat split; congruence.
Qed.

Lemma calm_refl h : calm h h.
Proof. apply heap_rel_refl. intros. apply node_calm_refl. Qed.

Lemma calm_trans h1 h2 h3 : calm h1 h2 → calm h2 h3 → calm h1 h3.
Proof. apply heap_rel_trans. intros _. apply node_calm_trans. Qed.

Lemma calm_alter h x f :
  (∀ o, h !! x = Some o → node_calm o (f o)) → calm h (alter f x h).
Proof. intros Hx. apply heap_rel_alter; [intros; apply node_calm_refl|exact Hx]. Qed.

Lemma calm_flags_ok h h' : calm h h' → flags_ok h → flags_ok h'.
Proof.
  intros Hc Hf x o' E' V.
  destruct (heap_rel_lookup_r _ _ _ _ _ Hc E') as (o & E & (_ & HV & _)).
  destruct (HV V) as (Vo & _ & _ & ->). by apply (Hf x).
Qed.

Lemma calm_local_ok h h' : calm h h' → local_ok h → local_ok h'.
Proof.
  intros Hc Hl x o' E' L.
  destruct (heap_rel_lookup_r _ _ _ _ _ Hc E') as (o & E & (_ & _ & HL)).
  destruct (HL L) as (Lo & -> & -> & -> & ->). by apply (Hl x).
Qed.

Lemma calm_world_ok h h' : calm h h' → world_ok h → world_ok h'.
Proof.
  intros Hc Hw x o' E' V.
  destruct (heap_rel_lookup_r _ _ _ _ _ Hc E') as (o & E & (W & HV & _)).
  destruct (HV V) as (Vo & P & L & _).
  specialize (Hw x o E Vo). unfold world_eq in *. rewrite P, W, L.
  destruct (_parent o) as [p|]; [|done].
  destruct Hw as (po & Ep & Eq).
  destruct (heap_rel_lookup _ _ _ _ _ Hc Ep) as (po' & Ep' & (Wp & _)).
  exists po'. split; [done|]. by rewrite Wp.
Qed.

(** ** Composing properties of methods *)

Global Instance w_calm_preorder : PreOrder w_calm.
Proof.
  split.
  - intros w. apply calm_refl.
  - intros w1 w2 w3. apply calm_trans.
Qed.

Global Instance w_same_links_preorder : PreOrder w_same_links.
Proof.
  split.
  - intros w. apply same_links_refl.
  - intros w1 w2 w3. apply same_links_trans.
Qed.

Global Instance w_keeps_preorder I : PreOrder (w_keeps I).
Proof. split; unfold w_keeps; [intros w|intros w1 w2 w3]; auto. Qed.

Lemma always_ret {A} Q `{!Reflexive Q} (a : A) : always Q (mret a).
Proof. intros w r w' [= <- <-]. reflexivity. Qed.

Lemma always_throw {A} Q `{!Reflexive Q} e : always Q (throw (A:=A) e).
Proof. intros w r w' [= <- <-]. reflexivity. Qed.

Lemma always_get_obj Q `{!Reflexive Q} x : always Q (get_obj x).
Proof.
  intros w r w'. unfold get_obj. destruct (heap w !! x); intros [= <- <-]; reflexivity.
Qed.

Lemma always_bind {A B} Q `{!Transitive Q} (m : M A) (k : A → M B) :
  always Q m → (∀ a, always Q (k a)) → always Q (m ≫= k).
Proof.
  intros Hm Hk w r w'. rewrite bind_unfold.
  destruct (m w) as [[a|e] w1] eqn:E.
  - intros E'. etrans; [eapply Hm, E|eapply Hk, E'].
  - intros [= <- <-]. eapply Hm, E.
Qed.

Lemma always_impl {A} (Q Q' : World → World → Prop) (m : M A) :
  (∀ w w', Q w w' → Q' w w') → always Q m → always Q' m.
Proof. intros HQ Hm w r w' E. eapply HQ, Hm, E. Qed.

Lemma always_ext {A} Q (m m' : M A) :
  (∀ w, m w = m' w) → always Q m' → always Q m.
Proof. intros Hm Hm' w r w' E. rewrite Hm in E. eapply Hm', E. Qed.

Lemma always_for_children Q `{!PreOrder Q} this cs body :
  (∀ c, always Q (body c)) → always Q (for_children this cs body).
Proof.
  intros Hb. induction cs as [|c cs IH]; simpl.
  - apply (always_ret Q tt).
  - apply always_bind; [apply _|apply always_get_obj, _|]. intros o.
    destruct (set_has c (_children o)); [|exact IH].
    apply always_bind; [apply _|apply Hb|]. intros _. exact IH.
Qed.

Lemma always_modify Q `{!Reflexive Q} x f :
  (∀ w o, heap w !! x = Some o →
     Q w (mkWorld (alter f x (heap w)) (trace w) (warnings w))) →
  always Q (modify x f).
Proof.
  intros HQ w r w'. destruct (heap w !! x) as [o|] eqn:E.
  - rewrite (modify_alter _ _ _ _ E). intros [= <- <-]. by eapply HQ.
  - rewrite (modify_none _ _ _ E). intros [= <- <-]. reflexivity.
Qed.

(** Methods that leave the heap alone. *)
Lemma always_wl (Q : World → World → Prop) (msg : Warning) :
  (∀ w, Q w (mkWorld (heap w) (trace w) (warnings w ++ [msg]))) → always Q (wl msg).
Proof. intros HQ w r w' [= <- <-]. apply HQ. Qed.

Lemma always_notify Q `{!Reflexive Q} this ev args :
  (∀ w t, Q w (mkWorld (heap w) t (warnings w))) → always Q (notify this ev args).
Proof.
  intros HQ w r w'. destruct (heap w !! this) as [o|] eqn:E.
  - rewrite (notify_some _ _ _ _ _ E). intros [= <- <-]. apply HQ.
  - rewrite (notify_none _ _ _ _ E). intros [= <- <-]. reflexivity.
Qed.

(** ** Which methods are calm, which keep the links *)

Lemma modify_same_links x f :
  (∀ o, node_same_links o (f o)) → always w_same_links (modify x f).
Proof.
  intros Hf. apply always_modify; [apply _|]. intros w o E.
  apply same_links_alter. auto.
Qed.

Lemma modify_calm x f :
  (∀ o, node_calm o (f o)) → always w_calm (modify x f).
Proof.
  intros Hf. apply always_modify; [apply _|]. intros w o E.
  apply calm_alter. auto.
Qed.

Lemma notify_same_links this ev args : always w_same_links (notify this ev args).
Proof. apply always_notify; [apply _|]. intros. apply same_links_refl. Qed.

Lemma notify_calm this ev args : always w_calm (notify this ev args).
Proof. apply always_notify; [apply _|]. intros. apply calm_refl. Qed.

Lemma wl_same_links msg : always w_same_links (wl msg).
Proof. apply always_wl. intros. apply same_links_refl. Qed.

Lemma wl_calm msg : always w_calm (wl msg).
Proof. apply always_wl. intros. apply calm_refl. Qed.

Lemma notify_keeps I this ev args : always (w_keeps I) (notify this ev args).
Proof. apply always_notify; [apply _|]. intros w t Hi. exact Hi. Qed.

Lemma wl_keeps I msg : always (w_keeps I) (wl msg).
Proof. apply always_wl. intros w Hi. exact Hi. Qed.

(** Walks through the binds, branches and loops of a method, leaving the
    writes to the heap. *)
Ltac walk :=
  repeat match goal with
    | |- always _ (mbind _ _) => apply always_bind; [apply _| |intros ?]
    | |- always _ (mret _) => apply always_ret, _
    | |- always _ (throw _) => apply always_throw, _
    | |- always _ (get_obj _) => apply always_get_obj, _
    | |- always _ (for_children _ _ _) => apply always_for_children; [apply _|intros ?]
    | |- always w_same_links (notify _ _ _) => apply notify_same_links
    | |- always w_calm (notify _ _ _) => apply notify_calm
    | |- always w_same_links (wl _) => apply wl_same_links
    | |- always w_calm (wl _) => apply wl_calm
    | |- always (w_keeps _) (notify _ _ _) => apply notify_keeps
    | |- always (w_keeps _) (wl _) => apply wl_keeps
    | |- always _ (if ?b then _ else _) => destruct b
    | |- always _ (match ?x with _ => _ end) => destruct x
    end.

Lemma _invalidateModel_same_links this : always w_same_links (_invalidateModel this).
Proof. by apply modify_same_links. Qed.

Lemma _invalidateModel_calm this : always w_calm (_invalidateModel this).
Proof.
  apply modify_calm. intros o. split; [done|]. split; [done|]. by intros ?.
Qed.

Lemma _invalidateLocalModel_same_links this :
  always w_same_links (_invalidateLocalModel this).
Proof.
  unfold _invalidateLocalModel. walk;
    [by apply modify_same_links|apply _invalidateModel_same_links].
Qed.

Lemma set_parent_calm this p : always w_calm (set_parent this p).
Proof.
  intros w r w'. destruct (heap w !! this) as [o|] eqn:E.
  - rewrite (set_parent_some _ _ _ _ E). intros [= <- <-].
    apply calm_alter. intros o' _. by split.
  - unfold set_parent. rewrite (bind_throw _ _ _ _ _ (modify_none _ _ _ E)).
    intros [= <- <-]. apply calm_refl.
Qed.

(** A property setter is calm whatever it writes, as long as it leaves the
    world model alone: it invalidates both models. *)
Lemma setter_calm (f : Object3D → Object3D) (ev : string) (arg : Object3D → Value) this :
  (∀ o, _listeners (f o) = _listeners o) →
  (∀ o, _world_model (f o) = _world_model o) →
  always w_calm (modify this f;; _invalidateLocalModel this;;
                 o ← get_obj this; notify this ev [arg o]).
Proof.
  intros Hl Hw w r w'. destruct (heap w !! this) as [o|] eqn:E.
  - rewrite (setter_run f ev arg _ _ _ E (Hl o)). intros [= <- <-].
    apply calm_alter. intros o' _. split; [apply Hw|]. by split.
  - rewrite (bind_throw _ _ _ _ _ (modify_none _ _ _ E)).
    intros [= <- <-]. apply calm_refl.
Qed.

Lemma setter_same_links (f : Object3D → Object3D) (ev : string) (arg : Object3D → Value) this :
  (∀ o, node_same_links o (f o)) →
  always w_same_links (modify this f;; _invalidateLocalModel this;;
                       o ← get_obj this; notify this ev [arg o]).
Proof.
  intros Hf. walk; [by apply modify_same_links|apply _invalidateLocalModel_same_links].
Qed.

Lemma _computeWorldModel_same_links this : always w_same_links (_computeWorldModel this).
Proof. unfold _computeWorldModel. walk; by apply modify_same_links. Qed.

Lemma _revalidateModel_same_links this : always w_same_links (_revalidateModel this).
Proof.
  unfold _revalidateModel. walk;
    first [by apply modify_same_links
          |apply _computeWorldModel_same_links
          |apply _invalidateModel_same_links].
Qed.

Lemma update_0 this delta_t : update 0 this delta_t = throw StackOverflow.
Proof. reflexivity. Qed.

Lemma update_S fuel this delta_t :
  update (S fuel) this delta_t =
  (o ← get_obj this;
   (if negb (_is_model_valid o) then _revalidateModel this else mret tt);;
   o ← get_obj this;
   for_children this (_children o) (λ child, update fuel child delta_t)).
Proof. reflexivity. Qed.

Lemma destroy_0 this : destroy 0 this = throw StackOverflow.
Proof. reflexivity. Qed.

Lemma destroy_S fuel this :
  destroy (S fuel) this =
  (o ← get_obj this;
   match _parent o with
   | Some parent => removeChild parent (Some this);; mret tt
   | None => mret tt
   end;;
   clearListeners this;;
   o ← get_obj this;
   for_children this (_children o) (λ child,
     removeChild this (Some child);;
     destroy fuel child);;
   notify this "destroy" []).
Proof. reflexivity. Qed.

Lemma update_same_links fuel this delta_t : always w_same_links (update fuel this delta_t).
Proof.
  revert this. induction fuel as [|fuel IH]; intros this;
    [rewrite update_0|rewrite update_S].
  - apply always_throw, _.
  - walk; first [apply _revalidateModel_same_links|apply IH].
Qed.

(** A write to fields the matrices do not depend on. *)
Ltac calm_fields := intros ?; split; [done|]; split; intros ?; by repeat split.

Lemma addChild_calm this object : always w_calm (addChild this object).
Proof.
  unfold addChild, hasChild. walk; [|apply set_parent_calm].
  apply modify_calm. calm_fields.
Qed.

Lemma removeChild_calm this (target : option ref) :
  always w_calm (removeChild this target).
Proof.
  unfold removeChild, hasChild. walk; [|apply set_parent_calm].
  apply modify_calm. calm_fields.
Qed.

Lemma clearChildren_calm this : always w_calm (clearChildren this).
Proof. unfold clearChildren. walk. apply removeChild_calm. Qed.

Lemma clearListeners_calm this : always w_calm (clearListeners this).
Proof. apply modify_calm. calm_fields. Qed.

Lemma destroy_calm fuel this : always w_calm (destroy fuel this).
Proof.
  revert this. induction fuel as [|fuel IH]; intros this;
    [rewrite destroy_0|rewrite destroy_S].
  - apply always_throw, _.
  - walk; first [apply removeChild_calm|apply clearListeners_calm|apply IH].
Qed.

(** ** Linking and unlinking keep the links well formed *)

Lemma addChild_heap w this object r w' :
  addChild this object w = (r, w') →
  heap w' = heap w ∨
  (∃ o obj, heap w !! this = Some o ∧ heap w !! object = Some obj ∧
     _parent obj = None ∧ (object ∉ _children o) ∧
     heap w' = alter (with_is_model_valid false ∘ with_parent (Some this)) object
                 (alter (λ o, with_children (_children o ++ [object]) o) this (heap w))).
Proof.
  destruct (heap w !! object) as [obj|] eqn:Eo.
  2:{ unfold addChild. rewrite (bind_throw _ _ _ _ _ (get_obj_none _ _ Eo)).
      intros [= <- <-]. by left. }
  destruct (_parent obj) as [p|] eqn:P.
  { rewrite (addChild_parented _ _ _ _ _ Eo P). intros [= <- <-]. by left. }
  destruct (heap w !! this) as [o|] eqn:E.
  2:{ unfold addChild. rewrite (bind_ok _ _ _ _ _ (get_obj_some _ _ _ Eo)).
      rewrite P, bool_decide_eq_false_2 by (by intros [? ?]).
      unfold hasChild.
      rewrite (bind_throw _ _ _ _ _ (bind_throw _ _ _ _ _ (get_obj_none _ _ E))).
      intros [= <- <-]. by left. }
  destruct (decide (object ∈ _children o)) as [In|Nin].
  - rewrite (addChild_present _ _ _ _ _ E Eo P In). intros [= <- <-]. by left.
  - rewrite (addChild_fresh _ _ _ _ _ E Eo P Nin). intros [= <- <-].
    right. by exists o, obj.
Qed.

Lemma removeChild_heap w this (target : option ref) r w' :
  removeChild this target w = (r, w') → closed (heap w) →
  heap w' = heap w ∨
  (∃ child o, target = Some child ∧ heap w !! this = Some o ∧
     child ∈ _children o ∧ is_Some (heap w !! child) ∧ r = Ok true ∧
     w' = mkWorld
            (alter (with_is_model_valid false ∘ with_parent None) child
               (alter (λ o, with_children (set_delete child (_children o)) o)
                  this (heap w)))
            (trace w ++ ((λ cb, mkInvocation cb this "remove" [VObject this; VObject child])
                           <$> default [] (_listeners o !! "remove")))
            (warnings w)).
Proof.
  intros R Hc. destruct target as [child|].
  2:{ injection R as <- <-. by left. }
  destruct (heap w !! this) as [o|] eqn:E.
  2:{ unfold removeChild, hasChild in R.
      rewrite (bind_throw _ _ _ _ _ (bind_throw _ _ _ _ _ (get_obj_none _ _ E))) in R.
      injection R as <- <-. by left. }
  destruct (decide (child ∈ _children o)) as [In|Nin].
  - assert (is_Some (heap w !! child)) as Ec by (by eapply (Hc this o)).
    rewrite (removeChild_present _ _ _ _ E In Ec) in R. injection R as <- <-.
    right. by exists child, o.
  - rewrite (removeChild_absent _ _ _ _ E Nin) in R. injection R as <- <-. by left.
Qed.

Lemma closed_alter h x f :
  closed h →
  (∀ o, h !! x = Some o →
     (∀ p, _parent (f o) = Some p → is_Some (h !! p)) ∧
     (∀ c, c ∈ _children (f o) → is_Some (h !! c))) →
  closed (alter f x h).
Proof.
  intros Hc Hx y o' E'. apply lookup_alter_Some in E'.
  destruct E' as [[<- (o & E & ->)]|[? E]].
  - destruct (Hx o E) as [Hp Hch].
    split; intros; rewrite alter_is_Some; eauto.
  - destruct (Hc y o' E) as [Hp Hch].
    split; intros; rewrite alter_is_Some; eauto.
Qed.

(** An object of a heap changed at two references, read back in the heap
    before the change. *)
Lemma lookup_alter2 h a b (f g : Object3D → Object3D) y o' :
  alter g b (alter f a h) !! y = Some o' →
  ∃ o, h !! y = Some o ∧
       o' = (if decide (b = y) then g else id) ((if decide (a = y) then f else id) o).
Proof.
  destruct (decide (b = y)) as [->|Nb], (decide (a = y)) as [->|Na]; simpl;
    rewrite ?lookup_alter_eq, ?lookup_alter_ne by done;
    rewrite ?lookup_alter_eq, ?lookup_alter_ne by done;
    destruct (h !! y); simpl; intros [= <-]; eauto.
Qed.

Lemma links_ok_add h this object o obj :
  links_ok h → h !! this = Some o → h !! object = Some obj → _parent obj = None →
  links_ok (alter (with_is_model_valid false ∘ with_parent (Some this)) object
              (alter (λ o, with_children (_children o ++ [object]) o) this h)).
Proof.
  intros [Hc Hk] E Eo P. split.
  - apply closed_alter; [apply closed_alter; [done|]|].
    + intros o1 E1. destruct (Hc _ _ E1) as [Hp Hch]. split; [done|].
      simpl. intros c [In|In%list_elem_of_singleton]%elem_of_app; subst; eauto.
    + intros o1 E1. apply lookup_alter_Some in E1. split.
      * simpl. intros p [= <-]. rewrite alter_is_Some. eauto.
      * simpl. intros c In. rewrite alter_is_Some.
        destruct E1 as [[<- (o3 & E3 & ->)]|[? E1]].
        -- simpl in In. apply elem_of_app in In as [In|In%list_elem_of_singleton].
           ++ by eapply (Hc _ _ E3).
           ++ subst. eauto.
        -- by eapply (Hc _ _ E1).
  - intros p c op' oc' Ep' Ec'.
    apply lookup_alter2 in Ep' as (op & Ep & ->).
    apply lookup_alter2 in Ec' as (oc & Ec & ->).
    pose proof (Hk _ _ _ _ Ep Ec) as K.
    destruct (decide (object = p)), (decide (this = p)),
      (decide (object = c)), (decide (this = c)); simplify_eq; simpl;
      rewrite ?elem_of_app, ?list_elem_of_singleton; intuition congruence.
Qed.

Lemma links_ok_remove h this child o :
  links_ok h → h !! this = Some o → child ∈ _children o →
  links_ok (alter (with_is_model_valid false ∘ with_parent None) child
              (alter (λ o, with_children (set_delete child (_children o)) o) this h)).
Proof.
  intros [Hc Hk] E In. split.
  - apply closed_alter; [apply closed_alter; [done|]|].
    + intros o1 E1. destruct (Hc _ _ E1) as [Hp Hch]. split; [done|].
      simpl. intros c [_ In']%elem_of_set_delete. eauto.
    + intros o1 E1. apply lookup_alter_Some in E1. split; [done|].
      simpl. intros c In'. rewrite alter_is_Some.
      destruct E1 as [[<- (o3 & E3 & ->)]|[? E1]].
      * simpl in In'. apply elem_of_set_delete in In' as [_ In'].
        by eapply (Hc _ _ E3).
      * by eapply (Hc _ _ E1).
  - intros p c op' oc' Ep' Ec'.
    apply lookup_alter2 in Ep' as (op & Ep & ->).
    apply lookup_alter2 in Ec' as (oc & Ec & ->).
    pose proof (Hk _ _ _ _ Ep Ec) as K.
    assert (is_Some (h !! child)) as [och Ech] by (by eapply (Hc _ _ E)).
    pose proof (Hk this child o och E Ech) as K'.
    destruct (decide (child = p)), (decide (this = p)),
      (decide (child = c)), (decide (this = c)); simplify_eq; simpl;
      rewrite ?elem_of_set_delete; intuition congruence.
Qed.

Lemma same_links_links_ok h h' : same_links h h' → links_ok h → links_ok h'.
Proof.
  intros Hs [Hc Hk]. split;
    [by eapply same_links_closed|by eapply same_links_consistent].
Qed.

Lemma same_links_keeps {A} (m : M A) :
  always w_same_links m → always (w_keeps links_ok) m.
Proof.
  apply always_impl. intros w w' Hs Hok. exact (same_links_links_ok _ _ Hs Hok).
Qed.

Lemma addChild_links_ok this object : always (w_keeps links_ok) (addChild this object).
Proof.
  intros w r w' E Hok.
  destruct (addChild_heap _ _ _ _ _ E) as [->|(o & obj & Et & Eo & P & _ & ->)];
    [done|by eapply links_ok_add].
Qed.

Lemma removeChild_links_ok this (target : option ref) :
  always (w_keeps links_ok) (removeChild this target).
Proof.
  intros w r w' E Hok.
  destruct (removeChild_heap _ _ _ _ _ E (proj1 Hok))
    as [->|(c & o & _ & Et & In & _ & _ & ->)]; [done|by eapply links_ok_remove].
Qed.

Lemma clearChildren_links_ok this : always (w_keeps links_ok) (clearChildren this).
Proof. unfold clearChildren. walk. apply removeChild_links_ok. Qed.

Lemma clearListeners_same_links this : always w_same_links (clearListeners this).
Proof. by apply modify_same_links. Qed.

Lemma destroy_links_ok fuel this : always (w_keeps links_ok) (destroy fuel this).
Proof.
  revert this. induction fuel as [|fuel IH]; intros this;
    [rewrite destroy_0|rewrite destroy_S].
  - apply always_throw, _.
  - walk; first [apply removeChild_links_ok
                |apply same_links_keeps, clearListeners_same_links
                |apply IH].
Qed.

(** ** The scene invariant *)

Lemma scene_ok_links_ok h : scene_ok h → links_ok h.
Proof. intros []. by split. Qed.

Lemma scene_ok_calm h h' : scene_ok h → calm h h' → links_ok h' → scene_ok h'.
Proof.
  intros [] Hc [? ?]. split; try done.
  - by eapply calm_flags_ok.
  - by eapply calm_local_ok.
  - by eapply calm_world_ok.
Qed.

(** A method that is calm and keeps the links well formed keeps the scene
    invariant. *)
Lemma calm_keeps_scene_ok {A} (m : M A) :
  always w_calm m → always (w_keeps links_ok) m → always (w_keeps scene_ok) m.
Proof.
  intros Hc Hl w r w' E Hok. eapply scene_ok_calm; [done|eapply Hc, E|].
  eapply Hl; [exact E|]. by apply scene_ok_links_ok.
Qed.

(** ** Revalidation *)

Lemma ret_bind {A B} (a : A) (k : A → M B) w : (mret a ≫= k) w = k a w.
Proof. reflexivity. Qed.

Lemma relocal_run w this o :
  heap w !! this = Some o →
  (if negb (truthy (_is_local_model_valid o))
   then
     modify this (λ o,
       with_local_model (compose_local (_origin o) (_orientation o) (_scale o)) o);;
     modify this (with_is_local_model_valid (Some true))
   else mret tt) w =
  (Ok tt, mkWorld (<[this := relocal o]> (heap w)) (trace w) (warnings w)).
Proof.
  intros E. unfold relocal. destruct (truthy (_is_local_model_valid o)); simpl.
  - rewrite (insert_id _ _ _ E). by destruct w.
  - rewrite (bind_ok _ _ _ _ _ (modify_some _ _ _ _ E)).
    erewrite modify_some by (simpl; apply lookup_insert_eq).
    simpl. by rewrite insert_insert_eq.
Qed.

Lemma _computeWorldModel_run w this o W :
  heap w !! this = Some o →
  match _parent o with
  | Some p => ∃ po, heap w !! p = Some po ∧
                    W = Mat4_multiply (_world_model po) (_local_model o)
  | None => W = _local_model o
  end →
  _computeWorldModel this w =
  (Ok tt, mkWorld (<[this := with_world_model W o]> (heap w)) (trace w) (warnings w)).
Proof.
  intros E HW. unfold _computeWorldModel.
  rewrite (bind_ok _ _ _ _ _ (get_obj_some _ _ _ E)).
  destruct (_parent o) as [p|].
  - destruct HW as (po & Ep & ->).
    rewrite (bind_ok _ _ _ _ _ (get_obj_some _ _ _ Ep)).
    rewrite (bind_ok _ _ _ _ _ (modify_some _ _ _ _ E)).
    erewrite modify_some by (simpl; apply lookup_insert_eq).
    simpl. by rewrite insert_insert_eq.
  - subst W. by rewrite (modify_some _ _ _ _ E).
Qed.

Lemma invalidate_twice o :
  with_is_model_valid false (with_is_model_valid false o) = with_is_model_valid false o.
Proof. reflexivity. Qed.

(** The loop of [_revalidateModel] invalidates every entry it is given. *)
Lemma for_children_invalidate this (K cs : list ref) w :
  (∃ o, heap w !! this = Some o ∧ _children o = K) →
  (∀ c, c ∈ cs → c ∈ K ∧ is_Some (heap w !! c)) →
  ∃ w', for_children this cs _invalidateModel w = (Ok tt, w') ∧
        trace w' = trace w ∧ warnings w' = warnings w ∧
        ∀ y, heap w' !! y =
             if decide (y ∈ cs) then with_is_model_valid false <$> heap w !! y
             else heap w !! y.
Proof.
  revert w. induction cs as [|c cs IH]; intros w (o & E & HK) Hcs.
  - exists w. split; [done|]. split; [done|]. split; [done|]. intros y.
    rewrite decide_False; [done|]. apply not_elem_of_nil.
  - destruct (Hcs c) as [InK [oc Ec]]; [by left|].
    simpl. rewrite (bind_ok _ _ _ _ _ (get_obj_some _ _ _ E)).
    unfold set_has. rewrite HK, bool_decide_eq_true_2 by done.
    rewrite (bind_ok _ _ _ _ _ (_invalidateModel_some _ _ _ Ec)).
    edestruct (IH (mkWorld (alter (with_is_model_valid false) c (heap w))
                     (trace w) (warnings w))) as (w' & R & Ht & Hw & Hh).
    + simpl. rewrite lookup_alter. case_decide.
      * subst. rewrite E. simpl. eauto.
      * eauto.
    + intros c' In'. destruct (Hcs c') as [? ?]; [by right|].
      split; [done|]. simpl. by rewrite alter_is_Some.
    + exists w'. split; [done|]. split; [done|]. split; [done|].
      intros y. rewrite Hh. simpl. rewrite lookup_alter.
      destruct (decide (c = y)) as [->|Ne].
      * rewrite (decide_True (P := y ∈ y :: cs)) by (by left).
        case_decide; [|done].
        destruct (heap w !! y); simpl; [|done]. by rewrite invalidate_twice.
      * destruct (decide (y ∈ cs)) as [In|Nin].
        -- rewrite decide_True by (by right). done.
        -- rewrite decide_False; [done|].
           intros [?|?]%elem_of_cons; congruence.
Qed.

Lemma _revalidateModel_run w this o :
  closed (heap w) → heap w !! this = Some o →
  ∃ w' W,
    _revalidateModel this w = (Ok tt, w') ∧
    match _parent o with
    | Some p => ∃ po, heap w !! p = Some po ∧
                      W = Mat4_multiply (_world_model po) (_local_model (relocal o))
    | None => W = _local_model (relocal o)
    end ∧
    ∀ y, heap w' !! y =
         if decide (y ∈ _children o)
         then with_is_model_valid false <$> <[this := revalidated W o]> (heap w) !! y
         else <[this := revalidated W o]> (heap w) !! y.
Proof.
  intros Hc E.
  assert (_parent (relocal o) = _parent o ∧ _children (relocal o) = _children o ∧
          _world_model (relocal o) = _world_model o) as (P1 & C1 & W1).
  { unfold relocal. by destruct (truthy _). }
  assert (∃ W, match _parent o with
               | Some p => ∃ po, heap w !! p = Some po ∧
                   W = Mat4_multiply (_world_model po) (_local_model (relocal o))
               | None => W = _local_model (relocal o)
               end) as [W HW].
  { destruct (_parent o) as [p|] eqn:P; [|eauto].
    destruct (proj1 (Hc _ _ E) p P) as [po Ep]. eauto. }
  unfold _revalidateModel.
  rewrite (bind_ok _ _ _ _ _ (get_obj_some _ _ _ E)).
  rewrite (bind_ok _ _ _ _ _ (relocal_run _ _ _ E)).
  erewrite bind_ok; last first.
  { eapply (_computeWorldModel_run _ this (relocal o) W).
    - simpl. apply lookup_insert_eq.
    - rewrite P1. destruct (_parent o) as [p|]; [|done].
      destruct HW as (po & Ep & ->). simpl.
      destruct (decide (this = p)) as [<-|Ne].
      + exists (relocal o). rewrite lookup_insert_eq. split; [done|].
        rewrite W1. congruence.
      + exists po. by rewrite lookup_insert_ne. }
  erewrite bind_ok; last first.
  { eapply modify_some. simpl. apply lookup_insert_eq. }
  simpl. rewrite !insert_insert_eq. fold (revalidated W o).
  set (w3 := mkWorld (<[this:=revalidated W o]> (heap w)) (trace w) (warnings w)).
  assert (heap w3 !! this = Some (revalidated W o)) as E3 by apply lookup_insert_eq.
  rewrite (bind_ok _ _ _ _ _ (get_obj_some _ _ _ E3)).
  destruct (for_children_invalidate this (_children o) (_children (revalidated W o)) w3)
    as (w4 & R4 & Ht & Hw & Hh).
  { exists (revalidated W o). split; [done|]. simpl. done. }
  { intros c In. simpl in In. rewrite C1 in In. split; [done|]. simpl.
    apply lookup_insert_is_Some'. right. by eapply (Hc _ _ E). }
  rewrite (bind_ok _ _ _ _ _ R4).
  assert (is_Some (heap w4 !! this)) as [o4 E4].
  { rewrite Hh. case_decide; rewrite E3; simpl; eauto. }
  rewrite (bind_ok _ _ _ _ _ (get_obj_some _ _ _ E4)).
  exists (mkWorld (heap w4)
            (trace w4 ++
             (if negb (truthy (_is_local_model_valid o))
              then (λ cb, mkInvocation cb this "localModel" [VMat4 (_local_model o4)])
                     <$> default [] (_listeners o4 !! "localModel")
              else []) ++
             ((λ cb, mkInvocation cb this "model" [VMat4 (_world_model o4)])
                <$> default [] (_listeners o4 !! "model")))
            (warnings w4)), W.
  split; [|split; [exact HW|]].
  - destruct (negb (truthy (_is_local_model_valid o))).
    + rewrite (bind_ok _ _ _ _ _ (notify_some _ _ _ _ _ E4)).
      erewrite notify_some by (simpl; exact E4). simpl. by rewrite <- app_assoc.
    + rewrite ret_bind. by rewrite (notify_some _ _ _ _ _ E4).
  - intros y. simpl. rewrite Hh. simpl. rewrite C1. done.
Qed.

Lemma truthy_true (b : option bool) : truthy b = true → b = Some true.
Proof. by destruct b as [[]|]. Qed.

Lemma relocal_fields o :
  _parent (relocal o) = _parent o ∧ _children (relocal o) = _children o ∧
  _world_model (relocal o) = _world_model o ∧
  _is_model_valid (relocal o) = _is_model_valid o ∧
  _origin (relocal o) = _origin o ∧ _orientation (relocal o) = _orientation o ∧
  _scale (relocal o) = _scale o ∧ _listeners (relocal o) = _listeners o.
Proof. unfold relocal. by destruct (truthy _). Qed.

Lemma relocal_valid o : _is_local_model_valid (relocal o) = Some true.
Proof.
  unfold relocal. destruct (truthy _) eqn:T; [by apply truthy_true|done].
Qed.

Lemma relocal_local_model o :
  (_is_local_model_valid o = Some true →
   _local_model o = compose_local (_origin o) (_orientation o) (_scale o)) →
  _local_model (relocal o) = compose_local (_origin o) (_orientation o) (_scale o).
Proof.
  intros Hl. unfold relocal. destruct (truthy _) eqn:T; [|done].
  by apply Hl, truthy_true.
Qed.

Lemma _revalidateModel_scene_ok this : always (w_keeps scene_ok) (_revalidateModel this).
Proof.
  intros w r w' R Hok.
  destruct (heap w !! this) as [o|] eqn:E.
  2:{ unfold _revalidateModel in R.
      rewrite (bind_throw _ _ _ _ _ (get_obj_none _ _ E)) in R. by injection R as <- <-. }
  destruct (_revalidateModel_run w this o (ok_closed _ Hok) E) as (w1 & W & R1 & HW & Hh).
  rewrite R1 in R. injection R as <- <-.
  pose proof (_revalidateModel_same_links this _ _ _ R1) as Hs.
  destruct (relocal_fields o) as (P1 & C1 & W1 & V1 & O1 & Q1 & S1 & _).
  set (h3 := <[this := revalidated W o]> (heap w)) in *.
  (* every object of the new heap is one of [h3], possibly invalidated *)
  assert (∀ y o', heap w1 !! y = Some o' →
            ∃ z, h3 !! y = Some z ∧
                 (((y ∉ _children o) ∧ o' = z) ∨
                  (y ∈ _children o ∧ o' = with_is_model_valid false z))) as Hback.
  { intros y o' E'. rewrite Hh in E'. case_decide.
    - destruct (h3 !! y) as [z|]; simplify_eq/=. eauto.
    - eauto. }
  assert (∀ p po, p ≠ this → heap w !! p = Some po →
            ∃ po', heap w1 !! p = Some po' ∧ _world_model po' = _world_model po) as Hfwd.
  { intros p po Ne Ep. rewrite Hh. unfold h3. rewrite lookup_insert_ne by done.
    rewrite Ep. case_decide; simpl; eauto. }
  split.
  - eapply same_links_closed; [exact Hs|apply Hok].
  - eapply same_links_consistent; [exact Hs|apply Hok].
  - intros y o' E' V. destruct (Hback _ _ E') as (z & Ez & [[_ ->]|[_ ->]]); [|done].
    unfold h3 in Ez. apply lookup_insert_Some in Ez as [[<- <-]|[_ Ez]].
    + apply relocal_valid.
    + by apply (ok_flags _ Hok y).
  - intros y o' E' L.
    assert (∃ z, h3 !! y = Some z ∧ _is_local_model_valid z = Some true ∧
              _local_model o' = _local_model z ∧ _origin o' = _origin z ∧
              _orientation o' = _orientation z ∧ _scale o' = _scale z)
      as (z & Ez & Lz & -> & -> & -> & ->).
    { destruct (Hback _ _ E') as (z & Ez & [[_ ->]|[_ ->]]); eauto 10. }
    unfold h3 in Ez. apply lookup_insert_Some in Ez as [[<- <-]|[_ Ez]].
    + simpl. rewrite O1, Q1, S1. apply relocal_local_model. apply (ok_local _ Hok _ _ E).
    + by apply (ok_local _ Hok y).
  - intros y o' E' V. destruct (Hback _ _ E') as (z & Ez & [[Nin ->]|[_ ->]]); [|done].
    unfold h3 in Ez. apply lookup_insert_Some in Ez as [[<- <-]|[Ne Ez]].
    + unfold world_eq. simpl. rewrite P1. destruct (_parent o) as [p|] eqn:P; [|done].
      destruct HW as (po & Ep & ->).
      destruct (decide (p = this)) as [->|Np].
      { exfalso. apply Nin. by apply (ok_consistent _ Hok this this o o). }
      destruct (Hfwd p po Np Ep) as (po' & Ep' & Wp). exists po'. by rewrite Wp.
    + pose proof (ok_world _ Hok y z Ez V) as Hw. unfold world_eq in *.
      destruct (_parent z) as [p|] eqn:P; [|done].
      destruct Hw as (po & Ep & Eq).
      destruct (decide (p = this)) as [->|Np].
      { exfalso. apply Nin. by apply (ok_consistent _ Hok this y o z). }
      destruct (Hfwd p po Np Ep) as (po' & Ep' & Wp). exists po'. by rewrite Wp.
Qed.

Lemma update_scene_ok fuel this delta_t : always (w_keeps scene_ok) (update fuel this delta_t).
Proof.
  revert this. induction fuel as [|fuel IH]; intros this;
    [rewrite update_0|rewrite update_S].
  - apply always_throw, _.
  - walk; first [apply _revalidateModel_scene_ok|apply IH].
Qed.

(** ** Every public method keeps the scene invariant *)

Lemma quiet_keeps_scene_ok {A} (m : M A) :
  always w_calm m → always w_same_links m → always (w_keeps scene_ok) m.
Proof. intros Hc Hs. apply calm_keeps_scene_ok; [done|by apply same_links_keeps]. Qed.

Lemma setter_scene_ok (f : Object3D → Object3D) (ev : string) (arg : Object3D → Value) this :
  (∀ o, _listeners (f o) = _listeners o) →
  (∀ o, _world_model (f o) = _world_model o) →
  (∀ o, node_same_links o (f o)) →
  always (w_keeps scene_ok)
    (modify this f;; _invalidateLocalModel this;;
     o ← get_obj this; notify this ev [arg o]).
Proof.
  intros. apply quiet_keeps_scene_ok; [by apply setter_calm|by apply setter_same_links].
Qed.

(** A rotation that returns [this], with the result dropped, runs as the
    rotation that returns nothing. *)
Lemma rotation_returning_this (q : Quat) this w :
  ((modify this (with_tmp_quaternion q);;
    modify this (λ o, with_orientation (Quat_multiply (_orientation o) (_tmp_quaternion o)) o);;
    _invalidateLocalModel this;;
    o ← get_obj this;
    notify this "orientation" [VQuat (_orientation o)];;
    mret this);; mret tt) w =
  (modify this (with_tmp_quaternion q);;
   modify this (λ o, with_orientation (Quat_multiply (_orientation o) (_tmp_quaternion o)) o);;
   _invalidateLocalModel this;;
   o ← get_obj this;
   notify this "orientation" [VQuat (_orientation o)]) w.
Proof.
  rewrite bind_assoc. apply bind_ext. intros _ w1.
  rewrite bind_assoc. apply bind_ext. intros _ w2.
  rewrite bind_assoc. apply bind_ext. intros _ w3.
  rewrite bind_assoc. apply bind_ext. intros o w4.
  rewrite bind_assoc. apply bind_ret_r.
Qed.

Lemma rotation_scene_ok (q : Quat) this :
  always (w_keeps scene_ok)
    (modify this (with_tmp_quaternion q);;
     modify this (λ o, with_orientation (Quat_multiply (_orientation o) (_tmp_quaternion o)) o);;
     _invalidateLocalModel this;;
     o ← get_obj this;
     notify this "orientation" [VQuat (_orientation o)]).
Proof.
  apply always_bind; [apply _| |intros _].
  - apply quiet_keeps_scene_ok; [apply modify_calm; calm_fields|by apply modify_same_links].
  - by apply (setter_scene_ok _ "orientation" (λ o, VQuat (_orientation o))).
Qed.

Lemma new_Object3D_scene_ok id name origin orientation scl w :
  scene_ok (heap w) → scene_ok (heap (new_Object3D id name origin orientation scl w).2).
Proof.
  intros Hok. simpl. set (r := fresh (dom (heap w))).
  assert (heap w !! r = None) as Hr.
  { apply not_elem_of_dom. apply is_fresh. }
  assert (∀ y o, heap w !! y = Some o → y ≠ r) as Hne by (intros y o E ->; congruence).
  assert (∀ y o p, heap w !! y = Some o → _parent o = Some p → p ≠ r) as Hp.
  { intros y o p E P ->. destruct (proj1 (ok_closed _ Hok _ _ E) r P). congruence. }
  assert (∀ y o, heap w !! y = Some o → r ∉ _children o) as Hch.
  { intros y o E In. destruct (proj2 (ok_closed _ Hok _ _ E) r In). congruence. }
  split.
  - intros x o Ex. apply lookup_insert_Some in Ex as [[<- <-]|[Ne Ex]]; simpl.
    + split; [done|]. by intros c ?%not_elem_of_nil.
    + destruct (ok_closed _ Hok _ _ Ex) as [Cp Cc].
      split; intros; apply lookup_insert_is_Some'; eauto.
  - intros p c op oc Ep Ec.
    apply lookup_insert_Some in Ep as [[<- <-]|[Np Ep]];
      apply lookup_insert_Some in Ec as [[<- <-]|[Nc Ec]]; simpl.
    + split; [by intros ?%not_elem_of_nil|done].
    + split; [by intros ?%not_elem_of_nil|]. intros P. by destruct (Hp _ _ _ Ec P).
    + split; [|done]. intros In. by destruct (Hch _ _ Ep).
    + by apply (ok_consistent _ Hok).
  - intros x o Ex V. apply lookup_insert_Some in Ex as [[<- <-]|[Ne Ex]]; [done|].
    by apply (ok_flags _ Hok x).
  - intros x o Ex L. apply lookup_insert_Some in Ex as [[<- <-]|[Ne Ex]]; [done|].
    by apply (ok_local _ Hok x).
  - intros x o Ex V. apply lookup_insert_Some in Ex as [[<- <-]|[Ne Ex]]; [done|].
    pose proof (ok_world _ Hok x o Ex V) as Hw. unfold world_eq in *.
    destruct (_parent o) as [p|] eqn:P; [|done].
    destruct Hw as (po & Ep & Eq). exists po. split; [|done].
    rewrite lookup_insert_ne; [done|]. intros <-. congruence.
Qed.

Lemma run_scene_ok op : always (w_keeps scene_ok) (run op).
Proof.
  destruct op; simpl.
  - intros w r w' E Hok.
    rewrite bind_unfold in E.
    match type of E with
    | context [new_Object3D ?a ?b ?c ?d ?e w] =>
        pose proof (new_Object3D_scene_ok a b c d e w Hok) as Hn
    end.
    destruct (new_Object3D _ _ _ _ _ w) as [[a|e] w1].
    + by injection E as <- <-.
    + by injection E as <- <-.
  - apply quiet_keeps_scene_ok; [apply modify_calm; calm_fields|by apply modify_same_links].
  - by apply (setter_scene_ok _ "origin" (λ o, VVec3 (_origin o))).
  - by apply (setter_scene_ok _ "orientation" (λ o, VQuat (_orientation o))).
  - by apply (setter_scene_ok _ "size" (λ o, VVec3 (_scale o))).
  - apply calm_keeps_scene_ok; [apply addChild_calm|apply addChild_links_ok].
  - apply always_bind; [apply _| |intros; apply always_ret, _].
    apply calm_keeps_scene_ok; [apply removeChild_calm|apply removeChild_links_ok].
  - apply calm_keeps_scene_ok; [apply clearChildren_calm|apply clearChildren_links_ok].
  - apply update_scene_ok.
  - by apply (setter_scene_ok _ "size" (λ o, VVec3 (_scale o))).
  - by apply (setter_scene_ok _ "origin" (λ o, VVec3 (_origin o))).
  - by apply (setter_scene_ok _ "origin" (λ o, VVec3 (_origin o))).
  - by apply (setter_scene_ok _ "origin" (λ o, VVec3 (_origin o))).
  - by apply (setter_scene_ok _ "origin" (λ o, VVec3 (_origin o))).
  - apply rotation_scene_ok.
  - apply rotation_scene_ok.
  - eapply always_ext; [apply rotation_returning_this|apply rotation_scene_ok].
  - eapply always_ext; [apply rotation_returning_this|apply rotation_scene_ok].
  - apply calm_keeps_scene_ok; [apply destroy_calm|apply destroy_links_ok].
  - apply quiet_keeps_scene_ok; [apply modify_calm; calm_fields|by apply modify_same_links].
  - apply quiet_keeps_scene_ok; [apply notify_calm|apply notify_same_links].
  - apply quiet_keeps_scene_ok; [apply clearListeners_calm|apply clearListeners_same_links].
Qed.

Lemma scene_ok_empty : scene_ok ∅.
Proof. split; intros ?; intros; simplify_map_eq. Qed.

Lemma reachable_scene_ok w : reachable w → scene_ok (heap w).
Proof.
  induction 1 as [|w op _ IH]; [apply scene_ok_empty|].
  unfold exec. destruct (run op w) as [r w'] eqn:E. by eapply run_scene_ok.
Qed.

Lemma reachable_exec_all ops w : reachable w → reachable (exec_all ops w).
Proof.
  revert w. induction ops as [|op ops IH]; intros w Hw; [done|].
  simpl. apply IH. by apply reachable_step.
Qed.

(** ** Claims about every reachable state *)

(** C4.  In no state a program can reach does a node have a world model
    marked valid while its local model is not (be the flag [false] or still
    [undefined]): [_invalidateLocalModel] clears both flags in the one call
    ([_invalidateLocalModel_some]) and [_revalidateModel] marks the world
    model valid only after the local model. *)
Theorem local_invalid_world_valid_unreachable w x o :
  reachable w → heap w !! x = Some o →
  ¬ (truthy (_is_local_model_valid o) = false ∧ _is_model_valid o = true).
Proof.
  intros Hr E [L V].
  rewrite (ok_flags _ (reachable_scene_ok _ Hr) x o E V) in L. done.
Qed.

(** C6.  In every state a program can reach through the public methods
    ([addChild], [removeChild], [clearChildren], [destroy] and all the
    others, returned or thrown), a node is in the child set of another iff
    its [parent] is that other node. *)
Theorem reachable_links_consistent w p c op oc :
  reachable w → heap w !! p = Some op → heap w !! c = Some oc →
  (c ∈ _children op ↔ _parent oc = Some p).
Proof. intros Hr. apply (ok_consistent _ (reachable_scene_ok _ Hr)). Qed.

(** ** Destroying *)

Lemma node_shrinks_refl o : node_shrinks o o.
Proof. split; [by left|]. split; [done|by left]. Qed.

Lemma node_shrinks_trans a b c : node_shrinks a b → node_shrinks b c → node_shrinks a c.
Proof.
  intros (P1 & C1 & L1) (P2 & C2 & L2). split; [|split].
  - destruct P2 as [->| ->]; [done|by right].
  - auto.
  - destruct L2 as [->| ->]; [done|by right].
Qed.

Global Instance w_shrinks_preorder : PreOrder w_shrinks.
Proof.
  split.
  - intros w. apply heap_rel_refl. intros. apply node_shrinks_refl.
  - intros w1 w2 w3. apply heap_rel_trans. intros _. apply node_shrinks_trans.
Qed.

Lemma modify_shrinks x f : (∀ o, node_shrinks o (f o)) → always w_shrinks (modify x f).
Proof.
  intros Hf. apply always_modify; [apply _|]. intros w o E.
  apply heap_rel_alter; [intros; apply node_shrinks_refl|auto].
Qed.

Lemma notify_shrinks this ev args : always w_shrinks (notify this ev args).
Proof.
  apply always_notify; [apply _|]. intros w t.
  apply heap_rel_refl. intros. apply node_shrinks_refl.
Qed.

Lemma wl_shrinks msg : always w_shrinks (wl msg).
Proof.
  apply always_wl. intros w. apply heap_rel_refl. intros. apply node_shrinks_refl.
Qed.

Lemma removeChild_shrinks this (target : option ref) :
  always w_shrinks (removeChild this target).
Proof.
  unfold removeChild, hasChild, set_parent, _invalidateModel. walk;
    first [apply notify_shrinks|apply wl_shrinks|apply modify_shrinks; intros o].
  - split; [by left|]. split; [|by left].
    simpl. by intros c [_ ?]%elem_of_set_delete.
  - split; [by right|]. split; [done|by left].
  - split; [by left|]. split; [done|by left].
Qed.

Lemma clearListeners_shrinks this : always w_shrinks (clearListeners this).
Proof.
  apply modify_shrinks. intros o. split; [by left|]. split; [done|by right].
Qed.

Lemma destroy_shrinks fuel this : always w_shrinks (destroy fuel this).
Proof.
  revert this. induction fuel as [|fuel IH]; intros this;
    [rewrite destroy_0|rewrite destroy_S].
  - apply always_throw, _.
  - walk; first [apply removeChild_shrinks|apply clearListeners_shrinks
                |apply notify_shrinks|apply IH].
Qed.

Lemma shrinks_silent this w w' : w_shrinks w w' → silent this w → silent this w'.
Proof.
  intros Hs (o & E & L).
  destruct (heap_rel_lookup _ _ _ _ _ Hs E) as (o' & E' & (_ & _ & Hl)).
  exists o'. split; [done|]. destruct Hl; congruence.
Qed.

Lemma shrinks_ranked rank w w' : w_shrinks w w' → ranked rank (heap w) → ranked rank (heap w').
Proof.
  intros Hs Hr p op' Ep'.
  destruct (heap_rel_lookup_r _ _ _ _ _ Hs Ep') as (op & Ep & (_ & Hc & _)).
  apply Forall_forall. intros c In.
  pose proof (Hr p op Ep) as Hf. rewrite Forall_forall in Hf. auto.
Qed.

Lemma bind_inv {A B} (m : M A) (k : A → M B) w r w' :
  (m ≫= k) w = (r, w') →
  (∃ e, m w = (Throw e, w') ∧ r = Throw e) ∨
  (∃ a w1, m w = (Ok a, w1) ∧ k a w1 = (r, w')).
Proof.
  rewrite bind_unfold. destruct (m w) as [[a|e] w1].
  - intros E. right. eauto.
  - intros [= <- <-]. left. eauto.
Qed.

Lemma removeChild_dangling w this o child :
  heap w !! this = Some o → child ∈ _children o → heap w !! child = None →
  removeChild this (Some child) w =
  (Throw (Dangling child),
   mkWorld (alter (λ o, with_children (set_delete child (_children o)) o) this (heap w))
     (trace w) (warnings w)).
Proof.
  intros E In Ec. unfold removeChild.
  rewrite (bind_ok _ _ _ _ _ (hasChild_some _ _ _ _ E)).
  unfold set_has. rewrite bool_decide_eq_true_2 by done. simpl.
  rewrite (bind_ok _ _ _ _ _ (modify_alter _ _ _ _ E)).
  unfold set_parent. erewrite bind_throw; [done|].
  erewrite bind_throw; [done|].
  apply modify_none. simpl. rewrite lookup_alter_ne; [done|]. intros <-. congruence.
Qed.

(** The listener calls one [removeChild] makes: the ['remove'] listeners of
    [this], if the child was there. *)
Lemma removeChild_trace this (target : option ref) w r w' :
  removeChild this target w = (r, w') →
  ∃ extra, trace w' = trace w ++ extra ∧
    ∀ i, i ∈ extra →
      inv_event i = "remove" ∧ inv_target i = this ∧
      ∃ o, heap w !! this = Some o ∧ inv_callback i ∈ default [] (_listeners o !! "remove").
Proof.
  intros R.
  assert (trace w' = trace w → ∃ extra, trace w' = trace w ++ extra ∧
    ∀ i, i ∈ extra →
      inv_event i = "remove" ∧ inv_target i = this ∧
      ∃ o, heap w !! this = Some o ∧ inv_callback i ∈ default [] (_listeners o !! "remove"))
    as Hsame.
  { intros ->. exists []. split; [by rewrite app_nil_r|]. by intros i ?%not_elem_of_nil. }
  destruct target as [child|]; [|injection R as <- <-; by apply Hsame].
  destruct (heap w !! this) as [o|] eqn:E.
  2:{ unfold removeChild, hasChild in R.
      rewrite (bind_throw _ _ _ _ _ (bind_throw _ _ _ _ _ (get_obj_none _ _ E))) in R.
      injection R as <- <-. by apply Hsame. }
  destruct (decide (child ∈ _children o)) as [In|Nin].
  2:{ rewrite (removeChild_absent _ _ _ _ E Nin) in R. injection R as <- <-. by apply Hsame. }
  destruct (heap w !! child) as [oc|] eqn:Ec.
  2:{ rewrite (removeChild_dangling _ _ _ _ E In Ec) in R. injection R as <- <-.
      by apply Hsame. }
  rewrite (removeChild_present _ _ _ _ E In) in R by eauto. injection R as <- <-.
  eexists. split; [done|]. intros i (cb & -> & Hcb)%list_elem_of_fmap. simpl. eauto.
Qed.

Lemma removeChild_silent this (target : option ref) w r w' :
  silent this w → removeChild this target w = (r, w') → trace w' = trace w.
Proof.
  intros (o & E & L) R.
  destruct (removeChild_trace _ _ _ _ _ R) as (extra & -> & Hex).
  destruct extra as [|i extra]; [by rewrite app_nil_r|].
  destruct (Hex i) as (_ & _ & o' & E' & In); [by left|].
  assert (o' = o) as -> by congruence. rewrite L, lookup_empty in In.
  by apply not_elem_of_nil in In.
Qed.

Lemma for_children_cons this c cs body :
  for_children this (c :: cs) body =
  (o ← get_obj this;
   if set_has c (_children o)
   then body c;; for_children this cs body
   else for_children this cs body).
Proof. reflexivity. Qed.

(** The listener calls one [destroy] makes are those of detaching the node
    from its parent. *)
Lemma destroy_trace fuel this w r w' :
  destroy fuel this w = (r, w') →
  ∃ extra, trace w' = trace w ++ extra ∧
    ∀ i, i ∈ extra →
      inv_event i = "remove" ∧
      ∃ o, heap w !! this = Some o ∧ _parent o = Some (inv_target i).
Proof.
  revert this w r w'. induction fuel as [|fuel IH]; intros this w r w' R.
  { injection R as <- <-. exists []. split; [by rewrite app_nil_r|].
    by intros i ?%not_elem_of_nil. }
  (* what the loop over the children adds to the trace: nothing *)
  assert (∀ cs w r w', silent this w →
            for_children this cs
              (λ child, removeChild this (Some child);; destroy fuel child) w = (r, w') →
            trace w' = trace w ∧ (r = Ok tt → silent this w')) as Hloop.
  { clear w r w' R. induction cs as [|c cs IHcs]; intros w r w' Hs R.
    { injection R as <- <-. done. }
    rewrite for_children_cons in R. destruct Hs as (o & E & L).
    rewrite (bind_ok _ _ _ _ _ (get_obj_some _ _ _ E)) in R.
    destruct (set_has c (_children o)) eqn:Hc; [|apply IHcs; [by exists o|done]].
    apply bool_decide_eq_true_1 in Hc.
    apply bind_inv in R as [(e & R1 & ->)|([] & w2 & R1 & R2)].
    - (* the body threw *)
      split; [|done].
      apply bind_inv in R1 as [(e' & R1 & _)|(b & w1 & R1 & R1')].
      + eapply removeChild_silent; [by exists o|exact R1].
      + assert (trace w1 = trace w) as <-
          by (eapply removeChild_silent; [by exists o|exact R1]).
        destruct (IH _ _ _ _ R1') as (extra & -> & Hex).
        destruct extra as [|i extra]; [by rewrite app_nil_r|].
        destruct (Hex i) as (_ & oc & Ec & P); [by left|]. exfalso.
        destruct (heap w !! c) as [oc0|] eqn:Ec0.
        * rewrite (removeChild_present _ _ _ _ E Hc) in R1 by eauto.
          injection R1 as <- <-. simpl in Ec. rewrite lookup_alter_eq in Ec.
          destruct (alter _ this (heap w) !! c); simplify_eq/=.
        * rewrite (removeChild_dangling _ _ _ _ E Hc Ec0) in R1. done.
    - apply bind_inv in R1 as [(e' & R1 & ?)|(b & w1 & R1 & R1')]; [done|].
      assert (trace w1 = trace w) as Ht1
          by (eapply removeChild_silent; [by exists o|exact R1]).
      assert (trace w2 = trace w1) as Ht2.
      { destruct (IH _ _ _ _ R1') as (extra & -> & Hex).
        destruct extra as [|i extra]; [by rewrite app_nil_r|].
        destruct (Hex i) as (_ & oc & Ec & P); [by left|]. exfalso.
        destruct (heap w !! c) as [oc0|] eqn:Ec0.
        * rewrite (removeChild_present _ _ _ _ E Hc) in R1 by eauto.
          injection R1 as <- <-. simpl in Ec. rewrite lookup_alter_eq in Ec.
          destruct (alter _ this (heap w) !! c); simplify_eq/=.
        * rewrite (removeChild_dangling _ _ _ _ E Hc Ec0) in R1. done. }
      assert (silent this w2) as Hs2.
      { eapply shrinks_silent; [eapply destroy_shrinks, R1'|].
        eapply shrinks_silent; [eapply removeChild_shrinks, R1|]. by exists o. }
      destruct (IHcs _ _ _ Hs2 R2) as [Ht Hs']. split; [congruence|done]. }
  rewrite destroy_S in R.
  destruct (heap w !! this) as [o|] eqn:E.
  2:{ rewrite (bind_throw _ _ _ _ _ (get_obj_none _ _ E)) in R. injection R as <- <-.
      exists []. split; [by rewrite app_nil_r|]. by intros i ?%not_elem_of_nil. }
  rewrite (bind_ok _ _ _ _ _ (get_obj_some _ _ _ E)) in R.
  (* detaching from the parent *)
  assert (∃ r1 w1 extra,
            match _parent o with
            | Some parent => removeChild parent (Some this);; mret tt
            | None => mret tt
            end w = (r1, w1) ∧ w_shrinks w w1 ∧ trace w1 = trace w ++ extra ∧
            ∀ i, i ∈ extra → inv_event i = "remove" ∧ _parent o = Some (inv_target i))
    as (r1 & w1 & extra & R1 & Hs1 & Ht1 & Hex).
  { destruct (_parent o) as [p|].
    - destruct ((removeChild p (Some this);; mret tt) w) as [r1 w1] eqn:R1.
      exists r1, w1.
      assert (∃ r0, removeChild p (Some this) w = (r0, w1)) as [r0 R0].
      { apply bind_inv in R1 as [(e & R1 & _)|(b & w0 & R1 & [= _ <-])]; eauto. }
      destruct (removeChild_trace _ _ _ _ _ R0) as (extra & Ht & Hex).
      exists extra. split; [done|]. split; [eapply removeChild_shrinks, R0|].
      split; [done|]. intros i In. destruct (Hex i In) as (? & -> & _). done.
    - exists (Ok tt), w, []. split; [done|]. split; [reflexivity|].
      split; [by rewrite app_nil_r|]. by intros i ?%not_elem_of_nil. }
  assert (trace w' = trace w1) as Ht.
  { apply bind_inv in R as [(e & R & _)|([] & w1' & R & R')].
    { rewrite R1 in R. by injection R as _ <-. }
    rewrite R1 in R. injection R as _ <-.
    destruct (heap_rel_lookup _ _ _ _ _ Hs1 E) as (o1 & E1 & _).
    unfold clearListeners in R'.
    rewrite (bind_ok _ _ _ _ _ (modify_alter _ _ _ _ E1)) in R'.
    set (w2 := mkWorld (alter (with_listeners ∅) this (heap w1)) (trace w1) (warnings w1)) in *.
    assert (heap w2 !! this = Some (with_listeners ∅ o1)) as E2.
    { simpl. by rewrite lookup_alter_eq, E1. }
    rewrite (bind_ok _ _ _ _ _ (get_obj_some _ _ _ E2)) in R'.
    apply bind_inv in R' as [(e & R' & _)|([] & w3 & R' & R'')].
    - by destruct (Hloop _ _ _ _ (ex_intro _ _ (conj E2 eq_refl)) R') as [-> _].
    - destruct (Hloop _ _ _ _ (ex_intro _ _ (conj E2 eq_refl)) R') as [Ht3 Hs3].
      destruct (Hs3 eq_refl) as (o3 & E3 & L3).
      rewrite (notify_silent _ _ _ _ _ E3) in R'' by (by rewrite L3).
      injection R'' as _ <-. done. }
  exists extra. split; [congruence|]. intros i In. destruct (Hex i In). eauto.
Qed.

(** C10.  Whatever the state and however [destroy] ends, the listener calls
    it makes are ['remove'] calls on listeners of the node's parent, made
    while the node is detached from it.  So no ['destroy'] listener is ever
    called, and unless the node is its own parent no listener of the node
    itself is called. *)
Theorem destroy_never_calls_own_listeners fuel this w :
  ∃ extra, trace (destroy fuel this w).2 = trace w ++ extra ∧
    (∀ i, i ∈ extra →
       inv_event i = "remove" ∧
       ∃ o, heap w !! this = Some o ∧ _parent o = Some (inv_target i)) ∧
    (∀ i, i ∈ extra → inv_event i ≠ "destroy") ∧
    ((∀ o, heap w !! this = Some o → _parent o ≠ Some this) →
     ∀ i, i ∈ extra → inv_target i ≠ this).
Proof.
  destruct (destroy fuel this w) as [r w'] eqn:R.
  destruct (destroy_trace _ _ _ _ _ R) as (extra & Ht & Hex).
  exists extra. split; [done|]. split; [done|]. split.
  - intros i In. destruct (Hex i In) as [-> _]. done.
  - intros Hp i In <-. destruct (Hex i In) as (_ & o & E & P). by apply (Hp o).
Qed.

Lemma removeChild_ok this (target : option ref) w :
  closed (heap w) → is_Some (heap w !! this) →
  ∃ b w', removeChild this target w = (Ok b, w').
Proof.
  intros Hc [o E]. destruct target as [child|]; [|by eexists _, _].
  destruct (decide (child ∈ _children o)) as [In|Nin].
  - eexists _, _. apply (removeChild_present _ _ _ _ E In).
    by apply (proj2 (Hc _ _ E) child).
  - eexists _, _. by eapply removeChild_absent.
Qed.

(** With enough stack for the depth of the subtree, [destroy] returns. *)
Lemma destroy_returns rank fuel this w :
  links_ok (heap w) → ranked rank (heap w) → is_Some (heap w !! this) →
  rank this < fuel →
  ∃ w', destroy fuel this w = (Ok tt, w').
Proof.
  revert this w. induction fuel as [|fuel IH]; intros this w Hok Hr [o E] Hf; [lia|].
  assert (∀ cs w, links_ok (heap w) → ranked rank (heap w) → is_Some (heap w !! this) →
            ∃ w', for_children this cs
                    (λ child, removeChild this (Some child);; destroy fuel child) w
                  = (Ok tt, w')) as Hloop.
  { clear w Hok Hr o E. induction cs as [|c cs IHcs]; intros w Hok Hr [o E].
    { by eexists. }
    rewrite for_children_cons. rewrite (bind_ok _ _ _ _ _ (get_obj_some _ _ _ E)).
    destruct (set_has c (_children o)) eqn:Hc; [|apply IHcs; eauto].
    apply bool_decide_eq_true_1 in Hc.
    destruct (removeChild_ok this (Some c) w (proj1 Hok)) as (b & w1 & R1); [eauto|].
    assert (is_Some (heap w !! c)) as Ec by (by apply (proj2 (proj1 Hok _ _ E) c)).
    pose proof (removeChild_shrinks _ _ _ _ _ R1) as Hs1.
    destruct (IH c w1) as (w2 & R2).
    - eapply removeChild_links_ok; eauto.
    - by eapply shrinks_ranked.
    - by apply (heap_rel_is_Some _ _ _ c Hs1).
    - pose proof (Hr this o E) as Hf'. rewrite Forall_forall in Hf'.
      specialize (Hf' c Hc). lia.
    - pose proof (destroy_shrinks _ _ _ _ _ R2) as Hs2.
      destruct (IHcs w2) as (w3 & R3).
      + eapply destroy_links_ok; [exact R2|]. eapply removeChild_links_ok; eauto.
      + eapply shrinks_ranked; [exact Hs2|]. by eapply shrinks_ranked.
      + apply (heap_rel_is_Some _ _ _ this Hs2).
        apply (heap_rel_is_Some _ _ _ this Hs1). eauto.
      + exists w3. erewrite bind_ok; [exact R3|]. cbv beta.
        by rewrite (bind_ok _ _ _ _ _ R1). }
  rewrite destroy_S. rewrite (bind_ok _ _ _ _ _ (get_obj_some _ _ _ E)).
  assert (∃ w1, match _parent o with
                | Some parent => removeChild parent (Some this);; mret tt
                | None => mret tt
                end w = (Ok tt, w1) ∧ w_shrinks w w1 ∧ links_ok (heap w1))
    as (w1 & R1 & Hs1 & Hok1).
  { destruct (_parent o) as [p|] eqn:P.
    - destruct (removeChild_ok p (Some this) w (proj1 Hok)) as (b & w1 & R1).
      { by apply (proj1 (proj1 Hok _ _ E) p). }
      exists w1. rewrite (bind_ok _ _ _ _ _ R1). split; [done|].
      split; [eapply removeChild_shrinks, R1|eapply removeChild_links_ok; eauto].
    - exists w. split; [done|]. split; [reflexivity|done]. }
  rewrite (bind_ok _ _ _ _ _ R1).
  assert (is_Some (heap w1 !! this)) as [o1 E1].
  { apply (heap_rel_is_Some _ _ _ this Hs1). eauto. }
  unfold clearListeners. rewrite (bind_ok _ _ _ _ _ (modify_alter _ _ _ _ E1)).
  set (w2 := mkWorld (alter (with_listeners ∅) this (heap w1)) (trace w1) (warnings w1)).
  assert (w_shrinks w1 w2) as Hs2.
  { eapply clearListeners_shrinks. apply (modify_alter _ _ _ _ E1). }
  assert (heap w2 !! this = Some (with_listeners ∅ o1)) as E2.
  { simpl. by rewrite lookup_alter_eq, E1. }
  rewrite (bind_ok _ _ _ _ _ (get_obj_some _ _ _ E2)).
  destruct (Hloop (_children (with_listeners ∅ o1)) w2) as (w3 & R3).
  - eapply same_links_links_ok; [|exact Hok1].
    eapply clearListeners_same_links. apply (modify_alter _ _ _ _ E1).
  - eapply shrinks_ranked; [exact Hs2|]. by eapply shrinks_ranked.
  - eauto.
  - rewrite (bind_ok _ _ _ _ _ R3).
    assert (is_Some (heap w3 !! this)) as [o3 E3].
    { apply (heap_rel_is_Some _ _ _ this
               (always_for_children w_shrinks _ _ _
                  (λ c, always_bind w_shrinks _ _ (removeChild_shrinks _ _)
                          (λ _, destroy_shrinks _ _)) _ _ _ R3)). eauto. }
    rewrite (notify_some _ _ _ _ _ E3). eauto.
Qed.

Lemma kept_refl o : kept o o.
Proof. by repeat split. Qed.

Lemma gone_kept o o' : gone o → kept o o' → gone o'.
Proof. intros (P & C & L) (P' & C' & L'). repeat split; congruence. Qed.

Lemma kept_trans a b c : kept a b → kept b c → kept a c.
Proof. intros (? & ? & ?) (? & ? & ?). repeat split; congruence. Qed.

(** What a [destroy] that returns leaves behind: the node itself is gone;
    any other node is gone too, or untouched, or is the parent losing this
    child. *)
Lemma destroy_post fuel this w w' :
  links_ok (heap w) → destroy fuel this w = (Ok tt, w') →
  (∃ o', heap w' !! this = Some o' ∧ gone o') ∧
  heap_rel (λ x o o', x ≠ this →
              gone o' ∨ kept o o' ∨
              ((∃ ot, heap w !! this = Some ot ∧ _parent ot = Some x) ∧
               _parent o' = _parent o))
    (heap w) (heap w').
Proof.
  revert this w w'. induction fuel as [|fuel IH]; intros this w w' Hok R; [done|].
  (* the loop over the children *)
  assert (∀ cs h0 w w',
    links_ok (heap w) →
    (∃ o, heap w !! this = Some o ∧ _parent o = None ∧ _listeners o = ∅ ∧
          ∀ c, c ∈ _children o → c ∈ cs) →
    heap_rel (λ x o o', x ≠ this → gone o' ∨ kept o o') h0 (heap w) →
    for_children this cs
      (λ child, removeChild this (Some child);; destroy fuel child) w = (Ok tt, w') →
    (∃ o, heap w' !! this = Some o ∧ gone o) ∧
    heap_rel (λ x o o', x ≠ this → gone o' ∨ kept o o') h0 (heap w')) as Hloop.
  { clear w w' Hok R. intros cs h0. induction cs as [|c cs IHcs];
      intros w w' Hok (o & E & P & L & Hcs) Hrel R.
    { injection R as <-. split; [|done]. exists o. split; [done|].
      split; [done|]. split; [|done].
      destruct (_children o) as [|c ?]; [done|].
      by destruct (not_elem_of_nil c (Hcs c (list_elem_of_here _ _))). }
    rewrite for_children_cons in R.
    rewrite (bind_ok _ _ _ _ _ (get_obj_some _ _ _ E)) in R.
    destruct (set_has c (_children o)) eqn:Hc.
    2:{ apply bool_decide_eq_false_1 in Hc. apply (IHcs w w'); try done.
        exists o. repeat split; try done. intros c' In.
        pose proof (Hcs c' In) as In'. apply elem_of_cons in In' as [->|?]; done. }
    apply bool_decide_eq_true_1 in Hc.
    apply bind_inv in R as [(e & _ & ?)|([] & w2 & R1 & R2)]; [done|].
    apply bind_inv in R1 as [(e & _ & ?)|(b & w1 & R1 & R1')]; [done|].
    destruct Hok as [Hcl Hk].
    assert (is_Some (heap w !! c)) as [oc Ec] by (by apply (proj2 (Hcl _ _ E) c)).
    assert (c ≠ this) as Nc.
    { intros ->. pose proof (proj1 (Hk this this o o E E) Hc). congruence. }
    rewrite (removeChild_present _ _ _ _ E Hc) in R1 by eauto.
    injection R1 as _ <-.
    set (h1 := alter (with_is_model_valid false ∘ with_parent None) c
                 (alter (λ o, with_children (set_delete c (_children o)) o) this (heap w)))
      in *.
    assert (links_ok h1) as Hok1 by (by eapply links_ok_remove).
    assert (h1 !! c = Some (with_is_model_valid false (with_parent None oc))) as Ec1.
    { unfold h1. rewrite lookup_alter_eq, lookup_alter_ne, Ec by done. done. }
    assert (h1 !! this = Some (with_children (set_delete c (_children o)) o)) as Et1.
    { unfold h1. rewrite lookup_alter_ne, lookup_alter_eq, E by done. done. }
    assert (∀ x, x ≠ this → x ≠ c → h1 !! x = heap w !! x) as Hx1.
    { intros x ? ?. unfold h1. by rewrite !lookup_alter_ne. }
    destruct (IH c _ _ (Hok1 : links_ok (heap (mkWorld h1 _ _))) R1')
      as [(oc2 & Ec2 & Gc) Hrel2].
    simpl in Hrel2.
    apply (IHcs w2 w'); [| | |exact R2].
    - eapply destroy_links_ok; [exact R1'|exact Hok1].
    - pose proof (Hrel2 this) as Ht. rewrite Et1 in Ht.
      destruct (heap w2 !! this) as [o2|] eqn:E2; [|done].
      exists o2. split; [done|].
      assert (kept (with_children (set_delete c (_children o)) o) o2 ∨ gone o2) as Hk2.
      { destruct (Ht ltac:(congruence)) as [?|[?|[(ot & ? & ?) _]]]; [by right|by left|].
        simplify_eq/=. }
      destruct Hk2 as [(P2 & C2 & L2)|(P2 & C2 & L2)]; simpl in *.
      + split; [congruence|]. split; [congruence|]. intros c' In. rewrite C2 in In.
        apply elem_of_set_delete in In as [Ne In].
        pose proof (Hcs c' In) as In'. apply elem_of_cons in In' as [->|?]; done.
      + split; [done|]. split; [done|]. rewrite C2. by intros c' ?%not_elem_of_nil.
    - intros x. specialize (Hrel x). specialize (Hrel2 x).
      destruct (decide (x = c)) as [->|Nx].
      + rewrite Ec in Hrel. rewrite Ec2. destruct (h0 !! c); [|done].
        intros _. by left.
      + destruct (decide (x = this)) as [->|Nt].
        * rewrite E in Hrel. rewrite Et1 in Hrel2.
          destruct (h0 !! this), (heap w2 !! this); done.
        * rewrite (Hx1 x Nt Nx) in Hrel2.
          destruct (h0 !! x) as [o0|], (heap w !! x) as [ox|], (heap w2 !! x) as [ox2|];
            try done.
          intros _. destruct (Hrel Nt) as [G|K].
          -- destruct (Hrel2 Nx) as [?|[?|[(ot & ? & ?) _]]];
               [by left|left; by eapply gone_kept|simplify_eq/=].
          -- destruct (Hrel2 Nx) as [?|[?|[(ot & ? & ?) _]]];
               [by left|right; by eapply kept_trans|simplify_eq/=]. }
  rewrite destroy_S in R.
  destruct (heap w !! this) as [o|] eqn:E.
  2:{ by rewrite (bind_throw _ _ _ _ _ (get_obj_none _ _ E)) in R. }
  rewrite (bind_ok _ _ _ _ _ (get_obj_some _ _ _ E)) in R.
  apply bind_inv in R as [(e & _ & ?)|([] & w1 & R1 & R)]; [done|].
  (* detached from the parent *)
  assert (links_ok (heap w1) ∧
          (∃ o1, heap w1 !! this = Some o1 ∧ _parent o1 = None) ∧
          heap_rel (λ x ox ox', x ≠ this →
                      kept ox ox' ∨ (_parent o = Some x ∧ _parent ox' = _parent ox))
            (heap w) (heap w1)) as (Hok1 & (o1 & E1 & P1) & Hrel1).
  { destruct (_parent o) as [p|] eqn:P.
    - apply bind_inv in R1 as [(e & _ & ?)|(b & w1' & R1 & [= <-])]; [done|].
      destruct Hok as [Hcl Hk].
      assert (is_Some (heap w !! p)) as [op Ep] by (by apply (proj1 (Hcl _ _ E) p)).
      assert (this ∈ _children op) as In by (by apply (Hk p this op o Ep E)).
      rewrite (removeChild_present _ _ _ _ Ep In) in R1 by eauto.
      injection R1 as _ <-. simpl. split; [by eapply links_ok_remove|]. split.
      + rewrite lookup_alter_eq.
        destruct (alter _ p (heap w) !! this) eqn:E'; simpl; [eauto|].
        apply lookup_alter_None in E'. congruence.
      + intros x. destruct (decide (x = this)) as [->|Nx].
        * rewrite E, lookup_alter_eq.
          destruct (alter _ p (heap w) !! this) eqn:E'; simpl; [done|].
          apply lookup_alter_None in E'. congruence.
        * rewrite lookup_alter_ne by done. rewrite lookup_alter.
          destruct (decide (p = x)) as [->|Np].
          -- rewrite Ep. simpl. intros _. right. done.
          -- destruct (heap w !! x); [|done]. intros _. left. apply kept_refl.
    - injection R1 as <-. split; [done|]. split; [eauto|].
      apply heap_rel_refl. intros x ox _. left. apply kept_refl. }
  unfold clearListeners in R.
  rewrite (bind_ok _ _ _ _ _ (modify_alter _ _ _ _ E1)) in R.
  set (w2 := mkWorld (alter (with_listeners ∅) this (heap w1)) (trace w1) (warnings w1)) in *.
  assert (heap w2 !! this = Some (with_listeners ∅ o1)) as E2.
  { simpl. by rewrite lookup_alter_eq, E1. }
  rewrite (bind_ok _ _ _ _ _ (get_obj_some _ _ _ E2)) in R.
  apply bind_inv in R as [(e & _ & ?)|([] & w3 & R3 & R)]; [done|].
  destruct (Hloop (_children (with_listeners ∅ o1)) (heap w2) w2 w3)
    as [(o3 & E3 & G3) Hrel3]; [| | |exact R3|].
  { eapply same_links_links_ok; [|exact Hok1].
    eapply clearListeners_same_links. apply (modify_alter _ _ _ _ E1). }
  { exists (with_listeners ∅ o1). by repeat split. }
  { apply heap_rel_refl. intros x ox _. right. apply kept_refl. }
  rewrite (notify_some _ _ _ _ _ E3) in R. injection R as <-. simpl.
  split; [eauto|].
  intros x. specialize (Hrel1 x). specialize (Hrel3 x).
  destruct (decide (x = this)) as [->|Nx].
  { rewrite E. by rewrite E3. }
  simpl in Hrel3. rewrite lookup_alter_ne in Hrel3 by done.
  destruct (heap w !! x) as [ox|], (heap w1 !! x) as [ox1|], (heap w3 !! x) as [ox3|];
    try done.
  intros _. destruct (Hrel3 Nx) as [G|K]; [by left|]. right.
  destruct (Hrel1 Nx) as [K1|[Px P']].
  - left. by eapply kept_trans.
  - right. split; [eauto|]. destruct K as (-> & _). done.
Qed.

(** C8.  In a well-linked heap without cycles, [destroy] on a node returns
    (given stack for the depth of its subtree: depth 2 needs 3 frames), and
    afterwards the node and every descendant it had has no parent and no
    listener, and is in the child set of no node at all. *)
Theorem destroy_detaches_subtree rank fuel this w :
  links_ok (heap w) → ranked rank (heap w) → is_Some (heap w !! this) →
  rank this < fuel →
  ∃ w', destroy fuel this w = (Ok tt, w') ∧
    ∀ d, reach (heap w) this d →
      (∃ od, heap w' !! d = Some od ∧ _parent od = None ∧ _listeners od = ∅) ∧
      (∀ x ox, heap w' !! x = Some ox → d ∉ _children ox).
Proof.
  intros Hok Hr Ht Hf.
  destruct (destroy_returns rank fuel this w Hok Hr Ht Hf) as (w' & R).
  exists w'. split; [done|].
  destruct (destroy_post _ _ _ _ Hok R) as [(o' & E' & G') Hrel].
  pose proof (destroy_links_ok _ _ _ _ _ R Hok) as [Hcl' Hk'].
  destruct Hok as [Hcl Hk].
  assert (∀ d, reach (heap w) this d → ∃ od, heap w' !! d = Some od ∧ gone od) as Hgone.
  { unfold reach. apply rtc_ind_r; [eauto|]. intros x d _ Hxd IHd.
    destruct Hxd as (ox & Ex & In). destruct IHd as (ox' & Ex' & Gx).
    destruct (decide (d = this)) as [->|Nd]; [eauto|].
    assert (is_Some (heap w !! d)) as [od Ed] by (by apply (proj2 (Hcl _ _ Ex) d)).
    pose proof (proj1 (Hk x d ox od Ex Ed) In) as Pd.
    specialize (Hrel d). rewrite Ed in Hrel.
    destruct (heap w' !! d) as [od'|] eqn:Ed'; [|done].
    exists od'. split; [done|].
    destruct (Hrel Nd) as [G|Hp]; [done|]. exfalso.
    assert (_parent od' = Some x) as Pd'.
    { destruct Hp as [(-> & _)|[_ ->]]; done. }
    apply (Hk' x d ox' od' Ex' Ed') in Pd'.
    destruct Gx as (_ & C & _). rewrite C in Pd'. by apply not_elem_of_nil in Pd'. }
  intros d Hd. destruct (Hgone d Hd) as (od & Ed & P & C & L). split; [eauto|].
  intros x ox Ex In. apply (Hk' x d ox od Ex Ed) in In. congruence.
Qed.

(** ** Updating *)

Lemma reach_is_Some h x y : closed h → is_Some (h !! x) → reach h x y → is_Some (h !! y).
Proof.
  intros Hc Hx. unfold reach. revert y. apply rtc_ind_r; [done|].
  intros y z _ (oy & Ey & In) _. by apply (proj2 (Hc _ _ Ey) z).
Qed.

Lemma ranked_child rank h p op c :
  ranked rank h → h !! p = Some op → c ∈ _children op → rank c < rank p.
Proof.
  intros Hr Ep In. pose proof (Hr p op Ep) as Hf. rewrite Forall_forall in Hf. auto.
Qed.

(** With enough stack for the depth of the tree below [this], [update]
    returns, and then every node below [this] has a valid world model, as
    has every node that had one before. *)
Lemma update_post rank fuel this delta_t w :
  scene_ok (heap w) → ranked rank (heap w) → is_Some (heap w !! this) →
  rank this < fuel →
  ∃ w', update fuel this delta_t w = (Ok tt, w') ∧
    ∀ y, valid_in w y ∨ reach (heap w) this y → valid_in w' y.
Proof.
  revert this w. induction fuel as [|fuel IH]; intros this w Hok Hr [o E] Hf; [lia|].
  (* the loop over the children *)
  assert (∀ K cs w,
    scene_ok (heap w) → ranked rank (heap w) →
    (∃ o, heap w !! this = Some o ∧ _children o = K) →
    ∃ w', for_children this cs (λ child, update fuel child delta_t) w = (Ok tt, w') ∧
      ∀ y, valid_in w y ∨ (∃ c, c ∈ cs ∧ c ∈ K ∧ reach (heap w) c y) → valid_in w' y)
    as Hloop.
  { clear w Hok Hr o E. intros K. induction cs as [|c cs IHcs];
      intros w Hok Hr (o & E & HK).
    { exists w. split; [done|]. intros y [?|(c & ?%not_elem_of_nil & _)]; done. }
    rewrite for_children_cons. rewrite (bind_ok _ _ _ _ _ (get_obj_some _ _ _ E)).
    destruct (set_has c (_children o)) eqn:Hc.
    - apply bool_decide_eq_true_1 in Hc.
      destruct (IH c w Hok Hr) as (w1 & R1 & V1).
      { by apply (proj2 (ok_closed _ Hok _ _ E) c). }
      { pose proof (ranked_child _ _ _ _ _ Hr E Hc). lia. }
      pose proof (update_same_links _ _ _ _ _ _ R1) as Hs1.
      destruct (IHcs w1) as (w2 & R2 & V2).
      + eapply update_scene_ok; eauto.
      + by eapply same_links_ranked.
      + destruct (heap_rel_lookup _ _ _ _ _ Hs1 E) as (o1 & E1 & [_ C1]).
        exists o1. split; [done|]. congruence.
      + exists w2. rewrite (bind_ok _ _ _ _ _ R1). split; [done|].
        intros y [V|(c' & [->|In]%elem_of_cons & InK & Hreach)].
        * apply V2. left. apply V1. by left.
        * apply V2. left. apply V1. by right.
        * apply V2. right. exists c'. split; [done|]. split; [done|].
          by eapply same_links_reach.
    - apply bool_decide_eq_false_1 in Hc.
      destruct (IHcs w Hok Hr) as (w2 & R2 & V2); [eauto|].
      exists w2. split; [done|].
      intros y [V|(c' & [->|In]%elem_of_cons & InK & Hreach)].
      + apply V2. by left.
      + rewrite HK in Hc. done.
      + apply V2. right. eauto. }
  rewrite update_S. rewrite (bind_ok _ _ _ _ _ (get_obj_some _ _ _ E)).
  (* the node itself *)
  assert (this ∉ _children o) as Nself.
  { intros In. pose proof (ranked_child _ _ _ _ _ Hr E In). lia. }
  assert (∃ w1, (if negb (_is_model_valid o) then _revalidateModel this else mret tt) w
                = (Ok tt, w1) ∧
                valid_in w1 this ∧
                ∀ y, valid_in w y → y ∉ _children o → valid_in w1 y)
    as (w1 & R1 & Vt & V1).
  { destruct (_is_model_valid o) eqn:V; simpl.
    - exists w. split; [done|]. split; [by exists o|done].
    - destruct (_revalidateModel_run w this o (ok_closed _ Hok) E) as (w1 & W & R1 & _ & Hh).
      exists w1. split; [done|]. split.
      + exists (revalidated W o). rewrite Hh, decide_False by done.
        by rewrite lookup_insert_eq.
      + intros y (oy & Ey & Vy) Ny. exists oy. rewrite Hh, decide_False by done.
        rewrite lookup_insert_ne; [done|]. intros <-. congruence. }
  rewrite (bind_ok _ _ _ _ _ R1).
  assert (w_same_links w w1 ∧ scene_ok (heap w1)) as [Hs1 Hok1].
  { destruct (negb (_is_model_valid o)).
    - split; [eapply _revalidateModel_same_links, R1
             |eapply _revalidateModel_scene_ok; eauto].
    - injection R1 as <-. split; [reflexivity|done]. }
  destruct (heap_rel_lookup _ _ _ _ _ Hs1 E) as (o1 & E1 & [_ C1]).
  rewrite (bind_ok _ _ _ _ _ (get_obj_some _ _ _ E1)).
  destruct (Hloop (_children o) (_children o1) w1) as (w2 & R2 & V2).
  - done.
  - by eapply same_links_ranked.
  - eauto.
  - exists w2. split; [done|]. intros y [V|Hreach].
    + destruct (decide (y ∈ _children o)) as [In|Nin].
      * apply V2. right. exists y. rewrite C1. split; [done|]. split; [done|].
        apply rtc_refl.
      * apply V2. left. by apply V1.
    + apply rtc_inv in Hreach as [->|(c & (o' & E' & In) & Hreach)].
      * apply V2. by left.
      * assert (o' = o) as -> by congruence.
        apply V2. right. exists c. rewrite C1. split; [done|]. split; [done|].
        by eapply same_links_reach.
Qed.

Global Instance w_same_props_preorder : PreOrder w_same_props.
Proof.
  split.
  - intros w. by apply heap_rel_refl.
  - intros w1 w2 w3. apply heap_rel_trans.
    intros _ a b c (? & ? & ?) (? & ? & ?). repeat split; congruence.
Qed.

Lemma modify_same_props x f :
  (∀ o, node_same_props o (f o)) → always w_same_props (modify x f).
Proof.
  intros Hf. apply always_modify; [apply _|]. intros w o E.
  apply heap_rel_alter; [done|auto].
Qed.

Lemma notify_same_props this ev args : always w_same_props (notify this ev args).
Proof. apply always_notify; [apply _|]. intros. by apply heap_rel_refl. Qed.

Lemma _revalidateModel_same_props this : always w_same_props (_revalidateModel this).
Proof.
  unfold _revalidateModel, _computeWorldModel, _invalidateModel. walk;
    first [apply notify_same_props|by apply modify_same_props].
Qed.

Lemma update_same_props fuel this delta_t : always w_same_props (update fuel this delta_t).
Proof.
  revert this. induction fuel as [|fuel IH]; intros this;
    [rewrite update_0|rewrite update_S].
  - apply always_throw, _.
  - walk; first [apply _revalidateModel_same_props|apply IH].
Qed.

Lemma rotation_same_links (q : Quat) this :
  always w_same_links
    (modify this (with_tmp_quaternion q);;
     modify this (λ o, with_orientation (Quat_multiply (_orientation o) (_tmp_quaternion o)) o);;
     _invalidateLocalModel this;;
     o ← get_obj this;
     notify this "orientation" [VQuat (_orientation o)]).
Proof.
  walk; first [by apply modify_same_links|apply _invalidateLocalModel_same_links].
Qed.

Lemma mutation_same_links op :
  property_mutation op = true → always w_same_links (run op).
Proof.
  destruct op; try done; intros _; simpl;
    first [apply rotation_same_links
          |eapply always_ext; [apply rotation_returning_this|apply rotation_same_links]
          |unfold set_origin, set_orientation, set_size, scale, translate,
             translateX, translateY, translateZ;
           walk; first [by apply modify_same_links
                       |apply _invalidateLocalModel_same_links]].
Qed.

Lemma mutations_keep ops w :
  forallb property_mutation ops = true → scene_ok (heap w) →
  scene_ok (heap (exec_all ops w)) ∧ w_same_links w (exec_all ops w).
Proof.
  revert w. induction ops as [|op ops IH]; intros w Hm Hok; simpl.
  { split; [done|reflexivity]. }
  simpl in Hm. apply andb_prop in Hm as [Hop Hm].
  assert (scene_ok (heap (exec op w)) ∧ w_same_links w (exec op w)) as [Hok1 Hs1].
  { unfold exec. destruct (run op w) as [r w1] eqn:R. simpl. split.
    - eapply run_scene_ok; eauto.
    - eapply mutation_same_links; eauto. }
  destruct (IH (exec op w) Hm Hok1) as [Hok' Hs'].
  split; [done|]. etrans; [exact Hs1|exact Hs'].
Qed.

Lemma compose_local_TRS origin orientation scl :
  post_multiplying → compose_local origin orientation scl = TRS origin orientation scl.
Proof.
  intros [Ht Hr Hs]. unfold compose_local, TRS.
  rewrite Hs, Hr. done.
Qed.

(** A node with a valid world model has the local model of its current
    properties. *)
Lemma valid_local_model h y oy :
  scene_ok h → h !! y = Some oy → _is_model_valid oy = true →
  _local_model oy = compose_local (_origin oy) (_orientation oy) (_scale oy).
Proof.
  intros Hok E V. apply (ok_local _ Hok y oy E). by apply (ok_flags _ Hok y).
Qed.

(** C1.  In a scene that satisfies the invariant and has no cycle, a full
    [update] from [root] returns (given stack for the depth of the tree),
    and then every node of the tree has a world model marked valid that is
    its parent's world model times its own local model, or its own local
    model if it has no parent. *)
Theorem update_composes_world_models rank fuel root delta_t w :
  scene_ok (heap w) → ranked rank (heap w) → is_Some (heap w !! root) →
  rank root < fuel →
  ∃ w', update fuel root delta_t w = (Ok tt, w') ∧
    ∀ y, reach (heap w) root y →
      ∃ oy, heap w' !! y = Some oy ∧ _is_model_valid oy = true ∧
        match _parent oy with
        | Some p => ∃ po, heap w' !! p = Some po ∧
            _world_model oy = Mat4_multiply (_world_model po) (_local_model oy)
        | None => _world_model oy = _local_model oy
        end.
Proof.
  intros Hok Hr Ht Hf.
  destruct (update_post rank fuel root delta_t w Hok Hr Ht Hf) as (w' & R & V).
  exists w'. split; [done|]. intros y Hy.
  destruct (V y (or_intror Hy)) as (oy & Ey & Vy).
  exists oy. split; [done|]. split; [done|].
  apply (ok_world _ (update_scene_ok _ _ _ _ _ _ R Hok) y oy Ey Vy).
Qed.

(** C3.  Whatever property mutations are made on whatever nodes before an
    [update], after it the local model of every node of the updated tree
    is [Translate(origin) · Rotate(orientation) · Scale(scale)] of the values
    the node had when the [update] started, the latest ones. *)
Theorem local_model_from_latest_values rank fuel root delta_t ops w x :
  post_multiplying →
  scene_ok (heap w) → ranked rank (heap w) → is_Some (heap w !! root) →
  rank root < fuel → reach (heap w) root x →
  forallb property_mutation ops = true →
  ∃ w' o1 o',
    update fuel root delta_t (exec_all ops w) = (Ok tt, w') ∧
    heap (exec_all ops w) !! x = Some o1 ∧ heap w' !! x = Some o' ∧
    _local_model o' = TRS (_origin o1) (_orientation o1) (_scale o1) ∧
    _origin o' = _origin o1 ∧ _orientation o' = _orientation o1 ∧ _scale o' = _scale o1.
Proof.
  intros Hpm Hok Hr Ht Hf Hx Hm.
  destruct (mutations_keep ops w Hm Hok) as [Hok1 Hs1].
  set (w1 := exec_all ops w) in *.
  destruct (update_post rank fuel root delta_t w1) as (w' & R & V); try done.
  { by eapply same_links_ranked. }
  { by apply (heap_rel_is_Some _ _ _ root Hs1). }
  destruct (V x) as (o' & E' & V').
  { right. by eapply same_links_reach. }
  destruct (heap_rel_lookup_r _ _ _ _ _ (update_same_props _ _ _ _ _ _ R) E')
    as (o1 & E1 & (Po & Pq & Ps)).
  exists w', o1, o'. repeat split; try done.
  rewrite <- Po, <- Pq, <- Ps, <- compose_local_TRS by done.
  apply (valid_local_model (heap w') x); [|done|done].
  eapply update_scene_ok; eauto.
Qed.


Lemma same_links_sym h h' : same_links h h' → same_links h' h.
Proof.
  intros Hs y. specialize (Hs y). destruct (h !! y), (h' !! y); try done.
  destruct Hs. by split.
Qed.






(** ** Linking and unlinking, seen from the caller *)

(** X1.  [removeChild] of [undefined] or of a node that is not in the child
    set returns [false], logs one warning and changes nothing else: no
    link, no flag, and no listener is called. *)
Theorem removeChild_of_a_stranger w this o (target : option ref) :
  heap w !! this = Some o →
  (∀ child, target = Some child → child ∉ _children o) →
  removeChild this target w =
  (Ok false, mkWorld (heap w) (trace w) (warnings w ++ [NotAChild target])).
Proof.
  intros E Hn. destruct target as [child|]; [|done].
  apply removeChild_absent with o; [done|]. by apply Hn.
Qed.

(** X2.  In a well-linked heap the "already a child" branch of [addChild]
    is never taken: however the call ends it logs no warning, and adding a
    node that is already a child of [this] throws the error of the
    structural constraint and changes nothing. *)
Theorem addChild_never_warns w this object r w' :
  links_ok (heap w) → addChild this object w = (r, w') →
  warnings w' = warnings w ∧
  (child_of (heap w) this object →
   r = Throw (JsError "Unable to add the specified object to this node as it already has a parent.") ∧
   w' = w).
Proof.
  intros [Hc Hk] R.
  destruct (heap w !! object) as [obj|] eqn:Eo.
  2:{ unfold addChild in R. rewrite (bind_throw _ _ _ _ _ (get_obj_none _ _ Eo)) in R.
      injection R as <- <-. split; [done|]. intros (o & E & In).
      destruct (proj2 (Hc _ _ E) object In). congruence. }
  destruct (_parent obj) as [p|] eqn:P.
  { rewrite (addChild_parented _ _ _ _ _ Eo P) in R. by injection R as <- <-. }
  destruct (heap w !! this) as [o|] eqn:E.
  2:{ unfold addChild in R. rewrite (bind_ok _ _ _ _ _ (get_obj_some _ _ _ Eo)) in R.
      rewrite P, bool_decide_eq_false_2 in R by (by intros [? ?]).
      unfold hasChild in R.
      rewrite (bind_throw _ _ _ _ _ (bind_throw _ _ _ _ _ (get_obj_none _ _ E))) in R.
      injection R as <- <-. split; [done|]. intros (o & E' & _). congruence. }
  assert (object ∉ _children o) as Nin.
  { intros In. apply (Hk this object o obj E Eo) in In. congruence. }
  rewrite (addChild_fresh _ _ _ _ _ E Eo P Nin) in R. injection R as <- <-.
  split; [done|]. intros (o' & E' & In). congruence.
Qed.

Lemma addChild_post w this object o obj :
  links_ok (heap w) →
  heap w !! this = Some o → heap w !! object = Some obj → _parent obj = None →
  ∃ w' o' obj',
    addChild this object w = (Ok tt, w') ∧
    heap w' !! this = Some o' ∧ _children o' = _children o ++ [object] ∧
    heap w' !! object = Some obj' ∧ _parent obj' = Some this ∧
    _is_model_valid obj' = false ∧
    (∀ y, y ≠ this → y ≠ object → heap w' !! y = heap w !! y) ∧
    links_ok (heap w') ∧
    trace w' = trace w ++ ((λ cb, mkInvocation cb this "add" [VObject this; VObject object])
                             <$> default [] (_listeners o !! "add")) ∧
    warnings w' = warnings w.
Proof.
  intros Hok E Eo P.
  assert (object ∉ _children o) as Nin.
  { intros In. apply (proj2 Hok this object o obj E Eo) in In. congruence. }
  pose proof (addChild_fresh _ _ _ _ _ E Eo P Nin) as R.
  match type of R with _ = (_, ?w1) => set (w' := w1) in * end.
  assert (∃ o', heap w' !! this = Some o' ∧ _children o' = _children o ++ [object])
    as (o' & E' & C').
  { simpl. rewrite lookup_alter. case_decide.
    - subst. rewrite lookup_alter_eq, E. simpl. eauto.
    - rewrite lookup_alter_eq, E. simpl. eauto. }
  assert (∃ obj', heap w' !! object = Some obj' ∧ _parent obj' = Some this ∧
                  _is_model_valid obj' = false) as (obj' & Eo' & P' & V').
  { simpl. rewrite lookup_alter_eq.
    destruct (alter _ this (heap w) !! object) eqn:E1; simpl; [eauto|].
    apply lookup_alter_None in E1. congruence. }
  exists w', o', obj'.
  split; [done|]. split; [done|]. split; [done|]. split; [done|]. split; [done|].
  split; [done|]. split; [|split; [|done]].
  - intros y ? ?. simpl. by rewrite !lookup_alter_ne.
  - eapply (links_ok_add (heap w)); eauto.
Qed.

(** X3.  In a well-linked heap, [addChild] called on an existing node with
    an existing node that has no parent returns; the added node is then the
    last entry of the child set of [this], its [parent] is [this] and its
    world model is marked invalid; every other object is as it was, the
    links stay well formed, no warning is logged, and the ['add'] listeners
    of [this] have been called in order with [this] and the node. *)
Theorem addChild_links_the_child w this object o obj :
  links_ok (heap w) →
  heap w !! this = Some o → heap w !! object = Some obj → _parent obj = None →
  ∃ w' o' obj',
    addChild this object w = (Ok tt, w') ∧
    heap w' !! this = Some o' ∧ _children o' = _children o ++ [object] ∧
    heap w' !! object = Some obj' ∧ _parent obj' = Some this ∧
    _is_model_valid obj' = false ∧
    (∀ y, y ≠ this → y ≠ object → heap w' !! y = heap w !! y) ∧
    links_ok (heap w') ∧
    trace w' = trace w ++ ((λ cb, mkInvocation cb this "add" [VObject this; VObject object])
                             <$> default [] (_listeners o !! "add")) ∧
    warnings w' = warnings w.
Proof. apply addChild_post. Qed.

(** X4.  Moving a child: in a well-linked heap, [removeChild] from the
    parent and then [addChild] to any node both return; the child then has
    the new parent, is in its child set and (unless both are the same node)
    no longer in the old one, its world model is marked invalid, and the
    links are still well formed. *)
Theorem removeChild_then_addChild_moves w p q c op :
  links_ok (heap w) →
  heap w !! p = Some op → c ∈ _children op → is_Some (heap w !! q) →
  ∃ w1 w2 oc,
    removeChild p (Some c) w = (Ok true, w1) ∧
    addChild q c w1 = (Ok tt, w2) ∧
    heap w2 !! c = Some oc ∧ _parent oc = Some q ∧ _is_model_valid oc = false ∧
    hasChild q c w2 = (Ok true, w2) ∧
    (p ≠ q → hasChild p c w2 = (Ok false, w2)) ∧
    links_ok (heap w2).
Proof.
  intros Hok Ep In Hq.
  assert (is_Some (heap w !! c)) as Hc by (by apply (proj2 (proj1 Hok _ _ Ep) c)).
  pose proof (removeChild_present _ _ _ _ Ep In Hc) as R1.
  match type of R1 with _ = (_, ?w0) => set (w1 := w0) in * end.
  assert (links_ok (heap w1)) as Hok1 by (by eapply (links_ok_remove (heap w))).
  assert (∃ oc1, heap w1 !! c = Some oc1 ∧ _parent oc1 = None) as (oc1 & Ec1 & P1).
  { simpl. rewrite lookup_alter_eq.
    destruct (alter _ p (heap w) !! c) eqn:E1; simpl; [eauto|].
    apply lookup_alter_None in E1. destruct Hc. congruence. }
  assert (is_Some (heap w1 !! q)) as [oq1 Eq1] by (simpl; by rewrite !alter_is_Some).
  assert (∃ op1, heap w1 !! p = Some op1 ∧ c ∉ _children op1) as (op1 & Ep1 & N1).
  { simpl. rewrite lookup_alter. case_decide.
    - subst. rewrite lookup_alter_eq, Ep. simpl. eexists. split; [done|].
      simpl. apply not_elem_of_set_delete.
    - rewrite lookup_alter_eq, Ep. simpl. eexists. split; [done|].
      simpl. apply not_elem_of_set_delete. }
  destruct (addChild_post w1 q c oq1 oc1 Hok1 Eq1 Ec1 P1)
    as (w2 & oq2 & oc2 & R2 & Eq2 & C2 & Ec2 & P2 & V2 & Hframe & Hok2 & _).
  exists w1, w2, oc2.
  split; [done|]. split; [done|]. split; [done|]. split; [done|]. split; [done|].
  split; [|split; [|done]].
  - rewrite (hasChild_some _ _ _ _ Eq2). unfold set_has.
    rewrite bool_decide_eq_true_2; [done|].
    rewrite C2. apply elem_of_app. right. by apply list_elem_of_singleton.
  - intros Npq.
    assert (∃ op2, heap w2 !! p = Some op2 ∧ c ∉ _children op2) as (op2 & Ep2 & N2).
    { destruct (decide (p = c)) as [->|Npc].
      - exists oc2. split; [done|]. intros In2.
        apply (proj2 Hok2 c c oc2 oc2 Ec2 Ec2) in In2. congruence.
      - rewrite Hframe by done. eauto. }
    rewrite (hasChild_some _ _ _ _ Ep2). unfold set_has.
    by rewrite bool_decide_eq_false_2.
Qed.

(** The loop of [clearChildren] over entries that are in the child set. *)
Lemma clearChildren_loop this cs w o :
  links_ok (heap w) → heap w !! this = Some o → NoDup cs →
  (∀ c, c ∈ cs → c ∈ _children o) →
  ∃ w' o',
    for_children this cs (λ child, removeChild this (Some child);; mret tt) w
      = (Ok tt, w') ∧
    heap w' !! this = Some o' ∧
    (∀ c, c ∈ _children o' ↔ c ∈ _children o ∧ c ∉ cs) ∧
    _listeners o' = _listeners o ∧
    (this ∉ cs → _parent o' = _parent o ∧ _is_model_valid o' = _is_model_valid o) ∧
    (∀ c, c ∈ cs → ∃ oc, heap w' !! c = Some oc ∧
                         _parent oc = None ∧ _is_model_valid oc = false) ∧
    (∀ y, y ≠ this → y ∉ cs → heap w' !! y = heap w !! y) ∧
    links_ok (heap w') ∧
    trace w' = trace w ++ remove_calls this (default [] (_listeners o !! "remove")) cs ∧
    warnings w' = warnings w.
Proof.
  revert w o. induction cs as [|c cs IH]; intros w o Hok E Hnd Hcs.
  { exists w, o. split; [done|]. split; [done|].
    split; [intros c; rewrite elem_of_nil; tauto|].
    split; [done|]. split; [done|]. split; [by intros c ?%elem_of_nil|].
    split; [done|]. split; [done|]. split; [|done]. simpl. by rewrite app_nil_r. }
  apply NoDup_cons in Hnd as [Nc Hnd].
  assert (c ∈ _children o) as In by (apply Hcs; by left).
  assert (is_Some (heap w !! c)) as Hc by (by apply (proj2 (proj1 Hok _ _ E) c)).
  pose proof (removeChild_present _ _ _ _ E In Hc) as R1.
  match type of R1 with _ = (_, ?w0) => set (w1 := w0) in * end.
  assert (links_ok (heap w1)) as Hok1 by (by eapply (links_ok_remove (heap w))).
  assert (∃ o1, heap w1 !! this = Some o1 ∧
                _children o1 = set_delete c (_children o) ∧
                _listeners o1 = _listeners o ∧
                (this ≠ c → _parent o1 = _parent o ∧ _is_model_valid o1 = _is_model_valid o))
    as (o1 & E1 & C1 & L1 & F1).
  { simpl. rewrite lookup_alter. case_decide.
    - subst. rewrite lookup_alter_eq, E. simpl. eexists. split; [done|]. done.
    - rewrite lookup_alter_eq, E. simpl. eexists. split; [done|]. done. }
  assert (∃ oc1, heap w1 !! c = Some oc1 ∧ _parent oc1 = None ∧
                 _is_model_valid oc1 = false) as (oc1 & Ec1 & P1 & V1).
  { simpl. rewrite lookup_alter_eq.
    destruct (alter _ this (heap w) !! c) eqn:E'; simpl; [eauto|].
    apply lookup_alter_None in E'. destruct Hc. congruence. }
  destruct (IH w1 o1 Hok1 E1 Hnd)
    as (w' & o' & R & E' & C' & L' & F' & Hcs' & Hframe & Hok' & Ht & Hw).
  { intros c' In'. rewrite C1. apply elem_of_set_delete. split; [|apply Hcs; by right].
    intros ->. done. }
  exists w', o'. split.
  { rewrite for_children_cons. rewrite (bind_ok _ _ _ _ _ (get_obj_some _ _ _ E)).
    unfold set_has. rewrite bool_decide_eq_true_2 by done.
    erewrite bind_ok; [exact R|]. by rewrite (bind_ok _ _ _ _ _ R1). }
  split; [done|]. split.
  { intros c'. rewrite C', C1, elem_of_set_delete, not_elem_of_cons. tauto. }
  split; [congruence|]. split.
  { intros [Ne Nin]%not_elem_of_cons. destruct (F' Nin) as [-> ->]. by apply F1. }
  split.
  { intros c' [->|In']%elem_of_cons; [|by apply Hcs'].
    destruct (decide (c = this)) as [->|Ne].
    - exists o'. split; [done|]. destruct (F' Nc) as [-> ->].
      assert (o1 = oc1) as -> by congruence. done.
    - rewrite Hframe by done. eauto. }
  split.
  { intros y Ny [Nyc Nin]%not_elem_of_cons. rewrite Hframe by done.
    simpl. by rewrite !lookup_alter_ne. }
  split; [done|]. split; [|done].
  rewrite Ht. simpl. rewrite L1. by rewrite <- app_assoc.
Qed.

(** X5.  In a well-linked heap, for an existing node whose child set
    lists no node twice (a JS [Set] never does), [clearChildren] returns and
    leaves [this] without children; every former child has no parent and an
    invalid world model; every other object is as it was; the links stay
    well formed; the ['remove'] listeners of [this] have been called once
    per child, in the order of the child set; no warning is logged. *)
Theorem clearChildren_detaches_every_child w this o :
  links_ok (heap w) → heap w !! this = Some o → NoDup (_children o) →
  ∃ w' o',
    clearChildren this w = (Ok tt, w') ∧
    heap w' !! this = Some o' ∧ _children o' = [] ∧
    (∀ c, c ∈ _children o → ∃ oc, heap w' !! c = Some oc ∧
                                  _parent oc = None ∧ _is_model_valid oc = false) ∧
    (∀ y, y ≠ this → y ∉ _children o → heap w' !! y = heap w !! y) ∧
    links_ok (heap w') ∧
    trace w' = trace w ++
                 remove_calls this (default [] (_listeners o !! "remove")) (_children o) ∧
    warnings w' = warnings w.
Proof.
  intros Hok E Hnd.
  destruct (clearChildren_loop this (_children o) w o Hok E Hnd)
    as (w' & o' & R & E' & C' & _ & _ & Hcs & Hframe & Hok' & Ht & Hw); [done|].
  exists w', o'. split.
  { unfold clearChildren. by rewrite (bind_ok _ _ _ _ _ (get_obj_some _ _ _ E)). }
  split; [done|]. split.
  { destruct (_children o') as [|c l]; [done|].
    destruct (proj1 (C' c)) as [In Nin]; [by left|done]. }
  done.
Qed.

(** ** Destroying in any well-linked heap *)

Lemma elem_of_parented h x :
  x ∈ parented h ↔ ∃ o, h !! x = Some o ∧ is_Some (_parent o).
Proof.
  unfold parented. rewrite elem_of_dom. split.
  - intros [o [E P]%map_lookup_filter_Some]. eauto.
  - intros (o & E & P). exists o. by apply map_lookup_filter_Some.
Qed.

Lemma shrinks_parented w w' :
  w_shrinks w w' → parented (heap w') ⊆ parented (heap w).
Proof.
  intros Hs x (o' & E' & P')%elem_of_parented. apply elem_of_parented.
  destruct (heap_rel_lookup_r _ _ _ _ _ Hs E') as (o & E & ([Hp|Hp] & _)).
  - exists o. by rewrite <- Hp.
  - rewrite Hp in P'. by destruct P'.
Qed.

Lemma shrinks_parented_size w w' :
  w_shrinks w w' → (size (parented (heap w')) ≤ size (parented (heap w)))%nat.
Proof. intros Hs. by apply subseteq_size, shrinks_parented. Qed.

(** Removing a child takes one link away. *)
Lemma removeChild_parented w this o c r w' :
  links_ok (heap w) → heap w !! this = Some o → c ∈ _children o →
  removeChild this (Some c) w = (r, w') →
  size (parented (heap w')) < size (parented (heap w)).
Proof.
  intros [Hc Hk] E In R.
  assert (is_Some (heap w !! c)) as [oc Ec] by (by apply (proj2 (Hc _ _ E) c)).
  pose proof (removeChild_shrinks _ _ _ _ _ R) as Hs.
  rewrite (removeChild_present _ _ _ _ E In) in R by eauto. injection R as _ <-.
  apply subset_size. split; [by apply shrinks_parented|].
  intros Hsub. assert (c ∈ parented (heap w)) as Hin.
  { apply elem_of_parented. exists oc. split; [done|].
    rewrite (proj1 (Hk this c o oc E Ec) In). eauto. }
  apply Hsub, elem_of_parented in Hin as (oc' & Ec' & P'). simpl in Ec'.
  rewrite lookup_alter_eq in Ec'.
  destruct (alter _ this (heap w) !! c); simplify_eq/=. by destruct P'.
Qed.

(** With more stack than the scene graph has links, [destroy] returns, on
    a graph with cycles too. *)
Lemma destroy_returns_counting fuel this w :
  links_ok (heap w) → is_Some (heap w !! this) →
  size (parented (heap w)) < fuel →
  ∃ w', destroy fuel this w = (Ok tt, w').
Proof.
  revert this w. induction fuel as [|fuel IH]; intros this w Hok [o E] Hf; [lia|].
  assert (∀ cs w, links_ok (heap w) → (size (parented (heap w)) ≤ fuel)%nat →
            is_Some (heap w !! this) →
            ∃ w', for_children this cs
                    (λ child, removeChild this (Some child);; destroy fuel child) w
                  = (Ok tt, w')) as Hloop.
  { clear w Hok Hf o E. induction cs as [|c cs IHcs]; intros w Hok Hf [o E].
    { by eexists. }
    rewrite for_children_cons. rewrite (bind_ok _ _ _ _ _ (get_obj_some _ _ _ E)).
    destruct (set_has c (_children o)) eqn:Hc; [|apply IHcs; eauto].
    apply bool_decide_eq_true_1 in Hc.
    destruct (removeChild_ok this (Some c) w (proj1 Hok)) as (b & w1 & R1); [eauto|].
    assert (is_Some (heap w !! c)) as Ec by (by apply (proj2 (proj1 Hok _ _ E) c)).
    pose proof (removeChild_shrinks _ _ _ _ _ R1) as Hs1.
    pose proof (removeChild_parented _ _ _ _ _ _ Hok E Hc R1) as Hlt.
    destruct (IH c w1) as (w2 & R2).
    - eapply removeChild_links_ok; eauto.
    - by apply (heap_rel_is_Some _ _ _ c Hs1).
    - lia.
    - pose proof (destroy_shrinks _ _ _ _ _ R2) as Hs2.
      pose proof (shrinks_parented_size _ _ Hs2).
      destruct (IHcs w2) as (w3 & R3).
      + eapply destroy_links_ok; [exact R2|]. eapply removeChild_links_ok; eauto.
      + lia.
      + apply (heap_rel_is_Some _ _ _ this Hs2).
        apply (heap_rel_is_Some _ _ _ this Hs1). eauto.
      + exists w3. erewrite bind_ok; [exact R3|]. cbv beta.
        by rewrite (bind_ok _ _ _ _ _ R1). }
  rewrite destroy_S. rewrite (bind_ok _ _ _ _ _ (get_obj_some _ _ _ E)).
  assert (∃ w1, match _parent o with
                | Some parent => removeChild parent (Some this);; mret tt
                | None => mret tt
                end w = (Ok tt, w1) ∧ w_shrinks w w1 ∧ links_ok (heap w1))
    as (w1 & R1 & Hs1 & Hok1).
  { destruct (_parent o) as [p|] eqn:P.
    - destruct (removeChild_ok p (Some this) w (proj1 Hok)) as (b & w1 & R1).
      { by apply (proj1 (proj1 Hok _ _ E) p). }
      exists w1. rewrite (bind_ok _ _ _ _ _ R1). split; [done|].
      split; [eapply removeChild_shrinks, R1|eapply removeChild_links_ok; eauto].
    - exists w. split; [done|]. split; [reflexivity|done]. }
  rewrite (bind_ok _ _ _ _ _ R1).
  assert (is_Some (heap w1 !! this)) as [o1 E1].
  { apply (heap_rel_is_Some _ _ _ this Hs1). eauto. }
  unfold clearListeners. rewrite (bind_ok _ _ _ _ _ (modify_alter _ _ _ _ E1)).
  set (w2 := mkWorld (alter (with_listeners ∅) this (heap w1)) (trace w1) (warnings w1)).
  assert (w_shrinks w1 w2) as Hs2.
  { eapply clearListeners_shrinks. apply (modify_alter _ _ _ _ E1). }
  assert (heap w2 !! this = Some (with_listeners ∅ o1)) as E2.
  { simpl. by rewrite lookup_alter_eq, E1. }
  rewrite (bind_ok _ _ _ _ _ (get_obj_some _ _ _ E2)).
  pose proof (shrinks_parented_size _ _ Hs1).
  pose proof (shrinks_parented_size _ _ Hs2).
  destruct (Hloop (_children (with_listeners ∅ o1)) w2) as (w3 & R3).
  - eapply same_links_links_ok; [|exact Hok1].
    eapply clearListeners_same_links. apply (modify_alter _ _ _ _ E1).
  - lia.
  - eauto.
  - rewrite (bind_ok _ _ _ _ _ R3).
    assert (is_Some (heap w3 !! this)) as [o3 E3].
    { apply (heap_rel_is_Some _ _ _ this
               (always_for_children w_shrinks _ _ _
                  (λ c, always_bind w_shrinks _ _ (removeChild_shrinks _ _)
                          (λ _, destroy_shrinks _ _)) _ _ _ R3)). eauto. }
    rewrite (notify_some _ _ _ _ _ E3). eauto.
Qed.

(** After a [destroy] that returned, the node and all it could reach are
    gone. *)
Lemma destroy_post_subtree fuel this w w' :
  links_ok (heap w) → destroy fuel this w = (Ok tt, w') →
  ∀ d, reach (heap w) this d → ∃ od, heap w' !! d = Some od ∧ gone od.
Proof.
  intros Hok R.
  destruct (destroy_post _ _ _ _ Hok R) as [(o' & E' & G') Hrel].
  pose proof (destroy_links_ok _ _ _ _ _ R Hok) as [Hcl' Hk'].
  destruct Hok as [Hcl Hk].
  unfold reach. apply rtc_ind_r; [eauto|]. intros x d _ Hxd IHd.
  destruct Hxd as (ox & Ex & In). destruct IHd as (ox' & Ex' & Gx).
  destruct (decide (d = this)) as [->|Nd]; [eauto|].
  assert (is_Some (heap w !! d)) as [od Ed] by (by apply (proj2 (Hcl _ _ Ex) d)).
  pose proof (proj1 (Hk x d ox od Ex Ed) In) as Pd.
  specialize (Hrel d). rewrite Ed in Hrel.
  destruct (heap w' !! d) as [od'|] eqn:Ed'; [|done].
  exists od'. split; [done|].
  destruct (Hrel Nd) as [G|Hp]; [done|]. exfalso.
  assert (_parent od' = Some x) as Pd'.
  { destruct Hp as [(-> & _)|[_ ->]]; done. }
  apply (Hk' x d ox' od' Ex' Ed') in Pd'.
  destruct Gx as (_ & C & _). rewrite C in Pd'. by apply not_elem_of_nil in Pd'.
Qed.

(** X6.  [destroy] needs no tree: in any well-linked heap, cycles of child
    sets included, it returns as soon as the stack is deeper than the
    number of nodes that have a parent, and then the node and everything
    that was reachable from it has no parent, no child and no listener,
    and the links are still well formed. *)
Theorem destroy_returns_on_any_graph fuel this w :
  links_ok (heap w) → is_Some (heap w !! this) →
  size (parented (heap w)) < fuel →
  ∃ w', destroy fuel this w = (Ok tt, w') ∧
    links_ok (heap w') ∧
    ∀ d, reach (heap w) this d →
      ∃ od, heap w' !! d = Some od ∧
            _parent od = None ∧ _children od = [] ∧ _listeners od = ∅.
Proof.
  intros Hok Ht Hf.
  destruct (destroy_returns_counting fuel this w Hok Ht Hf) as (w' & R).
  exists w'. split; [done|]. split; [by eapply destroy_links_ok|].
  by apply (destroy_post_subtree fuel this w w').
Qed.

(** Destroying a node that has no parent, no child and no listener does
    nothing at all. *)
Lemma destroy_gone fuel this w o :
  heap w !! this = Some o → gone o → destroy (S fuel) this w = (Ok tt, w).
Proof.
  intros E (P & C & L). rewrite destroy_S.
  rewrite (bind_ok _ _ _ _ _ (get_obj_some _ _ _ E)). rewrite P. cbv iota.
  rewrite ret_bind.
  unfold clearListeners. rewrite (bind_ok _ _ _ _ _ (modify_some _ _ _ _ E)).
  assert (with_listeners ∅ o = o) as ->.
  { destruct o. simpl in L. by subst. }
  rewrite (insert_id _ _ _ E).
  assert (mkWorld (heap w) (trace w) (warnings w) = w) as -> by (by destruct w).
  rewrite (bind_ok _ _ _ _ _ (get_obj_some _ _ _ E)). rewrite C.
  rewrite (bind_ok (for_children this [] _) _ w tt w eq_refl). apply (notify_silent _ _ o); [done|]. by rewrite L.
Qed.

(** X7.  [destroy] is idempotent: in a well-linked heap, with a stack
    deeper than the number of nodes that have a parent, [destroy] of an
    existing node returns, and a second [destroy] of the same node returns
    too and changes nothing, neither the heap nor the listener calls made
    nor the warnings. *)
Theorem destroy_twice_is_destroy_once fuel this w :
  links_ok (heap w) → is_Some (heap w !! this) →
  size (parented (heap w)) < fuel →
  ∃ w', destroy fuel this w = (Ok tt, w') ∧ destroy fuel this w' = (Ok tt, w').
Proof.
  intros Hok Ht Hf.
  destruct (destroy_returns_counting fuel this w Hok Ht Hf) as (w' & R).
  exists w'. split; [done|].
  destruct (destroy_post _ _ _ _ Hok R) as [(o' & E' & G') _].
  destruct fuel as [|fuel]; [lia|]. by apply (destroy_gone fuel this w' o').
Qed.

(** ** More on updating *)

(** An [update] of a tree whose nodes are all valid changes nothing. *)
Lemma update_valid_noop rank fuel this delta_t w :
  ranked rank (heap w) → rank this < fuel →
  (∀ y, reach (heap w) this y → valid_in w y) →
  update fuel this delta_t w = (Ok tt, w).
Proof.
  intros Hr. revert this. induction fuel as [|fuel IH]; intros this Hf Hv; [lia|].
  destruct (Hv this (rtc_refl _ _)) as (o & E & V).
  rewrite update_S. rewrite (bind_ok _ _ _ _ _ (get_obj_some _ _ _ E)).
  rewrite V. cbv iota beta delta [negb]. rewrite ret_bind.
  rewrite (bind_ok _ _ _ _ _ (get_obj_some _ _ _ E)).
  assert (∀ cs, (∀ c, c ∈ cs → c ∈ _children o) →
            for_children this cs (λ child, update fuel child delta_t) w = (Ok tt, w))
    as Hloop; [|by apply Hloop].
  induction cs as [|c cs IHcs]; intros Hcs; [done|].
  assert (c ∈ _children o) as In by (apply Hcs; by left).
  rewrite for_children_cons. rewrite (bind_ok _ _ _ _ _ (get_obj_some _ _ _ E)).
  unfold set_has. rewrite bool_decide_eq_true_2 by done.
  rewrite (bind_ok _ _ w tt w).
  - apply IHcs. intros c' In'. apply Hcs. by right.
  - apply IH.
    + pose proof (ranked_child _ _ _ _ _ Hr E In). lia.
    + intros y Hy. apply Hv. eapply rtc_l; [|exact Hy]. by exists o.
Qed.

(** X8.  [update] on a tree without cycles whose nodes all have a valid
    world model returns, given stack for the depth of the tree, and changes
    nothing: no matrix, no flag, and no listener is called. *)
Theorem update_of_a_valid_tree_changes_nothing rank fuel root delta_t w :
  ranked rank (heap w) → rank root < fuel →
  (∀ y, reach (heap w) root y → valid_in w y) →
  update fuel root delta_t w = (Ok tt, w).
Proof. apply update_valid_noop. Qed.

(** X9.  [update] is idempotent: in a scene that satisfies the invariant
    and has no cycle, given stack for the depth of the tree, [update]
    returns, and an [update] of the same tree right after it returns and
    changes nothing. *)
Theorem update_twice_is_update_once rank fuel root delta_t w :
  scene_ok (heap w) → ranked rank (heap w) → is_Some (heap w !! root) →
  rank root < fuel →
  ∃ w', update fuel root delta_t w = (Ok tt, w') ∧
        update fuel root delta_t w' = (Ok tt, w').
Proof.
  intros Hok Hr Ht Hf.
  destruct (update_post rank fuel root delta_t w Hok Hr Ht Hf) as (w' & R & V).
  pose proof (update_same_links _ _ _ _ _ _ R) as Hs.
  exists w'. split; [done|]. apply (update_valid_noop rank); [|done|].
  - by eapply same_links_ranked.
  - intros y Hy. apply V. right.
    eapply same_links_reach; [|exact Hy]. by apply same_links_sym.
Qed.

(** *** What an update can touch *)

Global Instance w_same_but_models_preorder : PreOrder w_same_but_models.
Proof.
  split.
  - intros w. split; [|done]. apply heap_rel_refl. intros. by repeat split.
  - intros w1 w2 w3 [H12 W12] [H23 W23]. split; [|congruence].
    eapply heap_rel_trans; [|exact H12|exact H23].
    intros _ a b c (?&?&?&?&?&?&?&?&?) (?&?&?&?&?&?&?&?&?). repeat split; congruence.
Qed.

Global Instance touches_below_preorder x : PreOrder (touches_below x).
Proof.
  split.
  - intros w. split; [apply same_links_refl|done].
  - intros w1 w2 w3 [S12 F12] [S23 F23]. split; [by eapply same_links_trans|].
    intros y Ny. rewrite F23, F12; [done|done|].
    intros Hy. apply Ny. eapply same_links_reach; [|exact Hy]. by apply same_links_sym.
Qed.

(** A loop over the children, where the body is only known to behave when
    run on an entry that is in the child set. *)
Lemma always_for_children_live Q `{!PreOrder Q} this cs body :
  (∀ c w r w', child_of (heap w) this c → body c w = (r, w') → Q w w') →
  always Q (for_children this cs body).
Proof.
  intros Hb. induction cs as [|c cs IH]; intros w r w' R.
  { injection R as <- <-. reflexivity. }
  rewrite for_children_cons in R.
  destruct (heap w !! this) as [o|] eqn:E.
  2:{ rewrite (bind_throw _ _ _ _ _ (get_obj_none _ _ E)) in R.
      injection R as <- <-. reflexivity. }
  rewrite (bind_ok _ _ _ _ _ (get_obj_some _ _ _ E)) in R.
  destruct (set_has c (_children o)) eqn:Hc; [|by eapply IH].
  apply bool_decide_eq_true_1 in Hc.
  assert (child_of (heap w) this c) as Hch by (by exists o).
  apply bind_inv in R as [(e & R & _)|([] & w1 & R & R')].
  - by eapply Hb.
  - etrans; [by eapply Hb|by eapply IH].
Qed.

Lemma modify_same_but_models x f :
  (∀ o, node_same_but_models o (f o)) → always w_same_but_models (modify x f).
Proof.
  intros Hf. apply always_modify; [apply _|]. intros w o E. split; [|done].
  apply heap_rel_alter; [intros; by repeat split|auto].
Qed.

Lemma notify_same_but_models this ev args :
  always w_same_but_models (notify this ev args).
Proof.
  apply always_notify; [apply _|]. intros w t. split; [|done].
  apply heap_rel_refl. intros. by repeat split.
Qed.

Lemma _revalidateModel_same_but_models this :
  always w_same_but_models (_revalidateModel this).
Proof.
  unfold _revalidateModel, _computeWorldModel, _invalidateModel. walk;
    first [apply notify_same_but_models
          |apply modify_same_but_models; intros ?; by repeat split].
Qed.

Lemma update_same_but_models fuel this delta_t :
  always w_same_but_models (update fuel this delta_t).
Proof.
  revert this. induction fuel as [|fuel IH]; intros this;
    [rewrite update_0|rewrite update_S].
  - apply always_throw, _.
  - walk; first [apply _revalidateModel_same_but_models|apply IH].
Qed.

Lemma modify_touches x f :
  (∀ o, node_same_links o (f o)) → always (touches_below x) (modify x f).
Proof.
  intros Hf. apply always_modify; [apply _|]. intros w o E. split.
  - apply same_links_alter. auto.
  - intros y Ny. simpl. rewrite lookup_alter_ne; [done|].
    intros <-. apply Ny. apply rtc_refl.
Qed.

Lemma notify_touches x this ev args : always (touches_below x) (notify this ev args).
Proof.
  apply always_notify; [apply _|]. intros w t. split; [apply same_links_refl|done].
Qed.

(** Walks through the binds and branches of a method, leaving the writes
    to the heap and the loops. *)
Ltac walk_binds :=
  repeat match goal with
    | |- always _ (mbind _ _) => apply always_bind; [apply _| |intros ?]
    | |- always _ (mret _) => apply always_ret, _
    | |- always _ (throw _) => apply always_throw, _
    | |- always _ (get_obj _) => apply always_get_obj, _
    | |- always _ (if ?b then _ else _) => destruct b
    | |- always _ (match ?x with _ => _ end) => destruct x
    end.

Lemma _revalidateModel_touches this : always (touches_below this) (_revalidateModel this).
Proof.
  unfold _revalidateModel, _computeWorldModel. walk_binds;
    first [apply notify_touches
          |by apply modify_touches
          |idtac].
  all: apply always_for_children_live; [apply _|].
  all: intros c w r w' Hc R; split.
  all: try (eapply _invalidateModel_same_links, R).
  all: intros y Ny; destruct (heap w !! c) as [oc|] eqn:Ec.
  all: try (rewrite (_invalidateModel_some _ _ _ Ec) in R; injection R as _ <-; simpl;
            rewrite lookup_alter_ne; [done|]; intros <-; apply Ny;
            eapply rtc_l; [exact Hc|apply rtc_refl]).
  all: unfold _invalidateModel in R; rewrite (modify_none _ _ _ Ec) in R;
       by injection R as _ <-.
Qed.

Lemma update_touches fuel this delta_t :
  always (touches_below this) (update fuel this delta_t).
Proof.
  revert this. induction fuel as [|fuel IH]; intros this;
    [rewrite update_0|rewrite update_S].
  - apply always_throw, _.
  - walk_binds; try apply _revalidateModel_touches.
    all: apply always_for_children_live; [apply _|].
    all: intros c w r w' Hc R; destruct (IH c _ _ _ R) as [Hs Hf]; split; [done|].
    all: intros y Ny; apply Hf; intros Hy; apply Ny; by eapply rtc_l.
Qed.

(** X10.  However it ends, [update] on [root] changes nothing but models
    and validity flags, logs no warning, and leaves every object that is
    not [root] or one of its descendants exactly as it was. *)
Theorem update_touches_only_its_subtree fuel root delta_t w :
  heap_rel (λ _, node_same_but_models) (heap w) (heap (update fuel root delta_t w).2) ∧
  warnings (update fuel root delta_t w).2 = warnings w ∧
  ∀ y, ¬ reach (heap w) root y →
       heap (update fuel root delta_t w).2 !! y = heap w !! y.
Proof.
  destruct (update fuel root delta_t w) as [r w'] eqn:R. simpl.
  destruct (update_same_but_models _ _ _ _ _ _ R) as [Hm Hw].
  destruct (update_touches _ _ _ _ _ _ R) as [_ Hf]. done.
Qed.

(** *** Cycles of child sets *)

(** If a loop over the children returned, its body returned on every entry
    that was in the child set, in a state with the same links. *)
Lemma for_children_returned this cs body c w w' :
  (∀ c, always w_same_links (body c)) →
  for_children this cs body w = (Ok tt, w') →
  c ∈ cs → child_of (heap w) this c →
  ∃ w1 w2, w_same_links w w1 ∧ body c w1 = (Ok tt, w2).
Proof.
  intros Hb. revert w. induction cs as [|c0 cs IH]; intros w R In Hc.
  { by apply elem_of_nil in In. }
  rewrite for_children_cons in R.
  destruct (heap w !! this) as [o|] eqn:E.
  2:{ by rewrite (bind_throw _ _ _ _ _ (get_obj_none _ _ E)) in R. }
  rewrite (bind_ok _ _ _ _ _ (get_obj_some _ _ _ E)) in R.
  destruct (set_has c0 (_children o)) eqn:Hc0.
  - apply bind_inv in R as [(e & _ & ?)|([] & w1 & R & R')]; [done|].
    destruct (decide (c = c0)) as [->|Ne].
    { exists w, w1. split; [reflexivity|done]. }
    pose proof (Hb _ _ _ _ R) as Hs.
    destruct (IH w1 R') as (w2 & w3 & Hs2 & R2).
    + apply elem_of_cons in In as [?|?]; done.
    + by apply (same_links_child_of (heap w) (heap w1)).
    + exists w2, w3. split; [by etrans|done].
  - apply bool_decide_eq_false_1 in Hc0.
    destruct (decide (c = c0)) as [->|Ne].
    { destruct Hc as (o' & E' & In'). congruence. }
    apply (IH w R); [|done]. apply elem_of_cons in In as [?|?]; done.
Qed.

(** A node on a cycle has a child on a cycle. *)
Lemma cycle_step h x c :
  child_of h x c → reach h c x → ∃ c', child_of h c c' ∧ reach h c' c.
Proof.
  intros Hxc Hcx. apply rtc_inv in Hcx as [->|(c' & Hcc' & Hc'x)].
  - exists x. split; [done|apply rtc_refl].
  - exists c'. split; [done|]. eapply rtc_r; [exact Hc'x|exact Hxc].
Qed.

(** If [update] returned, it returned on each child, in a state with the
    same links. *)
Lemma update_returned_child fuel x c delta_t w w' :
  update (S fuel) x delta_t w = (Ok tt, w') → child_of (heap w) x c →
  ∃ w1 w2, w_same_links w w1 ∧ update fuel c delta_t w1 = (Ok tt, w2).
Proof.
  intros R (o & E & In). rewrite update_S in R.
  rewrite (bind_ok _ _ _ _ _ (get_obj_some _ _ _ E)) in R.
  apply bind_inv in R as [(e & _ & ?)|([] & w1 & R1 & R)]; [done|].
  assert (w_same_links w w1) as Hs1.
  { destruct (negb (_is_model_valid o)).
    - eapply _revalidateModel_same_links, R1.
    - injection R1 as <-. reflexivity. }
  destruct (heap_rel_lookup _ _ _ _ _ Hs1 E) as (o1 & E1 & [_ C1]).
  rewrite (bind_ok _ _ _ _ _ (get_obj_some _ _ _ E1)) in R.
  destruct (for_children_returned _ _ _ c _ _
              (λ child, update_same_links fuel child delta_t) R)
    as (w2 & w3 & Hs2 & R2).
  { by rewrite C1. }
  { exists o1. by rewrite C1. }
  exists w2, w3. split; [by etrans|done].
Qed.

Lemma update_on_a_cycle fuel x c delta_t w w' :
  child_of (heap w) x c → reach (heap w) c x →
  update fuel x delta_t w ≠ (Ok tt, w').
Proof.
  revert x c w w'. induction fuel as [|fuel IH]; intros x c w w' Hxc Hcx R; [done|].
  destruct (update_returned_child _ _ _ _ _ _ R Hxc) as (w1 & w2 & Hs & R1).
  destruct (cycle_step (heap w) x c Hxc Hcx) as (c' & Hcc' & Hc'c).
  apply (IH c c' w1 w2); [|by eapply same_links_reach|done].
  by apply (same_links_child_of (heap w) (heap w1)).
Qed.

(** If [update] returned, it returned on every node below, in a state with
    the same links. *)
Lemma update_returned_below x c delta_t w :
  reach (heap w) x c →
  ∀ fuel w1 w', w_same_links w w1 → update fuel x delta_t w1 = (Ok tt, w') →
  ∃ k w2 w3, w_same_links w w2 ∧ update k c delta_t w2 = (Ok tt, w3).
Proof.
  unfold reach. revert x.
  apply (rtc_ind_l (λ x, ∀ fuel w1 w', w_same_links w w1 →
           update fuel x delta_t w1 = (Ok tt, w') →
           ∃ k w2 w3, w_same_links w w2 ∧ update k c delta_t w2 = (Ok tt, w3))).
  { intros fuel w1 w' Hs R. eauto. }
  intros x y Hxy _ IH fuel w1 w' Hs R.
  destruct fuel as [|fuel]; [done|].
  destruct (update_returned_child fuel x y delta_t w1 w' R) as (w2 & w3 & Hs2 & R2).
  { by apply (same_links_child_of (heap w) (heap w1)). }
  apply (IH fuel w2 w3); [by etrans|done].
Qed.

(** X11.  If a cycle of child sets can be reached from a node, [update] on
    that node never returns, whatever the depth of the stack: it always
    ends in an exception. *)
Theorem update_above_a_cycle_always_throws fuel x c c' delta_t w :
  reach (heap w) x c → child_of (heap w) c c' → reach (heap w) c' c →
  ∃ e w', update fuel x delta_t w = (Throw e, w').
Proof.
  intros Hxc Hcc' Hc'c.
  destruct (update fuel x delta_t w) as [[[]|e] w'] eqn:R; [|eauto].
  destruct (update_returned_below x c delta_t w Hxc fuel w w') as (k & w2 & w3 & Hs & R2);
    [reflexivity|done|].
  destruct (update_on_a_cycle k c c' delta_t w2 w3); [| |done].
  - by apply (same_links_child_of (heap w) (heap w2)).
  - by eapply same_links_reach.
Qed.

Lemma lookup_alter2_fwd h a b (f g : Object3D → Object3D) y o :
  h !! y = Some o →
  alter g b (alter f a h) !! y =
  Some ((if decide (b = y) then g else id) ((if decide (a = y) then f else id) o)).
Proof.
  intros E.
  destruct (decide (b = y)) as [->|Nb], (decide (a = y)) as [->|Na]; simpl;
    rewrite ?lookup_alter_eq, ?lookup_alter_ne by done;
    rewrite ?lookup_alter_eq, ?lookup_alter_ne by done;
    by rewrite E.
Qed.

(** X12.  [addChild] only refuses a node that has a parent, so it accepts
    the root of a tree as a child of any node of that tree.  In a
    well-linked heap that call returns, and from then on [update] on the
    root can only end in an exception. *)
Theorem addChild_of_the_root_breaks_update w root d o :
  links_ok (heap w) → heap w !! root = Some o → _parent o = None →
  reach (heap w) root d →
  ∃ w', addChild d root w = (Ok tt, w') ∧
        ∀ fuel delta_t, ∃ e w'', update fuel root delta_t w' = (Throw e, w'').
Proof.
  intros Hok E P Hd.
  assert (is_Some (heap w !! d)) as [od Ed].
  { eapply reach_is_Some; [apply Hok| |exact Hd]. eauto. }
  assert (root ∉ _children od) as Nin.
  { intros In. apply (proj2 Hok d root od o Ed E) in In. congruence. }
  pose proof (addChild_fresh _ _ _ _ _ Ed E P Nin) as R.
  match type of R with _ = (_, ?w1) => set (w' := w1) in * end.
  exists w'. split; [done|].
  assert (∀ p c, child_of (heap w) p c → child_of (heap w') p c) as Hmono.
  { intros p c (op & Ep & In). eexists. split.
    - simpl. by apply lookup_alter2_fwd.
    - destruct (decide (root = p)), (decide (d = p)); simpl;
        rewrite ?elem_of_app; auto. }
  assert (child_of (heap w') d root) as Hdr.
  { eexists. split; [simpl; by apply lookup_alter2_fwd|].
    destruct (decide (root = d)); rewrite decide_True by done; simpl;
      rewrite elem_of_app, list_elem_of_singleton; auto. }
  assert (reach (heap w') root d) as Hd'.
  { eapply (rtc_subrel (child_of (heap w))); [exact Hmono|exact Hd]. }
  assert (∃ c, child_of (heap w') root c ∧ reach (heap w') c root) as (c & Hrc & Hcr).
  { apply rtc_inv in Hd' as [->|(c & Hrc & Hcd)].
    - exists d. split; [done|apply rtc_refl].
    - exists c. split; [done|]. eapply rtc_r; [exact Hcd|exact Hdr]. }
  intros fuel delta_t.
  destruct (update fuel root delta_t w') as [[[]|e] w''] eqn:R'; [|eauto].
  by destruct (update_on_a_cycle _ _ _ _ _ _ Hrc Hcr R').
Qed.

(** ** Property mutations are lazy and local *)

Lemma setter_frame (f : Object3D → Object3D) (ev : string) (arg : Object3D → Value)
    w this o :
  heap w !! this = Some o → (∀ o, node_keeps_models o (f o)) →
  ∃ w' o',
    (modify this f;; _invalidateLocalModel this;;
     o ← get_obj this; notify this ev [arg o]) w = (Ok tt, w') ∧
    heap w' !! this = Some o' ∧ node_keeps_models o o' ∧
    _is_model_valid o' = false ∧ _is_local_model_valid o' = Some false ∧
    (∀ y, y ≠ this → heap w' !! y = heap w !! y) ∧
    warnings w' = warnings w.
Proof.
  intros E Hf.
  assert (_listeners (f o) = _listeners o) as Hl by apply Hf.
  eexists _, _. split; [by apply setter_run|]. simpl.
  split; [by rewrite lookup_alter_eq, E|]. split; [apply Hf|].
  split; [done|]. split; [done|]. split; [|done].
  intros y Ny. by rewrite lookup_alter_ne.
Qed.

Lemma rotation_frame (q : Quat) w this o :
  heap w !! this = Some o →
  ∃ w' o',
    (modify this (with_tmp_quaternion q);;
     modify this (λ o, with_orientation (Quat_multiply (_orientation o) (_tmp_quaternion o)) o);;
     _invalidateLocalModel this;;
     o ← get_obj this;
     notify this "orientation" [VQuat (_orientation o)]) w = (Ok tt, w') ∧
    heap w' !! this = Some o' ∧ node_keeps_models o o' ∧
    _is_model_valid o' = false ∧ _is_local_model_valid o' = Some false ∧
    (∀ y, y ≠ this → heap w' !! y = heap w !! y) ∧
    warnings w' = warnings w.
Proof.
  intros E. rewrite (bind_ok _ _ _ _ _ (modify_alter _ _ _ _ E)).
  edestruct (setter_frame
    (λ o, with_orientation (Quat_multiply (_orientation o) (_tmp_quaternion o)) o)
    "orientation" (λ o, VQuat (_orientation o))
    (mkWorld (alter (with_tmp_quaternion q) this (heap w)) (trace w) (warnings w))
    this (with_tmp_quaternion q o))
    as (w' & o' & R & E' & K & V & L & Hframe & Hw).
  { simpl. by rewrite lookup_alter_eq, E. }
  { intros ?. by repeat split. }
  exists w', o'. split; [exact R|]. split; [done|]. split; [exact K|].
  split; [done|]. split; [done|]. split; [|done].
  intros y Ny. rewrite Hframe by done. simpl. by rewrite lookup_alter_ne.
Qed.

(** X13.  Every method that changes origin, orientation or scale returns
    when called on an existing node; it marks both models of that node
    invalid but recomputes neither, keeps its links and listeners, logs no
    warning, and leaves every other object exactly as it was: descendants
    keep their cached world models until the next [update]. *)
Theorem property_mutation_is_lazy_and_local op this w o :
  property_mutation op = true → receiver op = Some this → heap w !! this = Some o →
  ∃ w' o',
    run op w = (Ok tt, w') ∧
    heap w' !! this = Some o' ∧ node_keeps_models o o' ∧
    _is_model_valid o' = false ∧ _is_local_model_valid o' = Some false ∧
    (∀ y, y ≠ this → heap w' !! y = heap w !! y) ∧
    warnings w' = warnings w.
Proof.
  destruct op; try done; intros _ [= ->] E; simpl;
    first [apply rotation_frame; exact E
          |unfold rotateY, rotateZ; rewrite rotation_returning_this;
           apply rotation_frame; exact E
          |(apply (setter_frame _ "origin" (λ o, VVec3 (_origin o))) ||
            apply (setter_frame _ "orientation" (λ o, VQuat (_orientation o))) ||
            apply (setter_frame _ "size" (λ o, VVec3 (_scale o))));
           [exact E|intros ?; by repeat split]].
Qed.

(** ** Revalidation, events included *)

(** X14.  [_revalidateModel] on a node of a closed heap returns; it calls
    the ['localModel'] listeners only if the local model had to be
    recomputed, then the ['model'] listeners, each in registration order
    and with the matrix the node has afterwards; a recomputed local model
    is the one composed from the current properties. *)
Theorem _revalidateModel_events w this o :
  closed (heap w) → heap w !! this = Some o →
  ∃ w' o',
    _revalidateModel this w = (Ok tt, w') ∧
    heap w' !! this = Some o' ∧
    _local_model o' =
      (if truthy (_is_local_model_valid o) then _local_model o
       else compose_local (_origin o) (_orientation o) (_scale o)) ∧
    trace w' =
      trace w ++
      (if truthy (_is_local_model_valid o) then []
       else (λ cb, mkInvocation cb this "localModel" [VMat4 (_local_model o')])
              <$> default [] (_listeners o !! "localModel")) ++
      ((λ cb, mkInvocation cb this "model" [VMat4 (_world_model o')])
         <$> default [] (_listeners o !! "model")) ∧
    warnings w' = warnings w.
Proof.
  intros Hc E.
  destruct (relocal_fields o) as (P1 & C1 & W1 & _ & _ & _ & _ & L1).
  assert (∃ W, match _parent o with
               | Some p => ∃ po, heap w !! p = Some po ∧
                   W = Mat4_multiply (_world_model po) (_local_model (relocal o))
               | None => W = _local_model (relocal o)
               end) as [W HW].
  { destruct (_parent o) as [p|] eqn:P; [|eauto].
    destruct (proj1 (Hc _ _ E) p P) as [po Ep]. eauto. }
  unfold _revalidateModel.
  rewrite (bind_ok _ _ _ _ _ (get_obj_some _ _ _ E)).
  rewrite (bind_ok _ _ _ _ _ (relocal_run _ _ _ E)).
  erewrite bind_ok; last first.
  { eapply (_computeWorldModel_run _ this (relocal o) W).
    - simpl. apply lookup_insert_eq.
    - rewrite P1. destruct (_parent o) as [p|]; [|done].
      destruct HW as (po & Ep & ->). simpl.
      destruct (decide (this = p)) as [<-|Ne].
      + exists (relocal o). rewrite lookup_insert_eq. split; [done|].
        rewrite W1. congruence.
      + exists po. by rewrite lookup_insert_ne. }
  erewrite bind_ok; last first.
  { eapply modify_some. simpl. apply lookup_insert_eq. }
  simpl. rewrite !insert_insert_eq. fold (revalidated W o).
  set (w3 := mkWorld (<[this:=revalidated W o]> (heap w)) (trace w) (warnings w)).
  assert (heap w3 !! this = Some (revalidated W o)) as E3 by apply lookup_insert_eq.
  rewrite (bind_ok _ _ _ _ _ (get_obj_some _ _ _ E3)).
  destruct (for_children_invalidate this (_children o) (_children (revalidated W o)) w3)
    as (w4 & R4 & Ht & Hw & Hh).
  { exists (revalidated W o). split; [done|]. simpl. done. }
  { intros c In. simpl in In. rewrite C1 in In. split; [done|]. simpl.
    apply lookup_insert_is_Some'. right. by eapply (Hc _ _ E). }
  rewrite (bind_ok _ _ _ _ _ R4).
  assert (∃ o4, heap w4 !! this = Some o4 ∧ _listeners o4 = _listeners o ∧
                _local_model o4 = _local_model (relocal o)) as (o4 & E4 & L4 & M4).
  { rewrite Hh. case_decide; rewrite E3; simpl; eauto. }
  rewrite (bind_ok _ _ _ _ _ (get_obj_some _ _ _ E4)).
  exists (mkWorld (heap w4)
            (trace w4 ++
             (if negb (truthy (_is_local_model_valid o))
              then (λ cb, mkInvocation cb this "localModel" [VMat4 (_local_model o4)])
                     <$> default [] (_listeners o4 !! "localModel")
              else []) ++
             ((λ cb, mkInvocation cb this "model" [VMat4 (_world_model o4)])
                <$> default [] (_listeners o4 !! "model")))
            (warnings w4)), o4.
  split.
  { destruct (negb (truthy (_is_local_model_valid o))).
    + rewrite (bind_ok _ _ _ _ _ (notify_some _ _ _ _ _ E4)).
      erewrite notify_some by (simpl; exact E4). simpl. by rewrite <- app_assoc.
    + rewrite ret_bind. by rewrite (notify_some _ _ _ _ _ E4). }
  split; [done|]. split.
  { rewrite M4. unfold relocal. by destruct (truthy (_is_local_model_valid o)). }
  simpl. split; [|done]. rewrite Ht, L4. simpl.
  by destruct (truthy (_is_local_model_valid o)).
Qed.

(** ** A new object *)

(** X15.  Creating an object and updating it once returns, calls no
    listener, and leaves a node without parent or children whose local
    model is composed from the constructor's origin, orientation and
    scale, whose world model is that same matrix, and whose two flags are
    valid; no other object changes. *)
Theorem first_update_of_a_new_object w id name origin orientation scl fuel delta_t :
  (r ← new_Object3D id name origin orientation scl; update (S fuel) r delta_t) w =
  (Ok tt,
   mkWorld
     (<[fresh (dom (heap w)) :=
          mkObject3D id name None [] origin orientation scl true (Some true)
            (compose_local origin orientation scl)
            (compose_local origin orientation scl) Quat_new ∅]> (heap w))
     (trace w) (warnings w)).
Proof.
  rewrite bind_unfold. unfold new_Object3D at 1. cbv zeta.
  set (r := fresh (dom (heap w))).
  set (o0 := mkObject3D id name None [] origin orientation scl false None
               Mat4_identity Mat4_identity Quat_new ∅).
  set (w1 := mkWorld (<[r := o0]> (heap w)) (trace w) (warnings w)).
  assert (heap w1 !! r = Some o0) as E1 by apply lookup_insert_eq.
  rewrite update_S. rewrite (bind_ok _ _ _ _ _ (get_obj_some _ _ _ E1)).
  change (negb (_is_model_valid o0)) with true. cbv iota.
  set (o2 := mkObject3D id name None [] origin orientation scl true (Some true)
               (compose_local origin orientation scl)
               (compose_local origin orientation scl) Quat_new ∅).
  set (w2 := mkWorld (<[r := o2]> (heap w)) (trace w) (warnings w)).
  assert (heap w2 !! r = Some o2) as E2 by apply lookup_insert_eq.
  assert (_revalidateModel r w1 = (Ok tt, w2)) as R.
  { unfold _revalidateModel.
    rewrite (bind_ok _ _ _ _ _ (get_obj_some _ _ _ E1)).
    rewrite (bind_ok _ _ _ _ _ (relocal_run _ _ _ E1)).
    erewrite bind_ok; last first.
    { eapply (_computeWorldModel_run _ r (relocal o0) (compose_local origin orientation scl)).
      - simpl. apply lookup_insert_eq.
      - done. }
    erewrite bind_ok; last first.
    { eapply modify_some. simpl. apply lookup_insert_eq. }
    simpl. rewrite !insert_insert_eq.
    change (with_is_model_valid true
              (with_world_model (compose_local origin orientation scl) (relocal o0)))
      with o2.
    fold w2. rewrite (bind_ok _ _ _ _ _ (get_obj_some _ _ _ E2)).
    rewrite (bind_ok (for_children r [] _) _ w2 tt w2 eq_refl).
    rewrite (bind_ok _ _ _ _ _ (get_obj_some _ _ _ E2)).
    change (negb (truthy (_is_local_model_valid o0))) with true. cbv iota.
    rewrite (bind_ok _ _ w2 tt w2); [|by apply (notify_silent _ _ o2)].
    by apply (notify_silent _ _ o2). }
  rewrite (bind_ok _ _ _ _ _ R).
  rewrite (bind_ok _ _ _ _ _ (get_obj_some _ _ _ E2)). done.
Qed.

(** ** The cached matrices of reachable states *)

(** X16.  In every state reached from no object at all by calls of the
    methods of [Op], which are the public methods but for the raw [parent]
    setter, with the vectors, quaternions and matrices that the getters hand
    out not changed in place by the caller, a node whose world model is
    marked valid holds the local model composed from its current origin,
    orientation and scale, and a world model that is its parent's world
    model, as the parent holds it, times that local model (or the local
    model itself if it has no parent).  The [parent] setter is left out
    because it breaks the links this rests on. *)
Theorem reachable_valid_models_are_current w x o :
  reachable w → heap w !! x = Some o → _is_model_valid o = true →
  _local_model o = compose_local (_origin o) (_orientation o) (_scale o) ∧
  world_eq (heap w) o.
Proof.
  intros Hr E V. pose proof (reachable_scene_ok _ Hr) as Hok. split.
  - by apply (valid_local_model (heap w) x).
  - by apply (ok_world _ Hok x).
Qed.

(** ** The [parent] setter on its own *)

(** X17.  The public [parent] setter writes the [parent] field and marks
    the world model invalid, and that is all: it touches no child set.  So
    pointing an existing node at a parent it is not yet a child of returns
    and leaves a heap that is no longer consistent: the node names the
    parent, and [hasChild] on that parent is still false. *)
Theorem parent_setter_does_not_link w x p ox :
  links_ok (heap w) → heap w !! x = Some ox → is_Some (heap w !! p) →
  _parent ox ≠ Some p →
  ∃ w' ox',
    set_parent x (Some p) w = (Ok tt, w') ∧
    heap w' !! x = Some ox' ∧ _parent ox' = Some p ∧ _is_model_valid ox' = false ∧
    heap_rel (λ _ o o', _children o' = _children o) (heap w) (heap w') ∧
    hasChild p x w' = (Ok false, w') ∧
    ¬ consistent (heap w').
Proof.
  intros Hok Ex [op Ep] Np.
  pose proof (set_parent_some _ _ _ (Some p) Ex) as R.
  match type of R with _ = (_, ?w1) => set (w' := w1) in * end.
  assert (heap w' !! x = Some (with_is_model_valid false (with_parent (Some p) ox))) as Ex'.
  { simpl. by rewrite lookup_alter_eq, Ex. }
  assert (x ∉ _children op) as Nin.
  { intros In. by apply (proj2 Hok p x op ox Ep Ex) in In. }
  assert (∃ op', heap w' !! p = Some op' ∧ _children op' = _children op)
    as (op' & Ep' & Cp').
  { simpl. rewrite lookup_alter. case_decide.
    - subst. rewrite Ep. simpl. eauto.
    - eauto. }
  eexists w', _. split; [done|]. split; [exact Ex'|]. split; [done|]. split; [done|].
  split; [|split].
  - apply heap_rel_alter; done.
  - rewrite (hasChild_some _ _ _ _ Ep'). unfold set_has.
    rewrite bool_decide_eq_false_2; [done|]. by rewrite Cp'.
  - intros Hk. apply Nin. rewrite <- Cp'.
    by apply (Hk p x op' _ Ep' Ex').
Qed.

(** ** The listener calls of [destroy], exactly *)

(** Once the node is detached from its parent, [destroy] goes on as a
    [destroy] of a node without a parent. *)
Lemma destroy_detached fuel this w o p op :
  links_ok (heap w) → heap w !! this = Some o → _parent o = Some p →
  heap w !! p = Some op →
  ∃ w1 o1,
    removeChild p (Some this) w = (Ok true, w1) ∧
    trace w1 = trace w ++ ((λ cb, mkInvocation cb p "remove" [VObject p; VObject this])
                             <$> default [] (_listeners op !! "remove")) ∧
    heap w1 !! this = Some o1 ∧ _parent o1 = None ∧
    destroy (S fuel) this w = destroy (S fuel) this w1.
Proof.
  intros Hok E P Ep.
  assert (this ∈ _children op) as In by (by apply (proj2 Hok p this op o Ep E)).
  pose proof (removeChild_present _ _ _ _ Ep In (ex_intro _ o E)) as R.
  match type of R with _ = (_, ?w0) => set (w1 := w0) in * end.
  assert (heap w1 !! this = Some (with_is_model_valid false (with_parent None
            (if decide (p = this) then with_children (set_delete this (_children o)) o
             else o)))) as E1.
  { simpl. rewrite lookup_alter_eq. rewrite lookup_alter. case_decide.
    - subst. by rewrite E.
    - by rewrite E. }
  eexists w1, _. split; [done|]. split; [done|]. split; [exact E1|]. split; [done|].
  rewrite !destroy_S.
  rewrite (bind_ok _ _ _ _ _ (get_obj_some _ _ _ E)).
  rewrite (bind_ok _ _ _ _ _ (get_obj_some _ _ _ E1)).
  rewrite P. cbn [_parent with_is_model_valid with_parent].
  rewrite ret_bind. erewrite bind_ok; [done|]. by rewrite (bind_ok _ _ _ _ _ R).
Qed.

(** X18.  However it ends, a [destroy] that got to run makes exactly these
    listener calls: the ['remove'] listeners of the node's parent, once
    each and in registration order, with the parent and the node; and none
    at all if the node has no parent. *)
Theorem destroy_calls_the_remove_listeners_of_the_parent fuel this w o :
  links_ok (heap w) → heap w !! this = Some o →
  trace (destroy (S fuel) this w).2 =
  trace w ++
  match _parent o with
  | Some p =>
      (λ cb, mkInvocation cb p "remove" [VObject p; VObject this])
        <$> default [] (heap w !! p ≫= λ op, _listeners op !! "remove")
  | None => []
  end.
Proof.
  intros Hok E.
  assert (∀ w1 o1, heap w1 !! this = Some o1 → _parent o1 = None →
            trace (destroy (S fuel) this w1).2 = trace w1) as Hrest.
  { intros w1 o1 E1 P1. destruct (destroy (S fuel) this w1) as [r w'] eqn:R.
    destruct (destroy_trace _ _ _ _ _ R) as (extra & Ht & Hex). simpl. rewrite Ht.
    destruct extra as [|i extra]; [by rewrite app_nil_r|].
    destruct (Hex i) as (_ & o' & E' & P'); [by left|]. congruence. }
  destruct (_parent o) as [p|] eqn:P.
  - assert (is_Some (heap w !! p)) as [op Ep] by (by apply (proj1 (proj1 Hok _ _ E) p)).
    destruct (destroy_detached fuel this w o p op Hok E P Ep)
      as (w1 & o1 & _ & Ht & E1 & P1 & ->).
    rewrite (Hrest w1 o1 E1 P1), Ht, Ep. done.
  - rewrite (Hrest w o E P). by rewrite app_nil_r.
Qed.

(** ** What [removeChild] returns, and undoing an [addChild] *)

(** X19.  In a closed heap [removeChild] on an existing node always
    returns, and it returns [true] exactly when the object was in the child
    set; either way the object is not a child afterwards. *)
Theorem removeChild_returns_whether_it_removed w this o (target : option ref) :
  closed (heap w) → heap w !! this = Some o →
  ∃ b w',
    removeChild this target w = (Ok b, w') ∧
    (b = true ↔ ∃ c, target = Some c ∧ c ∈ _children o) ∧
    ∀ c, target = Some c → hasChild this c w' = (Ok false, w').
Proof.
  intros Hc E. destruct target as [c|].
  2:{ exists false. eexists. split; [done|]. split; [|done].
      split; [done|]. by intros (c & ? & _). }
  destruct (decide (c ∈ _children o)) as [In|Nin].
  - destruct (removeChild_present_post w this o c E In) as (w' & R & Hh & _).
    { by apply (proj2 (Hc _ _ E) c). }
    exists true, w'. split; [done|]. split; [split; eauto|].
    by intros c' [= <-].
  - exists false. eexists. split; [by apply (removeChild_absent _ _ o)|]. split.
    + split; [done|]. by intros (c' & [= <-] & ?).
    + intros c' [= <-].
      rewrite (hasChild_some _ _ o) by done. unfold set_has.
      by rewrite bool_decide_eq_false_2.
Qed.

Lemma set_delete_fresh (c : ref) (l : list ref) : c ∉ l → set_delete c (l ++ [c]) = l.
Proof.
  intros Nin. unfold set_delete. rewrite filter_app.
  rewrite (filter_cons_False _ c) by (by intros ?). simpl. rewrite app_nil_r.
  induction l as [|a l IH]; [done|].
  apply not_elem_of_cons in Nin as [Ne Nin].
  rewrite filter_cons_True by done. by rewrite IH.
Qed.

(** X20.  [addChild] followed by [removeChild] of the same node is a round
    trip: in a well-linked heap, for a node without a parent, both return
    and the heap is the one before, links, child order and matrices
    included, except that the world model of the node is marked invalid.
    The ['add'] and then the ['remove'] listeners of [this] have been
    called. *)
Theorem addChild_then_removeChild_round_trip w this child o oc :
  links_ok (heap w) →
  heap w !! this = Some o → heap w !! child = Some oc → _parent oc = None →
  ∃ w1,
    addChild this child w = (Ok tt, w1) ∧
    removeChild this (Some child) w1 =
    (Ok true,
     mkWorld (alter (with_is_model_valid false) child (heap w))
       (trace w ++
        ((λ cb, mkInvocation cb this "add" [VObject this; VObject child])
           <$> default [] (_listeners o !! "add")) ++
        ((λ cb, mkInvocation cb this "remove" [VObject this; VObject child])
           <$> default [] (_listeners o !! "remove")))
       (warnings w)).
Proof.
  intros Hok E Ec P.
  assert (child ∉ _children o) as Nin.
  { intros In. apply (proj2 Hok this child o oc E Ec) in In. congruence. }
  pose proof (addChild_fresh _ _ _ _ _ E Ec P Nin) as R1.
  match type of R1 with _ = (_, ?w0) => set (w1 := w0) in * end.
  exists w1. split; [done|].
  assert (∃ o1, heap w1 !! this = Some o1 ∧ _children o1 = _children o ++ [child] ∧
                _listeners o1 = _listeners o) as (o1 & E1 & C1 & L1).
  { simpl. erewrite lookup_alter2_fwd by done.
    eexists. split; [done|].
    destruct (decide (child = this)); rewrite decide_True by done; done. }
  rewrite (removeChild_present w1 this o1 child E1).
  2:{ rewrite C1. apply elem_of_app. right. by apply list_elem_of_singleton. }
  2:{ simpl. rewrite !alter_is_Some. eauto. }
  rewrite L1. simpl. rewrite <- app_assoc. do 2 f_equal.
  apply map_eq. intros y.
  destruct (heap w !! y) as [oy|] eqn:Ey.
  2:{ transitivity (@None Object3D); [|symmetry]; repeat (apply lookup_alter_None);
        done. }
  erewrite lookup_alter2_fwd; [|by apply lookup_alter2_fwd].
  destruct (decide (child = y)) as [->|Nc], (decide (this = y)) as [->|Nt];
    rewrite ?lookup_alter_eq, ?lookup_alter_ne by done; rewrite Ey;
    simpl; f_equal.
  - assert (oy = o) as -> by congruence. assert (oc = o) as -> by congruence.
    clear -P Nin. destruct o. simpl in *. subst.
    unfold with_is_model_valid, with_parent, with_children. simpl.
    by rewrite set_delete_fresh.
  - assert (oy = oc) as -> by congruence.
    clear -P. destruct oc. simpl in *. by subst.
  - assert (oy = o) as -> by congruence.
    clear -Nin. destruct o. simpl in *.
    unfold with_children. simpl. by rewrite set_delete_fresh.
Qed.

(** ** What [destroy] can touch *)

Lemma shrinks_child_of w w' p c :
  w_shrinks w w' → child_of (heap w') p c → child_of (heap w) p c.
Proof.
  intros Hs (op' & Ep' & In).
  destruct (heap_rel_lookup_r _ _ _ _ _ Hs Ep') as (op & Ep & (_ & Hc & _)).
  exists op. auto.
Qed.

Lemma shrinks_reach w w' x y : w_shrinks w w' → reach (heap w') x y → reach (heap w) x y.
Proof.
  intros Hs. apply (rtc_subrel (child_of (heap w'))). intros p c. by apply shrinks_child_of.
Qed.

(** Whatever [destroy] changes is the node, one of its descendants, or its
    parent. *)
Lemma destroy_untouched fuel this w r w' y :
  destroy fuel this w = (r, w') →
  ¬ reach (heap w) this y →
  (∀ o, heap w !! this = Some o → _parent o ≠ Some y) →
  heap w' !! y = heap w !! y.
Proof.
  revert this w r w' y. induction fuel as [|fuel IH]; intros this w r w' y R Ny Py.
  { by injection R as <- <-. }
  rewrite destroy_S in R.
  destruct (heap w !! this) as [o|] eqn:E.
  2:{ rewrite (bind_throw _ _ _ _ _ (get_obj_none _ _ E)) in R. by injection R as <- <-. }
  rewrite (bind_ok _ _ _ _ _ (get_obj_some _ _ _ E)) in R.
  set (P := λ z, reach (heap w) this z ∨ _parent o = Some z).
  set (Q := λ w1 w2, w_shrinks w1 w2 ∧
              (w_shrinks w w1 → ∀ z, ¬ P z → heap w2 !! z = heap w1 !! z)).
  assert (PreOrder Q) as HQ.
  { split.
    - intros w1. split; [reflexivity|done].
    - intros w1 w2 w3 [S12 F12] [S23 F23]. split; [by etrans|].
      intros Hs z Nz. rewrite F23, F12; [done|done|done|by etrans|done]. }
  assert (∀ x f, P x → (∀ o, node_shrinks o (f o)) → always Q (modify x f)) as Hmod.
  { intros x f Px Hf w1 r1 w2 R1. split; [by eapply modify_shrinks|].
    intros _ z Nz. destruct (heap w1 !! x) as [ox|] eqn:Ex.
    - rewrite (modify_alter _ _ _ _ Ex) in R1. injection R1 as _ <-. simpl.
      rewrite lookup_alter_ne; [done|]. by intros <-.
    - rewrite (modify_none _ _ _ Ex) in R1. by injection R1 as _ <-. }
  assert (∀ x ev args, always Q (notify x ev args)) as Hnot.
  { intros x ev args. apply always_notify; [apply _|]. intros w1 t.
    split; [|done]. apply heap_rel_refl. intros. apply node_shrinks_refl. }
  assert (∀ msg, always Q (wl msg)) as Hwl.
  { intros msg. apply always_wl. intros w1.
    split; [|done]. apply heap_rel_refl. intros. apply node_shrinks_refl. }
  assert (∀ x (target : option ref), P x → (∀ c, target = Some c → P c) →
            always Q (removeChild x target)) as Hrem.
  { intros x target Px Pt. unfold removeChild, hasChild, set_parent, _invalidateModel.
    walk; first [apply Hnot|apply Hwl|apply Hmod; [by auto|intros ?]].
    - split; [by left|]. split; [|by left].
      simpl. by intros c [_ ?]%elem_of_set_delete.
    - split; [by right|]. split; [done|by left].
    - split; [by left|]. split; [done|by left]. }
  assert (P this) as Pthis by (left; apply rtc_refl).
  assert (always Q
    (match _parent o with
     | Some parent => removeChild parent (Some this);; mret tt
     | None => mret tt
     end;;
     clearListeners this;;
     o ← get_obj this;
     for_children this (_children o)
       (λ child, removeChild this (Some child);; destroy fuel child);;
     notify this "destroy" [])) as HM;
    [|destruct (HM _ _ _ R) as [_ HF]; apply HF; [reflexivity|];
      intros [?|?]; [done|by eapply Py]].
  apply always_bind; [apply _| |intros _].
  { destruct (_parent o) as [p|] eqn:Pp; [|apply always_ret, _].
    apply always_bind; [apply _| |intros _; apply always_ret, _].
    apply Hrem; [by right|by intros c [= <-]]. }
  apply always_bind; [apply _| |intros _].
  { apply Hmod; [done|]. intros ?. split; [by left|]. split; [done|by right]. }
  apply always_bind; [apply _|apply always_get_obj, _|intros o1].
  apply always_bind; [apply _| |intros _; apply Hnot].
  apply always_for_children_live; [apply _|].
  intros c w1 r2 w3 Hc R3. split.
  { eapply (always_bind w_shrinks); [apply removeChild_shrinks| |exact R3].
    intros ?. apply destroy_shrinks. }
  intros Hs1 z Nz.
  assert (P c) as Pc.
  { left. eapply rtc_l; [|apply rtc_refl]. by eapply shrinks_child_of. }
  apply bind_inv in R3 as [(e & R3 & _)|(b & w2 & R3 & R3')].
  { destruct (Hrem this (Some c) Pthis (λ c' (Ec : Some c = Some c'),
                eq_ind c P Pc c' (Some_inj _ _ Ec)) _ _ _ R3) as [_ HF']. by apply HF'. }
  pose proof (removeChild_shrinks _ _ _ _ _ R3) as Hs2.
  destruct (Hrem this (Some c) Pthis (λ c' (Ec : Some c = Some c'),
              eq_ind c P Pc c' (Some_inj _ _ Ec)) _ _ _ R3) as [_ HF2].
  rewrite <- (HF2 Hs1 z Nz).
  apply (IH c w2 r2 w3 z R3').
  - intros Hz. apply Nz. left.
    eapply rtc_l; [by eapply shrinks_child_of|].
    eapply shrinks_reach; [|exact Hz]. by etrans.
  - intros oc2 Ec2 Pz. destruct Hc as (o1' & E1 & In).
    destruct (heap w1 !! c) as [oc|] eqn:Ec.
    + rewrite (removeChild_present _ _ _ _ E1 In) in R3 by eauto.
      injection R3 as _ <-. simpl in Ec2. rewrite lookup_alter_eq in Ec2.
      destruct (alter _ this (heap w1) !! c); simplify_eq/=.
    + by rewrite (removeChild_dangling _ _ _ _ E1 In Ec) in R3.
Qed.

(** X21.  However it ends, [destroy] leaves every object exactly as it was
    that is neither the node, nor one of its descendants, nor its
    parent. *)
Theorem destroy_touches_only_subtree_and_parent fuel this w y :
  ¬ reach (heap w) this y →
  (∀ o, heap w !! this = Some o → _parent o ≠ Some y) →
  heap (destroy fuel this w).2 !! y = heap w !! y.
Proof.
  intros Ny Py. destruct (destroy fuel this w) as [r w'] eqn:R.
  by apply (destroy_untouched fuel this w r w' y).
Qed.

(** ** The argument of [update] *)

Lemma for_children_ext this cs (body body' : ref → M unit) w :
  (∀ c w, body c w = body' c w) →
  for_children this cs body w = for_children this cs body' w.
Proof.
  intros Hb. revert w. induction cs as [|c cs IH]; intros w; [done|].
  rewrite !for_children_cons. apply bind_ext. intros o w1.
  destruct (set_has c (_children o)); [|apply IH].
  rewrite !bind_unfold, Hb. destruct (body' c w1) as [[[]|e] w2]; [apply IH|done].
Qed.

(** X22.  [update] never looks at its argument: whatever [delta_t] is, the
    call ends the same way in the same state. *)
Theorem update_ignores_delta_t fuel this (d1 d2 : Num) w :
  update fuel this d1 w = update fuel this d2 w.
Proof.
  revert this w. induction fuel as [|fuel IH]; intros this w; [done|].
  rewrite !update_S. apply bind_ext. intros o w1.
  apply bind_ext. intros _ w2. apply bind_ext. intros o2 w3.
  apply for_children_ext. intros c w4. apply IH.
Qed.

End Properties.

(** * The theorems on the concrete scene *)

#[local] Existing Instance Zmath.math.

(** Settles a decidable statement about a concrete scene by evaluating its
    decision procedure. *)
Ltac by_compute :=
  match goal with
  | |- ?P => apply (bool_decide_unpack P); vm_compute; exact I
  end.

Lemma Zmath_multiply_identity_l (m : Zmath.M44) :
  Zmath.m_multiply Zmath.m_identity m = m.
Proof.
  destruct m as [[[[[[a0 a1] a2] a3] [[[b0 b1] b2] b3]] [[[c0 c1] c2] c3]] [[[d0 d1] d2] d3]].
  unfold Zmath.m_multiply, Zmath.m_identity, Zmath.row_times, Zmath.dot, Zmath.col.
  repeat f_equal; lia.
Qed.

Lemma Zmath_post_multiplying : post_multiplying.
Proof.
  split; intros m v; unfold TranslateM, RotateM, ScaleM;
    cbv [Mat4_translate Mat4_rotateQuat Mat4_scaleVec Mat4_multiply Mat4_identity
         Zmath.math];
    by rewrite Zmath_multiply_identity_l.
Qed.

Lemma Demo_scene_reachable : reachable Demo.scene.
Proof. apply reachable_exec_all, reachable_empty. Qed.

Lemma Demo_scene_ok : scene_ok (heap Demo.scene).
Proof. apply reachable_scene_ok, Demo_scene_reachable. Qed.

Lemma Demo_scene_ranked : ranked Demo.height (heap Demo.scene).
Proof. by_compute. Qed.

Lemma Demo_moved_ok : scene_ok (heap Demo.moved).
Proof. apply reachable_scene_ok, reachable_step, Demo_scene_reachable. Qed.

Lemma Demo_moved_ranked : ranked Demo.height (heap Demo.moved).
Proof. by_compute. Qed.

Lemma Demo_observed_ok : links_ok (heap Demo.observed).
Proof.
  apply scene_ok_links_ok, reachable_scene_ok, reachable_exec_all, Demo_scene_reachable.
Qed.

Lemma Demo_observed_ranked : ranked Demo.height (heap Demo.observed).
Proof. by_compute. Qed.

Lemma child_of_computed (h : gmap ref Object3D) p c cs :
  _children <$> h !! p = Some cs → c ∈ cs → child_of h p c.
Proof.
  destruct (h !! p) as [op|] eqn:E; [|done]. intros [= <-] In. by exists op.
Qed.

Lemma Demo_child_of_root : child_of (heap Demo.scene) 0 1.
Proof. apply (child_of_computed _ 0 1 [1]); [by_compute|by left]. Qed.

Lemma Demo_leaf_of_child : child_of (heap Demo.scene) 1 2.
Proof. apply (child_of_computed _ 1 2 [2]); [by_compute|by left]. Qed.

(** C1 on the scene whose root has moved: the update returns with three
    frames of stack. *)
Lemma update_composes_world_models_witness :
  ∃ w', update 3 0 0%Z Demo.moved = (Ok tt, w') ∧
    ∀ y, reach (heap Demo.moved) 0 y →
      ∃ oy, heap w' !! y = Some oy ∧ _is_model_valid oy = true ∧
        match _parent oy with
        | Some p => ∃ po, heap w' !! p = Some po ∧
            _world_model oy = Mat4_multiply (_world_model po) (_local_model oy)
        | None => _world_model oy = _local_model oy
        end.
Proof.
  apply (update_composes_world_models (H := Zmath.math) Demo.height 3 0 0%Z Demo.moved).
  - apply Demo_moved_ok.
  - apply Demo_moved_ranked.
  - by_compute.
  - unfold Demo.height. lia.
Defined.


(** C3 on the scene: six mutations, then the local model of the child. *)
Lemma local_model_from_latest_values_witness :
  ∃ w' o1 o',
    update 3 0 0%Z (exec_all Demo.mutations Demo.scene) = (Ok tt, w') ∧
    heap (exec_all Demo.mutations Demo.scene) !! 1 = Some o1 ∧ heap w' !! 1 = Some o' ∧
    _local_model o' = TRS (_origin o1) (_orientation o1) (_scale o1) ∧
    _origin o' = _origin o1 ∧ _orientation o' = _orientation o1 ∧ _scale o' = _scale o1.
Proof.
  apply (local_model_from_latest_values (H := Zmath.math) Demo.height 3 0 0%Z Demo.mutations Demo.scene 1).
  - apply Zmath_post_multiplying.
  - apply Demo_scene_ok.
  - apply Demo_scene_ranked.
  - by_compute.
  - unfold Demo.height. lia.
  - eapply rtc_l; [apply Demo_child_of_root|apply rtc_refl].
  - reflexivity.
Defined.

(** C4 on the child of the scene. *)
Lemma local_invalid_world_valid_unreachable_witness :
  ∃ o, heap Demo.scene !! 1 = Some o ∧
       ¬ (truthy (_is_local_model_valid o) = false ∧ _is_model_valid o = true).
Proof.
  assert (is_Some (heap Demo.scene !! 1)) as [o E] by by_compute.
  exists o. split; [exact E|].
  apply (local_invalid_world_valid_unreachable (H := Zmath.math) Demo.scene 1 o);
    [apply Demo_scene_reachable|exact E].
Defined.

(** C5 on the scene: the leaf already has a parent. *)
Lemma addChild_parented_fails_witness :
  addChild 0 2 Demo.scene =
  (Throw (JsError "Unable to add the specified object to this node as it already has a parent."),
   Demo.scene).
Proof.
  assert (is_Some (heap Demo.scene !! 2)) as [obj E] by by_compute.
  assert (_parent <$> heap Demo.scene !! 2 = Some (Some 1)) as P by by_compute.
  rewrite E in P. injection P as P.
  apply (addChild_parented_fails (H := Zmath.math) Demo.scene 0 2 obj 1 E P).
Defined.

(** C6 on the child and the leaf of the scene. *)
Lemma reachable_links_consistent_witness :
  ∃ op oc, heap Demo.scene !! 1 = Some op ∧ heap Demo.scene !! 2 = Some oc ∧
           (2 ∈ _children op ↔ _parent oc = Some 1).
Proof.
  assert (is_Some (heap Demo.scene !! 1)) as [op Ep] by by_compute.
  assert (is_Some (heap Demo.scene !! 2)) as [oc Ec] by by_compute.
  exists op, oc. split; [exact Ep|]. split; [exact Ec|].
  apply (reachable_links_consistent (H := Zmath.math) Demo.scene 1 2 op oc);
    [apply Demo_scene_reachable|exact Ep|exact Ec].
Defined.

(** C7 on the root and the stray object. *)
Lemma addChild_removeChild_restores_witness :
  ∃ w1 w2,
    addChild 0 3 Demo.with_stray = (Ok tt, w1) ∧
    removeChild 0 (Some 3) w1 = (Ok true, w2) ∧
    hasChild 0 3 w2 = (Ok false, w2) ∧
    ∃ oc', heap w2 !! 3 = Some oc' ∧
           _parent oc' = None ∧ _is_model_valid oc' = false.
Proof.
  assert (is_Some (heap Demo.with_stray !! 0)) as [o E] by by_compute.
  assert (is_Some (heap Demo.with_stray !! 3)) as [oc Ec] by by_compute.
  assert (_parent <$> heap Demo.with_stray !! 3 = Some None) as P by by_compute.
  rewrite Ec in P. injection P as P.
  apply (addChild_removeChild_restores (H := Zmath.math) Demo.with_stray 0 3 o oc E Ec P).
Defined.

(** C8 on the observed scene: a subtree of depth 2 under the root. *)
Lemma destroy_detaches_subtree_witness :
  ∃ w', destroy 3 0 Demo.observed = (Ok tt, w') ∧
    ∀ d, reach (heap Demo.observed) 0 d →
      (∃ od, heap w' !! d = Some od ∧ _parent od = None ∧ _listeners od = ∅) ∧
      (∀ x ox, heap w' !! x = Some ox → d ∉ _children ox).
Proof.
  apply (destroy_detaches_subtree (H := Zmath.math) Demo.height 3 0 Demo.observed).
  - apply Demo_observed_ok.
  - apply Demo_observed_ranked.
  - by_compute.
  - unfold Demo.height. lia.
Defined.

(** C9 on the child of the scene. *)
Lemma origin_setter_notifies_in_order_witness :
  ∃ w' o',
    (on 1 "origin" 21;; on 1 "origin" 22;; set_origin 1 (7, 8, 9)%Z) Demo.scene
      = (Ok tt, w') ∧
    trace w' = trace Demo.scene ++
                 [mkInvocation 21 1 "origin" [VVec3 (7, 8, 9)%Z];
                  mkInvocation 22 1 "origin" [VVec3 (7, 8, 9)%Z]] ∧
    heap w' !! 1 = Some o' ∧ _origin o' = (7, 8, 9)%Z.
Proof.
  assert (is_Some (heap Demo.scene !! 1)) as [o E] by by_compute.
  assert ((λ o, _listeners o !! "origin") <$> heap Demo.scene !! 1 = Some None) as L
    by by_compute.
  rewrite E in L. injection L as L.
  apply (origin_setter_notifies_in_order (H := Zmath.math) Demo.scene 1 o 21 22
           (7, 8, 9)%Z E L).
Defined.

(** ** The further properties on the concrete scenes *)

Lemma Demo_scene_links : links_ok (heap Demo.scene).
Proof. apply scene_ok_links_ok, Demo_scene_ok. Qed.

Lemma Demo_with_stray_links : links_ok (heap Demo.with_stray).
Proof.
  apply scene_ok_links_ok, reachable_scene_ok, reachable_step, Demo_scene_reachable.
Qed.

Lemma Demo_knot_links : links_ok (heap Demo.knot).
Proof.
  apply scene_ok_links_ok, reachable_scene_ok, reachable_exec_all, reachable_empty.
Qed.

(** A set of nodes that holds the children of each of its nodes holds all
    that its nodes reach. *)
Lemma reach_within (h : gmap ref Object3D) (nodes : list ref) x y :
  map_Forall (λ p op, p ∈ nodes → Forall (λ c, c ∈ nodes) (_children op)) h →
  x ∈ nodes → reach h x y → y ∈ nodes.
Proof.
  intros Hn Hx. unfold reach. revert y. apply rtc_ind_r; [done|].
  intros y z _ (oy & Ey & In) Hy.
  pose proof (Hn y oy Ey Hy) as Hf. rewrite Forall_forall in Hf. auto.
Qed.

Lemma valid_in_computed (w : World) y :
  _is_model_valid <$> heap w !! y = Some true → valid_in w y.
Proof.
  destruct (heap w !! y) as [oy|] eqn:E; [|done]. intros [= V]. by exists oy.
Qed.

Lemma Demo_scene_reach y : reach (heap Demo.scene) 0 y → y ∈ [0; 1; 2].
Proof. apply reach_within; [by_compute|by left]. Qed.

(** X1 on the scene: the leaf is not a child of the root. *)
Lemma removeChild_of_a_stranger_witness :
  removeChild 0 (Some 2) Demo.scene =
  (Ok false, mkWorld (heap Demo.scene) (trace Demo.scene)
               (warnings Demo.scene ++ [NotAChild (Some 2)])).
Proof.
  assert (is_Some (heap Demo.scene !! 0)) as [o E] by by_compute.
  assert (_children <$> heap Demo.scene !! 0 = Some [1]) as C by by_compute.
  rewrite E in C. injection C as C.
  apply (removeChild_of_a_stranger (H := Zmath.math) Demo.scene 0 o (Some 2) E).
  intros child [= <-]. rewrite C. by_compute.
Defined.

(** X2 on the scene: the child is added to the root a second time. *)
Lemma addChild_never_warns_witness :
  ∃ r w', addChild 0 1 Demo.scene = (r, w') ∧
    warnings w' = warnings Demo.scene ∧
    (child_of (heap Demo.scene) 0 1 →
     r = Throw (JsError "Unable to add the specified object to this node as it already has a parent.") ∧
     w' = Demo.scene).
Proof.
  destruct (addChild 0 1 Demo.scene) as [r w'] eqn:R. exists r, w'.
  split; [reflexivity|].
  apply (addChild_never_warns (H := Zmath.math) Demo.scene 0 1 r w' Demo_scene_links R).
Defined.

(** X3 on the root and the stray object. *)
Lemma addChild_links_the_child_witness :
  ∃ o w' o' obj',
    heap Demo.with_stray !! 0 = Some o ∧
    addChild 0 3 Demo.with_stray = (Ok tt, w') ∧
    heap w' !! 0 = Some o' ∧ _children o' = _children o ++ [3] ∧
    heap w' !! 3 = Some obj' ∧ _parent obj' = Some 0 ∧
    _is_model_valid obj' = false ∧
    (∀ y, y ≠ 0 → y ≠ 3 → heap w' !! y = heap Demo.with_stray !! y) ∧
    links_ok (heap w') ∧
    trace w' = trace Demo.with_stray ++
                 ((λ cb, mkInvocation cb 0 "add" [VObject 0; VObject 3])
                    <$> default [] (_listeners o !! "add")) ∧
    warnings w' = warnings Demo.with_stray.
Proof.
  assert (is_Some (heap Demo.with_stray !! 0)) as [o E] by by_compute.
  assert (is_Some (heap Demo.with_stray !! 3)) as [obj Eo] by by_compute.
  assert (_parent <$> heap Demo.with_stray !! 3 = Some None) as P by by_compute.
  rewrite Eo in P. injection P as P.
  destruct (addChild_links_the_child (H := Zmath.math) Demo.with_stray 0 3 o obj
              Demo_with_stray_links E Eo P) as (w' & o' & obj' & Hw).
  exists o, w', o', obj'. split; [exact E|exact Hw].
Defined.

(** X4 on the scene: the leaf moves from the child to the root. *)
Lemma removeChild_then_addChild_moves_witness :
  ∃ w1 w2 oc,
    removeChild 1 (Some 2) Demo.scene = (Ok true, w1) ∧
    addChild 0 2 w1 = (Ok tt, w2) ∧
    heap w2 !! 2 = Some oc ∧ _parent oc = Some 0 ∧ _is_model_valid oc = false ∧
    hasChild 0 2 w2 = (Ok true, w2) ∧
    (1 ≠ 0 → hasChild 1 2 w2 = (Ok false, w2)) ∧
    links_ok (heap w2).
Proof.
  assert (is_Some (heap Demo.scene !! 1)) as [op Ep] by by_compute.
  assert (_children <$> heap Demo.scene !! 1 = Some [2]) as C by by_compute.
  rewrite Ep in C. injection C as C.
  apply (removeChild_then_addChild_moves (H := Zmath.math) Demo.scene 1 0 2 op
           Demo_scene_links Ep).
  - rewrite C. by left.
  - by_compute.
Defined.

(** X5 on the observed scene: the root has one child and a ['remove']
    listener. *)
Lemma clearChildren_detaches_every_child_witness :
  ∃ o w' o',
    heap Demo.observed !! 0 = Some o ∧
    clearChildren 0 Demo.observed = (Ok tt, w') ∧
    heap w' !! 0 = Some o' ∧ _children o' = [] ∧
    (∀ c, c ∈ _children o → ∃ oc, heap w' !! c = Some oc ∧
                                  _parent oc = None ∧ _is_model_valid oc = false) ∧
    (∀ y, y ≠ 0 → y ∉ _children o → heap w' !! y = heap Demo.observed !! y) ∧
    links_ok (heap w') ∧
    trace w' = trace Demo.observed ++
                 remove_calls 0 (default [] (_listeners o !! "remove")) (_children o) ∧
    warnings w' = warnings Demo.observed.
Proof.
  assert (is_Some (heap Demo.observed !! 0)) as [o E] by by_compute.
  assert (_children <$> heap Demo.observed !! 0 = Some [1]) as C by by_compute.
  rewrite E in C. injection C as C.
  destruct (clearChildren_detaches_every_child (H := Zmath.math) Demo.observed 0 o
              Demo_observed_ok E) as (w' & o' & Hw).
  - rewrite C. apply NoDup_singleton.
  - exists o, w', o'. split; [exact E|exact Hw].
Defined.

(** X6 on the knot: two nodes, each the child of the other. *)
Lemma destroy_returns_on_any_graph_witness :
  ∃ w', destroy 3 0 Demo.knot = (Ok tt, w') ∧
    links_ok (heap w') ∧
    ∀ d, reach (heap Demo.knot) 0 d →
      ∃ od, heap w' !! d = Some od ∧
            _parent od = None ∧ _children od = [] ∧ _listeners od = ∅.
Proof.
  apply (destroy_returns_on_any_graph (H := Zmath.math) 3 0 Demo.knot Demo_knot_links);
    by_compute.
Defined.

(** X7 on the observed scene. *)
Lemma destroy_twice_is_destroy_once_witness :
  ∃ w', destroy 3 0 Demo.observed = (Ok tt, w') ∧ destroy 3 0 w' = (Ok tt, w').
Proof.
  apply (destroy_twice_is_destroy_once (H := Zmath.math) 3 0 Demo.observed
           Demo_observed_ok); by_compute.
Defined.

(** X8 on the scene, which was updated last. *)
Lemma update_of_a_valid_tree_changes_nothing_witness :
  update 3 0 0%Z Demo.scene = (Ok tt, Demo.scene).
Proof.
  apply (update_of_a_valid_tree_changes_nothing (H := Zmath.math) Demo.height 3 0 0%Z
           Demo.scene Demo_scene_ranked).
  - unfold Demo.height. lia.
  - intros y Hy%Demo_scene_reach.
    assert (Forall (λ y, _is_model_valid <$> heap Demo.scene !! y = Some true) [0; 1; 2])
      as Hv by by_compute.
    rewrite Forall_forall in Hv. apply valid_in_computed, Hv, Hy.
Defined.

(** X9 on the scene whose root has moved. *)
Lemma update_twice_is_update_once_witness :
  ∃ w', update 3 0 0%Z Demo.moved = (Ok tt, w') ∧ update 3 0 0%Z w' = (Ok tt, w').
Proof.
  apply (update_twice_is_update_once (H := Zmath.math) Demo.height 3 0 0%Z Demo.moved).
  - apply Demo_moved_ok.
  - apply Demo_moved_ranked.
  - by_compute.
  - unfold Demo.height. lia.
Defined.

Lemma Demo_knot_0_1 : child_of (heap Demo.knot) 0 1.
Proof. apply (child_of_computed _ 0 1 [1]); [by_compute|by left]. Qed.

Lemma Demo_knot_1_0 : child_of (heap Demo.knot) 1 0.
Proof. apply (child_of_computed _ 1 0 [0]); [by_compute|by left]. Qed.

(** X11 on the knot, with a stack of a hundred frames. *)
Lemma update_above_a_cycle_always_throws_witness :
  ∃ e w', update 100 0 0%Z Demo.knot = (Throw e, w').
Proof.
  apply (update_above_a_cycle_always_throws (H := Zmath.math) 100 0 0 1 0%Z Demo.knot).
  - apply rtc_refl.
  - apply Demo_knot_0_1.
  - apply rtc_once, Demo_knot_1_0.
Defined.

(** X12 on the scene: the root is added as a child of the leaf. *)
Lemma addChild_of_the_root_breaks_update_witness :
  ∃ w', addChild 2 0 Demo.scene = (Ok tt, w') ∧
        ∀ fuel delta_t, ∃ e w'', update fuel 0 delta_t w' = (Throw e, w'').
Proof.
  assert (is_Some (heap Demo.scene !! 0)) as [o E] by by_compute.
  assert (_parent <$> heap Demo.scene !! 0 = Some None) as P by by_compute.
  rewrite E in P. injection P as P.
  apply (addChild_of_the_root_breaks_update (H := Zmath.math) Demo.scene 0 2 o
           Demo_scene_links E P).
  eapply rtc_l; [apply Demo_child_of_root|]. apply rtc_once, Demo_leaf_of_child.
Defined.

(** X13 on the child of the scene, translated. *)
Lemma property_mutation_is_lazy_and_local_witness :
  ∃ o w' o',
    heap Demo.scene !! 1 = Some o ∧
    run (Translate 1 (1, 0, 0)%Z) Demo.scene = (Ok tt, w') ∧
    heap w' !! 1 = Some o' ∧ node_keeps_models o o' ∧
    _is_model_valid o' = false ∧ _is_local_model_valid o' = Some false ∧
    (∀ y, y ≠ 1 → heap w' !! y = heap Demo.scene !! y) ∧
    warnings w' = warnings Demo.scene.
Proof.
  assert (is_Some (heap Demo.scene !! 1)) as [o E] by by_compute.
  destruct (property_mutation_is_lazy_and_local (H := Zmath.math)
              (@Translate Zmath.math 1 (1, 0, 0)%Z) 1 Demo.scene o eq_refl eq_refl E)
    as (w' & o' & Hw).
  exists o, w', o'. split; [exact E|exact Hw].
Defined.

(** X14 on the root of the scene after it has moved: its local model is
    recomputed. *)
Lemma _revalidateModel_events_witness :
  ∃ o w' o',
    heap Demo.moved !! 0 = Some o ∧
    _revalidateModel 0 Demo.moved = (Ok tt, w') ∧
    heap w' !! 0 = Some o' ∧
    _local_model o' =
      (if truthy (_is_local_model_valid o) then _local_model o
       else compose_local (_origin o) (_orientation o) (_scale o)) ∧
    trace w' =
      trace Demo.moved ++
      (if truthy (_is_local_model_valid o) then []
       else (λ cb, mkInvocation cb 0 "localModel" [VMat4 (_local_model o')])
              <$> default [] (_listeners o !! "localModel")) ++
      ((λ cb, mkInvocation cb 0 "model" [VMat4 (_world_model o')])
         <$> default [] (_listeners o !! "model")) ∧
    warnings w' = warnings Demo.moved.
Proof.
  assert (is_Some (heap Demo.moved !! 0)) as [o E] by by_compute.
  destruct (_revalidateModel_events (H := Zmath.math) Demo.moved 0 o
              (ok_closed _ Demo_moved_ok) E) as (w' & o' & Hw).
  exists o, w', o'. split; [exact E|exact Hw].
Defined.

(** X16 on the child of the scene. *)
Lemma reachable_valid_models_are_current_witness :
  ∃ o, heap Demo.scene !! 1 = Some o ∧
       _local_model o = compose_local (_origin o) (_orientation o) (_scale o) ∧
       world_eq (heap Demo.scene) o.
Proof.
  assert (is_Some (heap Demo.scene !! 1)) as [o E] by by_compute.
  assert (_is_model_valid <$> heap Demo.scene !! 1 = Some true) as V by by_compute.
  rewrite E in V. injection V as V.
  exists o. split; [exact E|].
  apply (reachable_valid_models_are_current (H := Zmath.math) Demo.scene 1 o
           Demo_scene_reachable E V).
Defined.

(** X17 on the stray object, pointed at the root. *)
Lemma parent_setter_does_not_link_witness :
  ∃ w' ox',
    set_parent 3 (Some 0) Demo.with_stray = (Ok tt, w') ∧
    heap w' !! 3 = Some ox' ∧ _parent ox' = Some 0 ∧ _is_model_valid ox' = false ∧
    heap_rel (λ _ o o', _children o' = _children o) (heap Demo.with_stray) (heap w') ∧
    hasChild 0 3 w' = (Ok false, w') ∧
    ¬ consistent (heap w').
Proof.
  assert (is_Some (heap Demo.with_stray !! 3)) as [ox E] by by_compute.
  assert (_parent <$> heap Demo.with_stray !! 3 = Some None) as P by by_compute.
  rewrite E in P. injection P as P.
  apply (parent_setter_does_not_link (H := Zmath.math) Demo.with_stray 3 0 ox
           Demo_with_stray_links E).
  - by_compute.
  - rewrite P. discriminate.
Defined.

(** X18 on the child of the observed scene, whose parent has one
    ['remove'] listener. *)
Lemma destroy_calls_the_remove_listeners_of_the_parent_witness :
  ∃ o, heap Demo.observed !! 1 = Some o ∧
    trace (destroy 2 1 Demo.observed).2 =
    trace Demo.observed ++
    match _parent o with
    | Some p =>
        (λ cb, mkInvocation cb p "remove" [VObject p; VObject 1])
          <$> default [] (heap Demo.observed !! p ≫= λ op, _listeners op !! "remove")
    | None => []
    end.
Proof.
  assert (is_Some (heap Demo.observed !! 1)) as [o E] by by_compute.
  exists o. split; [exact E|].
  apply (destroy_calls_the_remove_listeners_of_the_parent (H := Zmath.math) 1 1
           Demo.observed o Demo_observed_ok E).
Defined.

(** X19 on the scene: the child is removed from the root. *)
Lemma removeChild_returns_whether_it_removed_witness :
  ∃ o b w',
    heap Demo.scene !! 0 = Some o ∧
    removeChild 0 (Some 1) Demo.scene = (Ok b, w') ∧
    (b = true ↔ ∃ c, Some 1 = Some c ∧ c ∈ _children o) ∧
    ∀ c, Some 1 = Some c → hasChild 0 c w' = (Ok false, w').
Proof.
  assert (is_Some (heap Demo.scene !! 0)) as [o E] by by_compute.
  destruct (removeChild_returns_whether_it_removed (H := Zmath.math) Demo.scene 0 o
              (Some 1) (ok_closed _ Demo_scene_ok) E) as (b & w' & Hw).
  exists o, b, w'. split; [exact E|exact Hw].
Defined.

(** X20 on the root and the stray object. *)
Lemma addChild_then_removeChild_round_trip_witness :
  ∃ o w1,
    heap Demo.with_stray !! 0 = Some o ∧
    addChild 0 3 Demo.with_stray = (Ok tt, w1) ∧
    removeChild 0 (Some 3) w1 =
    (Ok true,
     mkWorld (alter (with_is_model_valid false) 3 (heap Demo.with_stray))
       (trace Demo.with_stray ++
        ((λ cb, mkInvocation cb 0 "add" [VObject 0; VObject 3])
           <$> default [] (_listeners o !! "add")) ++
        ((λ cb, mkInvocation cb 0 "remove" [VObject 0; VObject 3])
           <$> default [] (_listeners o !! "remove")))
       (warnings Demo.with_stray)).
Proof.
  assert (is_Some (heap Demo.with_stray !! 0)) as [o E] by by_compute.
  assert (is_Some (heap Demo.with_stray !! 3)) as [oc Ec] by by_compute.
  assert (_parent <$> heap Demo.with_stray !! 3 = Some None) as P by by_compute.
  rewrite Ec in P. injection P as P.
  destruct (addChild_then_removeChild_round_trip (H := Zmath.math) Demo.with_stray 0 3
              o oc Demo_with_stray_links E Ec P) as (w1 & Hw).
  exists o, w1. split; [exact E|exact Hw].
Defined.

(** X21 on the scene with the stray object: destroying the child leaves
    the stray object alone. *)
Lemma destroy_touches_only_subtree_and_parent_witness :
  heap (destroy 2 1 Demo.with_stray).2 !! 3 = heap Demo.with_stray !! 3.
Proof.
  apply (destroy_touches_only_subtree_and_parent (H := Zmath.math) 2 1 Demo.with_stray 3).
  - intros Hr. apply (reach_within _ [1; 2]) in Hr; [|by_compute|by left].
    revert Hr. by_compute.
  - intros o E.
    assert (_parent <$> heap Demo.with_stray !! (1 : ref) = Some (Some 0)) as P
      by by_compute.
    rewrite E in P. injection P as ->. discriminate.
Defined.

(** ** The scenarios of the spec, evaluated *)

(** A child moved by [translateX(5)] under a root at the origin: after one
    update its world model, and that of its own child, translates by
    (5, 0, 0). *)
Example child_world_model_after_update :
  _world_model <$> heap Demo.scene !! 1 = Some (Zmath.m_Translate (5, 0, 0)%Z) ∧
  _world_model <$> heap Demo.scene !! 2 = Some (Zmath.m_Translate (5, 0, 0)%Z).
Proof. split; vm_compute; reflexivity. Qed.

(** The root is translated by (1, 0, 0): until the next update the child
    still holds the old world model, marked valid; the update brings the
    child and the leaf to (6, 0, 0). *)
Example cached_world_model_is_stale_until_update :
  (λ o, (_is_model_valid o, _world_model o)) <$> heap Demo.moved !! 1
    = Some (true, Zmath.m_Translate (5, 0, 0)%Z) ∧
  _world_model <$> heap (exec (Update 3 0 0%Z) Demo.moved) !! 1
    = Some (Zmath.m_Translate (6, 0, 0)%Z) ∧
  _world_model <$> heap (exec (Update 3 0 0%Z) Demo.moved) !! 2
    = Some (Zmath.m_Translate (6, 0, 0)%Z).
Proof. repeat split; vm_compute; reflexivity. Qed.

(** Destroying the child calls the ['remove'] listener of the root and no
    other: neither the child's own ['remove'] listener nor any ['destroy']
    listener. *)
Example destroy_calls_the_parent_only :
  (λ i, (inv_callback i, inv_target i, inv_event i))
    <$> trace (exec (Destroy 2 1) Demo.observed)
  = [(10, 0, "remove")].
Proof. vm_compute. reflexivity. Qed.

(** On a cycle of child sets [update] runs out of stack. *)
Example update_overflows_on_a_cycle :
  (update 100 0 0%Z Demo.knot).1 = Throw StackOverflow.
Proof. vm_compute. reflexivity. Qed.

(** * The path of a shader program *)

Lemma endsWith_app (s suffix : string) :
  Gl.endsWith (s ++ suffix)%string suffix = true.
Proof.
  induction s as [|a s IH]; simpl.
  - destruct suffix; simpl; [done|]. by rewrite Ascii.eqb_refl, String.eqb_refl.
  - rewrite IH. apply orb_true_r.
Qed.

(** X23.  The shader directory may be given with or without its final
    slash: for a directory that does not end in ['/'], constructing a
    [Program] with it and constructing one with the slash appended give the
    same program, or the same error if the name is missing. *)
Theorem new_Program_adds_the_missing_slash
    {WebGLContext WebGLShader WebGLProgram WebGLLocation : Type}
    (ACTIVE_UNIFORMS ACTIVE_ATTRIBUTES : Z)
    (context : option WebGLContext) (name : option string) (dir : string) :
  Gl.endsWith dir "/" = false →
  Gl.new_Program (WebGLShader := WebGLShader) (WebGLProgram := WebGLProgram)
    (WebGLLocation := WebGLLocation) ACTIVE_UNIFORMS ACTIVE_ATTRIBUTES
    context name (Some dir) =
  Gl.new_Program ACTIVE_UNIFORMS ACTIVE_ATTRIBUTES context name
    (Some (dir ++ "/")%string).
Proof.
  intros Hd. unfold Gl.new_Program. simpl.
  rewrite Hd, endsWith_app. done.
Qed.

(** X23 on the directory of the test program. *)
Lemma new_Program_adds_the_missing_slash_witness :
  Gl.new_Program (WebGLContext := unit) (WebGLShader := unit) (WebGLProgram := unit)
    (WebGLLocation := unit) 35718 35721 None (Some "simple") (Some "/test/shaders") =
  Gl.new_Program 35718 35721 None (Some "simple") (Some "/test/shaders/").
Proof.
  apply (new_Program_adds_the_missing_slash 35718 35721 None (Some "simple")
           "/test/shaders").
  reflexivity.
Defined.
